(** * Data-loader resolution and caching (src/src/dataloader.ts)

    A shallow embedding of [LoaderResolver] (path resolution), of
    [Loader.load] (dedup registry, freshness protocol, error cooldown,
    atomic replacement of the cache file) and of the archive extractors,
    followed by the properties the specification states about them and by
    further properties of the code: the interpreter table, what [find]
    returns, the watch, source and output paths, the files, descriptors and
    registry entries of a load, and loads that follow one another.

    Conventions.
    - Paths are [string]s, exactly as the TypeScript code builds them with
      [+], template literals and the functions of [node:path/posix]; the
      functions of that module used by the loader ([dirname], [basename],
      [extname], [normalize], [join]) are modelled after Node's
      implementation.
    - File contents are byte strings; a Rocq [string] is a list of 8-bit
      characters and is used for them.
    - Timestamps ([mtimeMs], [Date.now()]) are integers (milliseconds);
      only their order is ever used by the code.
    - The file system is a finite map from the path strings handed to the
      [node:fs] functions to what is found there.  A path written with a
      trailing slash is another key than the path without: a directory the
      code reaches as [join(root, "/")] is in the map under that name.
    - [after_exec] stamps the file a production step leaves with the time
      the step ended, where the file system may have recorded an earlier one
      (the last write, or the opening of the file); what is proved of a load
      that follows another is proved for any modification time of that
      file. *)

From Stdlib Require Import ZArith String Ascii List Lia Bool.
From Stdlib Require Import DecimalString DecimalZ DecimalN.
From stdpp Require Import base gmap strings list.

Open Scope Z_scope.

(** ** Strings *)

Module Str.

Definition is_slash (c : ascii) : bool := Ascii.eqb c "/".
Definition is_dot (c : ascii) : bool := Ascii.eqb c ".".

(** [\w] of JavaScript regular expressions: [A-Za-z0-9_]. *)
Definition is_word (c : ascii) : bool :=
  let n := N_of_ascii c in
  ((48 <=? n) && (n <=? 57) || (65 <=? n) && (n <=? 90)
   || (97 <=? n) && (n <=? 122) || (n =? 95))%N.

Definition chars : string → list ascii := list_ascii_of_string.
Definition of_chars : list ascii → string := string_of_list_ascii.

(** [s.slice(n)] for [0 <= n]. *)
Fixpoint drop (n : nat) (s : string) : string :=
  match n, s with
  | O, _ => s
  | S n', String _ s' => drop n' s'
  | S _, EmptyString => EmptyString
  end.

Fixpoint starts_with (p s : string) : bool :=
  match p, s with
  | EmptyString, _ => true
  | String a p', String b s' => Ascii.eqb a b && starts_with p' s'
  | String _ _, EmptyString => false
  end.

Definition ends_with_slash (s : string) : bool :=
  match rev (chars s) with
  | c :: _ => is_slash c
  | [] => false
  end.

Definition has_root (s : string) : bool :=
  match s with
  | String c _ => is_slash c
  | EmptyString => false
  end.

Fixpoint skip_while {A} (f : A → bool) (l : list A) : list A :=
  match l with
  | x :: l' => if f x then skip_while f l' else l
  | [] => []
  end.

Fixpoint keep_while {A} (f : A → bool) (l : list A) : list A :=
  match l with
  | x :: l' => if f x then x :: keep_while f l' else []
  | [] => []
  end.

(** [s.split("/")]: the segments between slashes, empty ones included. *)
Fixpoint split (s : string) : list string :=
  match s with
  | EmptyString => [EmptyString]
  | String c s' =>
      if is_slash c then EmptyString :: split s'
      else match split s' with
           | h :: t => String c h :: t
           | [] => [String c EmptyString]
           end
  end.

(** [segs.join("/")]. *)
Fixpoint concat (segs : list string) : string :=
  match segs with
  | [] => ""
  | [x] => x
  | x :: rest => x +:+ "/" +:+ concat rest
  end.

(** [String(n)] for a non-negative integer. *)
Definition of_N (n : N) : string := NilEmpty.string_of_uint (N.to_uint n).

(** [String(z)] for an integer. *)
Definition of_Z (z : Z) : string := NilEmpty.string_of_int (Z.to_int z).

End Str.

(** ** [node:path/posix] *)

Module Path.
Import Str.

(** [dirname]: Node scans from the end down to index 1, skips trailing
    slashes, then stops at the first slash; the result is the text before
    that slash, ["/"] or ["."] when there is none, ["//"] when the slash is
    at index 1 of a rooted path. *)
Definition dirname (p : string) : string :=
  match p with
  | EmptyString => "."
  | String c0 _ =>
      let r := skip_while (λ c, negb (is_slash c))
                 (skip_while is_slash (rev (chars p))) in
      match r with
      | [] | [_] => if is_slash c0 then "/" else "."
      | _ :: rest =>
          if is_slash c0 && (length rest =? 1)%nat then "//"
          else of_chars (rev rest)
      end
  end.

(** [basename] with no suffix argument: the last segment, trailing
    slashes ignored. *)
Definition basename (p : string) : string :=
  of_chars (rev (keep_while (λ c, negb (is_slash c))
                   (skip_while is_slash (rev (chars p))))).

(** [extname]: from the last dot of the last segment, unless that segment
    has no dot, starts with its only dot, or is [".."]. *)
Definition extname (p : string) : string :=
  let rb := keep_while (λ c, negb (is_slash c))
              (skip_while is_slash (rev (chars p))) in
  let ext := keep_while (λ c, negb (is_dot c)) rb in
  match skip_while (λ c, negb (is_dot c)) rb with
  | [] => ""                              (* no dot *)
  | [_] => ""                             (* the dot starts the segment *)
  | _ :: _ :: _ =>
      if bool_decide (of_chars (rev rb) = "..") then ""
      else of_chars ("."%char :: rev ext)
  end.

(** One segment of [normalizeString]; [stack] is the list of kept
    segments, last one first. *)
Definition norm_step (allowAboveRoot : bool) (stack : list string) (seg : string)
  : list string :=
  if bool_decide (seg = "") || bool_decide (seg = ".") then stack
  else if bool_decide (seg = "..") then
    match stack with
    | top :: below =>
        if bool_decide (top = "..")
        then (if allowAboveRoot then ".." :: stack else stack)
        else below
    | [] => if allowAboveRoot then [".."] else []
    end
  else seg :: stack.

Definition norm_segs (allowAboveRoot : bool) (segs : list string) : list string :=
  rev (fold_left (norm_step allowAboveRoot) segs []).

Definition normalize (p : string) : string :=
  match p with
  | EmptyString => "."
  | _ =>
      let isAbsolute := has_root p in
      let trailingSeparator := ends_with_slash p in
      let body := concat (norm_segs (negb isAbsolute) (split p)) in
      match body with
      | EmptyString =>
          if isAbsolute then "/" else if trailingSeparator then "./" else "."
      | _ =>
          (if isAbsolute then "/" else "") +:+ body
            +:+ (if trailingSeparator then "/" else "")
      end
  end.

(** [join(...args)]: empty arguments are dropped, the rest is joined with
    slashes and normalized. *)
Definition join (args : list string) : string :=
  match filter (λ a, a ≠ "") args with
  | [] => "."
  | parts => normalize (concat parts)
  end.

(** [resolve(p)] as a list of segments; [cwd] is the absolute working
    directory of the process. *)
Definition resolve_segs (cwd p : string) : list string :=
  norm_segs false (split (if has_root p then p else cwd +:+ "/" +:+ p)).

Fixpoint strip_common (a b : list string) : list string * list string :=
  match a, b with
  | x :: a', y :: b' => if bool_decide (x = y) then strip_common a' b' else (a, b)
  | _, _ => (a, b)
  end.

(** [relative(from, to)]: both paths are resolved, their common leading
    segments dropped; one [".."] per remaining segment of [from], then
    what remains of [to]. *)
Definition relative (cwd from to : string) : string :=
  let '(up, down) := strip_common (resolve_segs cwd from) (resolve_segs cwd to) in
  concat (map (λ _, "..") up ++ down).

End Path.

Example dirname_ex1 : Path.dirname "data/items.csv" = "data". Proof. reflexivity. Qed.
Example dirname_ex2 : Path.dirname "items.csv" = ".". Proof. reflexivity. Qed.
Example dirname_ex3 : Path.dirname "/a" = "/". Proof. reflexivity. Qed.
Example dirname_ex4 : Path.dirname "//a" = "//". Proof. reflexivity. Qed.
Example dirname_ex5 : Path.dirname "a//b" = "a/". Proof. reflexivity. Qed.
Example dirname_ex6 : Path.dirname "a/b/" = "a". Proof. reflexivity. Qed.
Example basename_ex1 : Path.basename "a/b.csv/" = "b.csv". Proof. reflexivity. Qed.
Example extname_ex1 : Path.extname "a/b.tar.gz" = ".gz". Proof. reflexivity. Qed.
Example extname_ex2 : Path.extname "a/.bashrc" = "". Proof. reflexivity. Qed.
Example extname_ex3 : Path.extname "a/.." = "". Proof. reflexivity. Qed.
Example extname_ex4 : Path.extname "a/..." = ".". Proof. reflexivity. Qed.
Example extname_ex5 : Path.extname "a.b/c" = "". Proof. reflexivity. Qed.
Example join_ex1 : Path.join ["docs"; ".observablehq"; "cache"; "a/b.csv"]
                   = "docs/.observablehq/cache/a/b.csv". Proof. reflexivity. Qed.
Example join_ex2 : Path.join ["docs"; "."] = "docs". Proof. reflexivity. Qed.
Example join_ex3 : Path.join ["docs"; "a/../../../x/"] = "../x/". Proof. reflexivity. Qed.
Example join_ex4 : Path.join ["/docs"; "../.."] = "/". Proof. reflexivity. Qed.
Example join_ex5 : Path.join [""; ""] = ".". Proof. reflexivity. Qed.
Example of_N_ex : Str.of_N 4711 = "4711". Proof. reflexivity. Qed.
Example relative_ex1 : Path.relative "/work" "docs" "docs/data/items.csv.py"
                       = "data/items.csv.py". Proof. reflexivity. Qed.
Example relative_ex2 : Path.relative "/work" "docs/a" "docs/b/c" = "../b/c".
Proof. reflexivity. Qed.

(** ** Errors and results *)

(** The exceptions the loader code can raise or meet.  [error_code] is the
    [code] property that [isEnoent] inspects. *)
Inductive Error :=
  | Errno (code : string)          (* an I/O error of node:fs, e.g. ENOENT, ENOTDIR *)
  | TypeError                      (* reading a property of [undefined] *)
  | RecentError                    (* Error("loader skipped due to recent error") *)
  | ExitError (code : option Z)    (* Error(`loader exited with code ${code}`) *)
  | SpawnError                     (* the subprocess emitted "error" *)
  | FileNotFound                   (* Error("file not found") with code ENOENT *)
  | ArchiveError.                  (* the archive stream or decoder failed *)

Global Instance Error_eq_dec : EqDecision Error.
Proof. solve_decision. Defined.

Definition error_code (e : Error) : option string :=
  match e with
  | Errno c => Some c
  | FileNotFound => Some "ENOENT"
  | _ => None
  end.

(** Modelled from the spec: [isEnoent] of src/error.ts, "a recognized
    not-found error" as opposed to all others. *)
Definition isEnoent (e : Error) : bool :=
  bool_decide (error_code e = Some "ENOENT").

(** A synchronous computation that returns or throws. *)
Inductive Result (A : Type) :=
  | Ok (a : A)
  | Throw (e : Error).
Arguments Ok {A} a.
Arguments Throw {A} e.

(** ** The file system *)

Definition bytes := string.

Inductive node :=
  | File (content : bytes) (mtimeMs : Z)
  | Dir (mtimeMs : Z).

Definition node_mtime (n : node) : Z :=
  match n with File _ m => m | Dir m => m end.

Module Fs.
Import Str.

Definition existsSync (fs : gmap string node) (p : string) : bool :=
  bool_decide (is_Some (fs !! p)).

(** The name of [key] inside directory [dir], when [key] lies directly in
    it. *)
Fixpoint strip_prefix (p s : string) : option string :=
  match p, s with
  | EmptyString, _ => Some s
  | String a p', String b s' => if Ascii.eqb a b then strip_prefix p' s' else None
  | String _ _, EmptyString => None
  end.

Definition child_name (dir key : string) : option string :=
  let rest :=
    if bool_decide (dir = ".") then Some key
    else strip_prefix (if ends_with_slash dir then dir else dir +:+ "/") key in
  match rest with
  | Some n =>
      if bool_decide (n = "") || bool_decide (n = ".")
         || existsb is_slash (chars n)
      then None else Some n
  | None => None
  end.

(** [readdirSync]: the names directly under a directory, in the order the
    map enumerates them; ENOENT when nothing is there, ENOTDIR on a
    regular file. *)
Definition readdirSync (fs : gmap string node) (p : string) : Result (list string) :=
  match fs !! p with
  | None => Throw (Errno "ENOENT")
  | Some (File _ _) => Throw (Errno "ENOTDIR")
  | Some (Dir _) => Ok (omap (λ kv, child_name p kv.1) (map_to_list fs))
  end.

(** Modelled from the spec: [maybeStat] of src/files.ts, "either missing
    is no info, not an error": the modification time, or nothing. *)
Definition maybeStat (fs : gmap string node) (p : string) : option Z :=
  node_mtime <$> fs !! p.

(** [unlink(p).catch(() => {})]: removes a regular file; every failure is
    swallowed. *)
Definition unlink_quiet (p : string) (fs : gmap string node) : gmap string node :=
  match fs !! p with
  | Some (File _ _) => delete p fs
  | _ => fs
  end.

(** The directories above [p], nearest first; the working directory and
    the file-system root always exist and are left out. *)
Fixpoint ancestors (fuel : nat) (p : string) : list string :=
  match fuel with
  | O => []
  | S fuel' =>
      let d := Path.dirname p in
      if bool_decide (d = p) || bool_decide (d = ".") || bool_decide (d = "/")
      then [] else d :: ancestors fuel' d
  end.

(** Modelled from the spec: [prepareOutput] of src/files.ts, "ensure
    parent directories ... exist": every missing directory above [p] is
    created, nothing else changes. *)
Definition prepareOutput (now : Z) (p : string) (fs : gmap string node)
  : gmap string node :=
  fold_right (λ d acc, match acc !! d with
                       | None => <[d := Dir now]> acc
                       | Some _ => acc
                       end)
    fs (ancestors (S (String.length p)) p).

(** [open(p, "w")]: the file is created or truncated. *)
Definition open_w (now : Z) (p : string) (fs : gmap string node) : gmap string node :=
  <[p := File "" now]> fs.

(** What a write stream on the opened file leaves there. *)
Definition write (now : Z) (p : string) (data : bytes) (fs : gmap string node)
  : gmap string node :=
  <[p := File data now]> fs.

(** [rename(a, b)]: ENOENT when [a] is missing. *)
Definition rename (a b : string) (fs : gmap string node)
  : Result (gmap string node) :=
  match fs !! a with
  | Some n => Ok (<[b := n]> (delete a fs))
  | None => Throw (Errno "ENOENT")
  end.

(** [readFile(p)]. *)
Definition readFile (fs : gmap string node) (p : string) : Result bytes :=
  match fs !! p with
  | Some (File c _) => Ok c
  | Some (Dir _) => Throw (Errno "EISDIR")
  | None => Throw (Errno "ENOENT")
  end.

End Fs.

(** ** Loaders *)

Record LoaderOptions := {
  root : string;        (* the source root *)
  path : string;        (* the loader script or archive *)
  targetPath : string;  (* the loader's output, relative to the root *)
  useStale : bool
}.

(** The three concrete classes; an extractor's [preload] is either
    [async () => archive] (a static archive) or the [load] of the loader
    that produces the archive. *)
Inductive Loader :=
  | CommandLoader (o : LoaderOptions) (command : string) (args : list string)
  | ZipExtractor (o : LoaderOptions) (preload : Preload) (inflatePath : string)
  | TarExtractor (o : LoaderOptions) (preload : Preload) (inflatePath : string)
      (gunzip : bool)
with Preload :=
  | PreloadStatic (archive : string)
  | PreloadLoader (l : Loader).

Definition options (l : Loader) : LoaderOptions :=
  match l with
  | CommandLoader o _ _ => o
  | ZipExtractor o _ _ => o
  | TarExtractor o _ _ _ => o
  end.

(** [TarGzExtractor] is [TarExtractor] constructed with [gunzip: true]. *)
Definition TarGzExtractor (o : LoaderOptions) (preload : Preload) (inflatePath : string)
  : Loader := TarExtractor o preload inflatePath true.

Inductive ExtractorClass := ZipClass | TarClass | TarGzClass.

Definition new_Extractor (c : ExtractorClass) (o : LoaderOptions) (preload : Preload)
  (inflatePath : string) : Loader :=
  match c with
  | ZipClass => ZipExtractor o preload inflatePath
  | TarClass => TarExtractor o preload inflatePath false
  | TarGzClass => TarGzExtractor o preload inflatePath
  end.

Definition extractors : list (string * ExtractorClass) :=
  [(".zip", ZipClass); (".tar", TarClass); (".tar.gz", TarGzClass); (".tgz", TarGzClass)].

Definition defaultInterpreters : list (string * list string) :=
  [(".js", ["node"; "--no-warnings=ExperimentalWarning"]);
   (".ts", ["tsx"]);
   (".py", ["python3"]);
   (".r", ["Rscript"]);
   (".R", ["Rscript"]);
   (".rs", ["rust-script"]);
   (".go", ["go"; "run"]);
   (".java", ["java"]);
   (".jl", ["julia"]);
   (".php", ["php"]);
   (".sh", ["sh"]);
   (".exe", [])].

(** Object spread [{...base, ...over}] on string keys: a key already
    present keeps its place and takes the new value, a new key goes last. *)
Fixpoint obj_set {V} (k : string) (v : V) (o : list (string * V)) : list (string * V) :=
  match o with
  | [] => [(k, v)]
  | (k', v') :: o' =>
      if bool_decide (k = k') then (k, v) :: o' else (k', v') :: obj_set k v o'
  end.

Definition spread {V} (base over : list (string * V)) : list (string * V) :=
  fold_left (λ o kv, obj_set kv.1 kv.2 o) over base.

(** The constructor of [LoaderResolver]: the defaults overridden by the
    configuration, entries set to [null] removed. *)
Definition new_interpreters (interpreters : list (string * option (list string)))
  : list (string * list string) :=
  omap (λ kv, match kv.2 with Some v => Some (kv.1, v) | None => None end)
    (spread (map (λ kv, (kv.1, Some kv.2)) defaultInterpreters) interpreters).

(** [Map.prototype.get]. *)
Fixpoint map_get {V} (k : string) (m : list (string * V)) : option V :=
  match m with
  | [] => None
  | (k', v) :: m' => if bool_decide (k = k') then Some v else map_get k m'
  end.

(** ** The bracket-parameter pattern [/^\[(\w+)\](\.\w+)*$/] *)

Module Param.
Import Str.

Inductive ext_state :=
  | AtBoundary                 (* right after "]" *)
  | AfterDot                   (* a "." was read, a word must follow *)
  | InWord (group : string).   (* inside the current [\.\w+] group *)

(** The repeated group: the capture is that of the last repetition. *)
Fixpoint scan_exts (st : ext_state) (s : string) : option (option string) :=
  match s with
  | EmptyString =>
      match st with
      | AtBoundary => Some None
      | AfterDot => None
      | InWord g => Some (Some g)
      end
  | String c s' =>
      match st with
      | AtBoundary => if is_dot c then scan_exts AfterDot s' else None
      | AfterDot =>
          if is_word c then scan_exts (InWord (String "." (String c ""))) s' else None
      | InWord g =>
          if is_word c then scan_exts (InWord (g +:+ String c "")) s'
          else if is_dot c then scan_exts AfterDot s'
          else None
      end
  end.

(** After "[": the word, the closing bracket, then the groups. *)
Fixpoint scan_name (name : string) (s : string) : option (string * option string) :=
  match s with
  | EmptyString => None
  | String c s' =>
      if is_word c then scan_name (name +:+ String c "") s'
      else if Ascii.eqb c "]" then
        if bool_decide (name = "") then None
        else match scan_exts AtBoundary s' with
             | Some g => Some (name, g)
             | None => None
             end
      else None
  end.

(** [exec(file)]: [match[1]] and [match[2]] when the pattern matches. *)
Definition exec (file : string) : option (string * option string) :=
  match file with
  | String c s' => if Ascii.eqb c "[" then scan_name "" s' else None
  | EmptyString => None
  end.

End Param.

Example param_ex1 : Param.exec "[id].json.py" = Some ("id", Some ".py").
Proof. reflexivity. Qed.
Example param_ex2 : Param.exec "[id]" = Some ("id", None). Proof. reflexivity. Qed.
Example param_ex3 : Param.exec "[id]." = None. Proof. reflexivity. Qed.
Example param_ex4 : Param.exec "[].js" = None. Proof. reflexivity. Qed.
Example param_ex5 : Param.exec "x[id].js" = None. Proof. reflexivity. Qed.
Example param_ex6 : Param.exec "[a-b].js" = None. Proof. reflexivity. Qed.

(** ** [LoaderResolver] *)

Record FileInfo := { hash : string; info_mtimeMs : Z }.

(** [s.endsWith(suffix)]. *)
Definition ends_with (suffix s : string) : bool :=
  Str.starts_with (Str.of_chars (rev (Str.chars suffix)))
    (Str.of_chars (rev (Str.chars s))).

Section Resolver.
Import Str Path Fs.

(** The working directory of the process and the SHA-256 hex digest are
    parameters of the model. *)
Variable cwd : string.
Variable sha256hex : bytes → string.

(** The fields of the resolver, and the file system it looks at. *)
Variable the_root : string.
Variable interpreters : list (string * list string).
Variable fs : gmap string node.

(** The destructuring [[command, ...args]] of an interpreter entry and
    the [command ?? path] / [command == null ? args : [...args, path]]
    of the exact match. *)
Definition exact_command (interpreter : list string) (path : string)
  : string * list string :=
  match interpreter with
  | [] => (path, [])
  | command :: args => (command, args ++ [path])
  end.

(** The first loop of [findExact]: [None] when the loop ends without
    returning, [Some r] when it returns [r]. *)
Fixpoint findExact_loop (entries : list (string * list string))
  (targetPath : string) (useStale : bool) : option (option Loader) :=
  match entries with
  | [] => None
  | (ext, interpreter) :: rest =>
      if negb (existsSync fs (join [the_root; targetPath +:+ ext]))
      then findExact_loop rest targetPath useStale
      else if bool_decide (extname targetPath = "")
      then Some None                  (* console.warn(...); return *)
      else
        let path := join [the_root; targetPath +:+ ext] in
        let '(command, args) := exact_command interpreter path in
        Some (Some (CommandLoader
                      {| root := the_root; path := path;
                         targetPath := targetPath; useStale := useStale |}
                      command args))
  end.

(** The arguments of a parameterized loader: the script path when there
    is an interpreter, then the flag and the requested base name. *)
Definition param_command (interpreter : list string) (path name : string)
  (targetPath : string) : string * list string :=
  match interpreter with
  | [] => (path, ["--" +:+ name; basename targetPath])
  | command :: args => (command, args ++ [path; "--" +:+ name; basename targetPath])
  end.

(** The inner [for (const file of readdirSync(...))]. *)
Fixpoint scan_files (parent : string) (files : list string)
  (targetPath : string) (useStale : bool) : option Loader :=
  match files with
  | [] => None
  | file :: rest =>
      match Param.exec file with
      | None => scan_files parent rest targetPath useStale
      | Some (name, group) =>
          match group ≫= (λ g, map_get g interpreters) with
          | None => scan_files parent rest targetPath useStale
          | Some interpreter =>
              let path := join [the_root; parent; file] in
              let '(command, args) := param_command interpreter path name targetPath in
              Some (CommandLoader
                      {| root := the_root; path := path;
                         targetPath := targetPath; useStale := useStale |}
                      command args)
          end
      end
  end.

(** The second loop of [findExact].  Its body ends with an unconditional
    [return] (line 153), so it runs once, with [dir = targetPath]. *)
Definition findParameterized (targetPath : string) (useStale : bool)
  : Result (option Loader) :=
  let dir := targetPath in
  let parent := dirname dir in
  match readdirSync fs (join [the_root; parent]) with
  | Ok files => Ok (scan_files parent files targetPath useStale)
  | Throw error => if negb (isEnoent error) then Throw error else Ok None
  end.

Definition findExact (targetPath : string) (useStale : bool)
  : Result (option Loader) :=
  match findExact_loop interpreters targetPath useStale with
  | Some r => Ok r
  | None => findParameterized targetPath useStale
  end.

(** The first loop of [find]: where the walk over the ancestors ends. *)
Inductive walk_result :=
  | WalkReturn                (* reached the root, or found a folder *)
  | WalkBreak (dir : string). (* found a parent that exists *)

Fixpoint find_walk (fuel : nat) (dir : string) : option walk_result :=
  match fuel with
  | O => None
  | S fuel' =>
      let parent := dirname dir in
      if bool_decide (parent = dir) then Some WalkReturn
      else if existsSync fs (join [the_root; dir]) then Some WalkReturn
      else if existsSync fs (join [the_root; parent]) then Some (WalkBreak dir)
      else find_walk fuel' parent
  end.

Definition inflatePath_of (archive ext targetPath : string) : string :=
  Str.drop (String.length archive - String.length ext + 1)%nat targetPath.

(** The second loop of [find], over [extractors]. *)
Fixpoint find_archive (exts : list (string * ExtractorClass)) (dir : string)
  (targetPath : string) (useStale : bool) : Result (option Loader) :=
  match exts with
  | [] => Ok None
  | (ext, Extractor) :: rest =>
      let archive := dir +:+ ext in
      if existsSync fs (join [the_root; archive]) then
        Ok (Some (new_Extractor Extractor
                    {| root := the_root; path := join [the_root; archive];
                       targetPath := targetPath; useStale := useStale |}
                    (PreloadStatic archive)
                    (inflatePath_of archive ext targetPath)))
      else
        match findExact archive useStale with
        | Throw e => Throw e
        | Ok (Some archiveLoader) =>
            Ok (Some (new_Extractor Extractor
                        {| root := the_root; path := path (options archiveLoader);
                           targetPath := targetPath; useStale := useStale |}
                        (PreloadLoader archiveLoader)
                        (inflatePath_of archive ext targetPath)))
        | Ok None => find_archive rest dir targetPath useStale
        end
  end.

(** [find]; [None] only if the walk ran out of fuel, which
    [find_walk_fuel] excludes. *)
Definition find_fuel (fuel : nat) (targetPath : string) (useStale : bool)
  : option (Result (option Loader)) :=
  match findExact targetPath useStale with
  | Throw e => Some (Throw e)
  | Ok (Some exact) => Some (Ok (Some exact))
  | Ok None =>
      match find_walk fuel (dirname targetPath) with
      | None => None
      | Some WalkReturn => Some (Ok None)
      | Some (WalkBreak dir) => Some (find_archive extractors dir targetPath useStale)
      end
  end.

Definition walk_fuel (targetPath : string) : nat := (String.length targetPath + 3)%nat.

Definition find (targetPath : string) (useStale : bool)
  : option (Result (option Loader)) :=
  find_fuel (walk_fuel targetPath) targetPath useStale.

(** Modelled from the spec: [getFileInfo] of src/javascript/module.ts,
    the "file-info provider returning {contentHash, modificationTimeMs}
    for a path"; there is none for what is not a file. *)
Definition getFileInfo (root path : string) : option FileInfo :=
  match fs !! join [root; path] with
  | Some (File content mtimeMs) =>
      Some {| hash := sha256hex content; info_mtimeMs := mtimeMs |}
  | _ => None
  end.

Definition getSourceFilePath (name : string) : option (Result string) :=
  if negb (existsSync fs (join [the_root; name])) then
    match find name false with
    | None => None
    | Some (Throw e) => Some (Throw e)
    | Some (Ok (Some loader)) =>
        Some (Ok (relative cwd the_root (path (options loader))))
    | Some (Ok None) => Some (Ok name)
    end
  else Some (Ok name).

(** [createHash("sha256").digest("hex")] of nothing, of the file, or of
    the file's hash followed by [String(info.mtimeMs)]. *)
Definition getSourceFileHash (name : string) : option (Result string) :=
  match getSourceFilePath name with
  | None => None
  | Some (Throw e) => Some (Throw e)
  | Some (Ok path') =>
      match getFileInfo the_root path' with
      | None => Some (Ok (sha256hex ""))
      | Some info =>
          Some (Ok (if bool_decide (path' = name) then hash info
                    else sha256hex (hash info +:+ of_Z (info_mtimeMs info))))
      end
  end.

(** [getWatchPath]: the file itself, its [.jsx] source for a [.js] path,
    or the source of the loader that generates it. *)
Definition getWatchPath (path' : string) : option (Result (option string)) :=
  let exactPath := join [the_root; path'] in
  if existsSync fs exactPath then Some (Ok (Some exactPath))
  else if ends_with ".js" exactPath && existsSync fs (exactPath +:+ "x")
  then Some (Ok (Some (exactPath +:+ "x")))
  else match find path' false with
       | None => None
       | Some (Throw e) => Some (Throw e)
       | Some (Ok (Some loader)) => Some (Ok (Some (path (options loader))))
       | Some (Ok None) => Some (Ok None)
       end.

(** [getOutputFilePath]: the file itself, or the cached output of the
    loader that generates it. *)
Definition getOutputFilePath (name : string) : option (Result string) :=
  if negb (existsSync fs (join [the_root; name])) then
    match find name false with
    | None => None
    | Some (Throw e) => Some (Throw e)
    | Some (Ok (Some loader)) => Some (Ok (join [".observablehq"; "cache"; name]))
    | Some (Ok None) => Some (Ok name)
    end
  else Some (Ok name).

End Resolver.

(** ** Archive extraction *)

(** The decoders of jszip, tar-stream and zlib are parameters of the
    model: [unzip] gives the members of a zip archive by name (nothing for
    data that is no archive), [untar] the successive entries of a tar stream
    and the error that ends it, if any, [gunzip] the decompressed bytes. *)
Record Codecs := {
  unzip : bytes → option (gmap string bytes);
  untar : bytes → list (string * bytes) * option Error;
  gunzip : bytes → bytes
}.

Module Tar.

(** What happens to each entry the [for await] loop receives. *)
Inductive action :=
  | Resume (name : string)                (* entry.resume(): drained *)
  | Pipe (name : string) (data : bytes).  (* entry.pipe(output) *)

(** The loop of [TarExtractor.exec]: the actions taken, and the bytes
    piped when an entry is named [inflatePath]. *)
Fixpoint scan (inflatePath : string) (entries : list (string * bytes))
  : list action * option bytes :=
  match entries with
  | [] => ([], None)
  | (name, data) :: rest =>
      if bool_decide (name = inflatePath) then ([Pipe name data], Some data)
      else let '(acts, found) := scan inflatePath rest in
           (Resume name :: acts, found)
  end.

(** [TarExtractor.exec] on the bytes of the archive: what reaches the
    output, and the error thrown, if any. *)
Definition exec (codecs : Codecs) (gunzip_first : bool) (inflatePath : string)
  (archive : bytes) : bytes * option Error :=
  let input := if gunzip_first then gunzip codecs archive else archive in
  let '(entries, stream_error) := untar codecs input in
  match (scan inflatePath entries).2 with
  | Some data => (data, None)
  | None =>
      match stream_error with
      | Some e => ("", Some e)
      | None => ("", Some FileNotFound)
      end
  end.

End Tar.

Module Zip.

(** [ZipExtractor.exec] once the archive is read. *)
Definition exec (codecs : Codecs) (inflatePath : string) (archive : bytes)
  : bytes * option Error :=
  match unzip codecs archive with
  | None => ("", Some ArchiveError)
  | Some files =>
      match files !! inflatePath with
      | None => ("", Some FileNotFound)
      | Some data => (data, None)
      end
  end.

End Zip.

(** ** [Loader.load] *)

Inductive Settlement :=
  | Resolved (outputPath : string)
  | Rejected (error : Error).

Global Instance Settlement_eq_dec : EqDecision Settlement.
Proof. solve_decision. Defined.

(** Where the asynchronous body of [load] is suspended: one constructor per
    [await], named after what is awaited, with the local variables that are
    still needed. *)
Inductive Stage :=
  | AwaitLoaderStat                          (* line 274 *)
  | AwaitCacheStat (loaderStat : option Z)   (* line 275 *)
  | AwaitErrorStat (loaderStat : option Z)   (* line 283 *)
  | AwaitUnlink                              (* line 287 *)
  | AwaitPrepareTemp                         (* line 289 *)
  | AwaitPrepareCache                        (* line 290 *)
  | AwaitOpen                                (* line 291 *)
  | AwaitExit                                (* line 355: the subprocess runs *)
  | AwaitPreload (nested : option nat)       (* lines 381, 408 *)
  | AwaitExtract (archivePath : string)      (* lines 382-385, 410-415 *)
  | AwaitRename                              (* line 294 *)
  | AwaitRenameError (error : Error)         (* line 296 *)
  | AwaitClose (s : Settlement)              (* line 299 *)
  | Settled (s : Settlement)                 (* settled, [finally] reaction queued *)
  | Finalized (s : Settlement).              (* [runningCommands.delete(key)] ran *)

Record Command := { loader : Loader; stage : Stage }.

(** The freshness tags and the progress line written to [effects.output]. *)
Inductive Output :=
  | TagMissing | TagStale | TagUsingStale | TagFresh
  | LoadLine (path : string).

(** How a subprocess ends: the "close" event with its exit code ([None]
    when killed by a signal) or the "error" event. *)
Inductive ProcessEnd :=
  | Closed (code : option Z)
  | Errored.

(** The state of one process and of the file system it works on. *)
Record World := {
  fs : gmap string node;
  now : Z;                              (* Date.now() *)
  runningCommands : gmap string nat;    (* the in-flight registry *)
  commands : list Command;              (* every promise [load] created *)
  execs : list nat;                     (* the commands whose [exec] was called *)
  handles : list nat;                   (* the commands holding [tempFd] open *)
  output : list Output;
  returned : list nat                   (* the promise each [load()] call returned *)
}.

Definition init (fs0 : gmap string node) (now0 : Z) : World :=
  {| fs := fs0; now := now0; runningCommands := ∅; commands := [];
     execs := []; handles := []; output := []; returned := [] |}.

Definition set_fs (f : gmap string node) (w : World) : World :=
  {| fs := f; now := now w; runningCommands := runningCommands w;
     commands := commands w; execs := execs w; handles := handles w;
     output := output w; returned := returned w |}.

Definition set_stage (p : nat) (s : Stage) (w : World) : World :=
  {| fs := fs w; now := now w; runningCommands := runningCommands w;
     commands := alter (λ c, {| loader := loader c; stage := s |}) p (commands w);
     execs := execs w; handles := handles w;
     output := output w; returned := returned w |}.

Definition write_output (o : Output) (w : World) : World :=
  {| fs := fs w; now := now w; runningCommands := runningCommands w;
     commands := commands w; execs := execs w; handles := handles w;
     output := output w ++ [o]; returned := returned w |}.

Definition settlement_of (s : Stage) : option Settlement :=
  match s with
  | Settled r | Finalized r => Some r
  | _ => None
  end.

Definition is_finalized (s : Stage) : bool :=
  match s with Finalized _ => true | _ => false end.

Section Load.
Import Str Path.

Variable pid : N.           (* process.pid *)
Variable codecs : Codecs.

Definition key (l : Loader) : string :=
  join [root (options l); targetPath (options l)].

Definition outputPath (l : Loader) : string :=
  join [".observablehq"; "cache"; targetPath (options l)].

Definition cachePath (l : Loader) : string :=
  join [root (options l); outputPath l].

Definition tempPath (l : Loader) : string :=
  join [root (options l); ".observablehq"; "cache";
        targetPath (options l) +:+ "." +:+ of_N pid].

Definition errorPath (l : Loader) : string := tempPath l +:+ ".err".

(** The synchronous part of [load]: look the key up, and when it is
    absent start the body (up to its first [await]) and register it. *)
Definition do_load (l : Loader) (w : World) : World * nat :=
  match runningCommands w !! key l with
  | Some command =>
      (write_output (LoadLine (path (options l))) w, command)
  | None =>
      let command := length (commands w) in
      (write_output (LoadLine (path (options l)))
         {| fs := fs w; now := now w;
            runningCommands := <[key l := command]> (runningCommands w);
            commands := commands w ++ [{| loader := l; stage := AwaitLoaderStat |}];
            execs := execs w; handles := handles w;
            output := output w; returned := returned w |},
       command)
  end.

(** The call [this.exec(...)] of line 293, up to its first [await]. *)
Definition call_exec (p : nat) (l : Loader) (w : World) : World :=
  let w := {| fs := fs w; now := now w; runningCommands := runningCommands w;
              commands := commands w; execs := execs w ++ [p];
              handles := handles w; output := output w; returned := returned w |} in
  match l with
  | CommandLoader _ _ _ => set_stage p AwaitExit w
  | ZipExtractor _ (PreloadStatic _) _
  | TarExtractor _ (PreloadStatic _) _ _ => set_stage p (AwaitPreload None) w
  | ZipExtractor _ (PreloadLoader archiveLoader) _
  | TarExtractor _ (PreloadLoader archiveLoader) _ _ =>
      let '(w', q) := do_load archiveLoader w in
      set_stage p (AwaitPreload (Some q)) w'
  end.

Definition preload_of (l : Loader) : option Preload :=
  match l with
  | CommandLoader _ _ _ => None
  | ZipExtractor _ pre _ | TarExtractor _ pre _ _ => Some pre
  end.

(** The rest of an extractor's [exec] once the archive path is known:
    [None] when the process dies of an unhandled stream error (a tar
    archive that cannot be opened). *)
Definition extract (l : Loader) (archivePath : string) (f : gmap string node)
  : option (bytes * option Error) :=
  match l with
  | CommandLoader _ _ _ => None
  | ZipExtractor _ _ inflatePath =>
      match Fs.readFile f archivePath with
      | Throw e => Some ("", Some e)
      | Ok archive => Some (Zip.exec codecs inflatePath archive)
      end
  | TarExtractor _ _ inflatePath gunzip_first =>
      match Fs.readFile f archivePath with
      | Throw _ => None
      | Ok archive => Some (Tar.exec codecs gunzip_first inflatePath archive)
      end
  end.

(** After [exec]: into the [try] block's rename, or into [catch]. *)
Definition after_exec (p : nat) (l : Loader) (written : bytes) (err : option Error)
  (w : World) : World :=
  let w := set_fs (Fs.write (now w) (tempPath l) written (fs w)) w in
  match err with
  | None => set_stage p AwaitRename w
  | Some e => set_stage p (AwaitRenameError e) w
  end.

Definition release (p : nat) (w : World) : World :=
  {| fs := fs w; now := now w; runningCommands := runningCommands w;
     commands := commands w; execs := execs w;
     handles := filter (λ h, h ≠ p) (handles w);
     output := output w; returned := returned w |}.

Definition acquire (p : nat) (w : World) : World :=
  {| fs := fs w; now := now w; runningCommands := runningCommands w;
     commands := commands w; execs := execs w; handles := p :: handles w;
     output := output w; returned := returned w |}.

Definition unregister (k : string) (w : World) : World :=
  {| fs := fs w; now := now w; runningCommands := delete k (runningCommands w);
     commands := commands w; execs := execs w; handles := handles w;
     output := output w; returned := returned w |}.

(** The body of [load] from one [await] to the next: what happens when
    the operation command [p] waits for completes.  [None] when nothing
    can complete (the command is finished, waits for its subprocess, or
    for a nested load that has not settled). *)
Definition resume (p : nat) (w : World) : option World :=
  match commands w !! p with
  | None => None
  | Some c =>
      let l := loader c in
      match stage c with
      | AwaitLoaderStat =>
          Some (set_stage p (AwaitCacheStat (Fs.maybeStat (fs w) (path (options l)))) w)
      | AwaitCacheStat loaderStat =>
          match Fs.maybeStat (fs w) (cachePath l) with
          | None =>
              Some (set_stage p (AwaitErrorStat loaderStat) (write_output TagMissing w))
          | Some cacheMtime =>
              match loaderStat with
              | None => Some (set_stage p (Settled (Rejected TypeError)) w)
              | Some loaderMtime =>
                  if cacheMtime <? loaderMtime then
                    if useStale (options l)
                    then Some (set_stage p (Settled (Resolved (outputPath l)))
                                 (write_output TagUsingStale w))
                    else Some (set_stage p (AwaitErrorStat loaderStat)
                                 (write_output TagStale w))
                  else Some (set_stage p (Settled (Resolved (outputPath l)))
                               (write_output TagFresh w))
              end
          end
      | AwaitErrorStat loaderStat =>
          match Fs.maybeStat (fs w) (errorPath l) with
          | Some errorMtime =>
              match loaderStat with
              | None => Some (set_stage p (Settled (Rejected TypeError)) w)
              | Some loaderMtime =>
                  if (errorMtime >? loaderMtime) && (errorMtime >? -1000 + now w)
                  then Some (set_stage p (Settled (Rejected RecentError)) w)
                  else Some (set_stage p AwaitUnlink w)
              end
          | None => Some (set_stage p AwaitPrepareTemp w)
          end
      | AwaitUnlink =>
          Some (set_stage p AwaitPrepareTemp
                  (set_fs (Fs.unlink_quiet (errorPath l) (fs w)) w))
      | AwaitPrepareTemp =>
          Some (set_stage p AwaitPrepareCache
                  (set_fs (Fs.prepareOutput (now w) (tempPath l) (fs w)) w))
      | AwaitPrepareCache =>
          Some (set_stage p AwaitOpen
                  (set_fs (Fs.prepareOutput (now w) (cachePath l) (fs w)) w))
      | AwaitOpen =>
          Some (call_exec p l
                  (acquire p (set_fs (Fs.open_w (now w) (tempPath l) (fs w)) w)))
      | AwaitExit => None
      | AwaitPreload None =>
          match preload_of l with
          | Some (PreloadStatic archive) =>
              Some (set_stage p (AwaitExtract (join [root (options l); archive])) w)
          | _ => None
          end
      | AwaitPreload (Some q) =>
          match commands w !! q ≫= (λ c', settlement_of (stage c')) with
          | None => None
          | Some (Resolved archive) =>
              Some (set_stage p (AwaitExtract (join [root (options l); archive])) w)
          | Some (Rejected e) => Some (after_exec p l "" (Some e) w)
          end
      | AwaitExtract archivePath =>
          match extract l archivePath (fs w) with
          | None => None
          | Some (written, err) => Some (after_exec p l written err w)
          end
      | AwaitRename =>
          match Fs.rename (tempPath l) (cachePath l) (fs w) with
          | Ok f => Some (set_stage p (AwaitClose (Resolved (outputPath l))) (set_fs f w))
          | Throw e => Some (set_stage p (AwaitRenameError e) w)
          end
      | AwaitRenameError error =>
          match Fs.rename (tempPath l) (errorPath l) (fs w) with
          | Ok f => Some (set_stage p (AwaitClose (Rejected error)) (set_fs f w))
          | Throw e => Some (set_stage p (AwaitClose (Rejected e)) w)
          end
      | AwaitClose s => Some (set_stage p (Settled s) (release p w))
      | Settled s => Some (set_stage p (Finalized s) (unregister (key l) w))
      | Finalized _ => None
      end
  end.

(** The "close" or "error" event of the subprocess of command [p], which
    wrote [out] to its standard output. *)
Definition process_end (p : nat) (out : bytes) (e : ProcessEnd) (w : World)
  : option World :=
  match commands w !! p with
  | Some c =>
      match stage c with
      | AwaitExit =>
          Some (after_exec p (loader c) out
                  match e with
                  | Closed (Some 0) => None
                  | Closed code => Some (ExitError code)
                  | Errored => Some SpawnError
                  end w)
      | _ => None
      end
  | None => None
  end.

(** What can happen in the process and around it. *)
Inductive Event :=
  | Load (l : Loader)                              (* a caller calls [l.load()] *)
  | Resume (p : nat)                               (* an awaited operation completes *)
  | Exit (p : nat) (out : bytes) (e : ProcessEnd)  (* a subprocess ends *)
  | Tick (dt : Z)                                  (* time passes *)
  | Touch (path : string) (n : option node).       (* someone else changes a file *)

Definition step (w : World) (ev : Event) : option World :=
  match ev with
  | Load l =>
      let '(w', command) := do_load l w in
      Some {| fs := fs w'; now := now w'; runningCommands := runningCommands w';
              commands := commands w'; execs := execs w'; handles := handles w';
              output := output w'; returned := returned w' ++ [command] |}
  | Resume p => resume p w
  | Exit p out e => process_end p out e w
  | Tick dt =>
      if 0 <=? dt then
        Some {| fs := fs w; now := now w + dt; runningCommands := runningCommands w;
                commands := commands w; execs := execs w; handles := handles w;
                output := output w; returned := returned w |}
      else None
  | Touch path n =>
      Some (set_fs (match n with
                    | Some n' => <[path := n']> (fs w)
                    | None => delete path (fs w)
                    end) w)
  end.

Fixpoint run (w : World) (evs : list Event) : option World :=
  match evs with
  | [] => Some w
  | ev :: rest =>
      match step w ev with
      | Some w' => run w' rest
      | None => None
      end
  end.

Definition stage_of (w : World) (p : nat) : option Stage :=
  stage <$> commands w !! p.

Definition settlement (w : World) (p : nat) : option Settlement :=
  stage_of w p ≫= settlement_of.

End Load.

(** * Properties *)

(** ** Tar-family extraction *)

Section TarFacts.
Variable codecs : Codecs.

Lemma scan_found inflatePath before data after :
  Forall (λ e : string * bytes, e.1 ≠ inflatePath) before →
  Tar.scan inflatePath (before ++ (inflatePath, data) :: after)
  = (map (λ e, Tar.Resume e.1) before ++ [Tar.Pipe inflatePath data], Some data).
Proof.
  induction 1 as [|[name d] before Hne _ IH]; simpl.
  - by rewrite bool_decide_eq_true_2.
  - rewrite bool_decide_eq_false_2 by done. by rewrite IH.
Qed.

Lemma scan_not_found inflatePath entries :
  Forall (λ e : string * bytes, e.1 ≠ inflatePath) entries →
  Tar.scan inflatePath entries = (map (λ e, Tar.Resume e.1) entries, None).
Proof.
  induction 1 as [|[name d] entries Hne _ IH]; simpl; [done|].
  rewrite bool_decide_eq_false_2 by done. by rewrite IH.
Qed.

(** What the scan makes of the decoded stream: the first entry named
    [inflatePath], the error of the stream when there is none and the stream
    broke, "file not found" when it ended. *)
Lemma exec_found (gz : bool) inflatePath archive before data after stream_error :
  untar codecs (if gz then gunzip codecs archive else archive)
    = (before ++ (inflatePath, data) :: after, stream_error) →
  Forall (λ e : string * bytes, e.1 ≠ inflatePath) before →
  Tar.exec codecs gz inflatePath archive = (data, None).
Proof.
  intros Huntar Hbefore. unfold Tar.exec.
  by rewrite Huntar, (scan_found inflatePath before data after Hbefore).
Qed.

Lemma exec_not_found (gz : bool) inflatePath archive entries stream_error :
  untar codecs (if gz then gunzip codecs archive else archive)
    = (entries, stream_error) →
  Forall (λ e : string * bytes, e.1 ≠ inflatePath) entries →
  Tar.exec codecs gz inflatePath archive
  = ("", Some (default FileNotFound stream_error)).
Proof.
  intros Huntar Hnone. unfold Tar.exec.
  rewrite Huntar, (scan_not_found inflatePath entries Hnone).
  by destruct stream_error.
Qed.

End TarFacts.

Definition demo_codecs : Codecs :=
  {| unzip := λ _, None;
     untar := λ b, if bool_decide (b = "plain")
                   then ([("a.txt", "AAA"); ("b/c.csv", "1,2"); ("a.txt", "ZZZ")], None)
                   else ([], None);
     gunzip := λ b, if bool_decide (b = "gz") then "plain" else b |}.

(** ** Parameterized matching *)

Section ParameterizedFacts.
Import Str Path Fs.

Variable the_root : string.
Variable interpreters : list (string * list string).

(** The walk as the specification words it: every ancestor of
    [targetPath] is scanned in turn, a listing that fails with ENOENT is
    skipped and the walk goes on with the next ancestor, any other error
    propagates, the first match wins. *)
Fixpoint findParameterized_spec (fs : gmap string node) (fuel : nat) (dir : string)
  (targetPath : string) (useStale : bool) : Result (option Loader) :=
  match fuel with
  | O => Ok None
  | S fuel' =>
      let parent := dirname dir in
      let continue :=
        if bool_decide (parent = dir) then Ok None
        else findParameterized_spec fs fuel' parent targetPath useStale in
      match readdirSync fs (join [the_root; parent]) with
      | Ok files =>
          match scan_files the_root interpreters parent files targetPath useStale with
          | Some l => Ok (Some l)
          | None => continue
          end
      | Throw error => if isEnoent error then continue else Throw error
      end
  end.

(** A file of the listing is a candidate when its name matches the bracket
    pattern and its last extension has an interpreter. *)
Definition candidate (file : string) : option (string * list string) :=
  match Param.exec file with
  | Some (name, Some g) =>
      match map_get g interpreters with
      | Some interpreter => Some (name, interpreter)
      | None => None
      end
  | _ => None
  end.

Lemma scan_files_first parent before file after name interpreter targetPath useStale :
  Forall (λ f, candidate f = None) before →
  candidate file = Some (name, interpreter) →
  scan_files the_root interpreters parent (before ++ file :: after) targetPath useStale
  = (let path := join [the_root; parent; file] in
     let '(command, args) := param_command interpreter path name targetPath in
     Some (CommandLoader {| root := the_root; path := path;
                            targetPath := targetPath; useStale := useStale |}
             command args)).
Proof.
  intros Hbefore Hfile.
  induction Hbefore as [|f before Hf _ IH]; simpl.
  - unfold candidate in Hfile.
    destruct (Param.exec file) as [[n [g|]]|]; try done. simpl.
    destruct (map_get g interpreters); [|done]. by simplify_eq.
  - unfold candidate in Hf.
    destruct (Param.exec f) as [[n [g|]]|]; simpl; try done.
    destruct (map_get g interpreters); done.
Qed.

Lemma scan_files_none parent files targetPath useStale :
  Forall (λ f, candidate f = None) files →
  scan_files the_root interpreters parent files targetPath useStale = None.
Proof.
  induction 1 as [|f files Hf _ IH]; simpl; [done|].
  unfold candidate in Hf.
  destruct (Param.exec f) as [[n [g|]]|]; simpl; try done.
  destruct (map_get g interpreters); done.
Qed.

(** C6 (amended). Parameterized matching scans one directory only, the
    one [targetPath] lies in: the first entry of its listing whose name is a
    bracket parameter with a registered last extension gives the loader; a
    listing that fails with ENOENT is swallowed and the result is
    [undefined], without any ancestor being scanned; any other error of the
    listing propagates. *)
Theorem findParameterized_single_scan (fs : gmap string node) (targetPath : string)
    (useStale : bool) :
  let parent := dirname targetPath in
  let listing := readdirSync fs (join [the_root; parent]) in
  (∀ files, listing = Ok files →
     findParameterized the_root interpreters fs targetPath useStale
     = Ok (scan_files the_root interpreters parent files targetPath useStale)
     ∧ (∀ before file after name interpreter,
          files = before ++ file :: after →
          Forall (λ f, candidate f = None) before →
          candidate file = Some (name, interpreter) →
          ∃ command args,
            param_command interpreter (join [the_root; parent; file]) name targetPath
              = (command, args)
            ∧ findParameterized the_root interpreters fs targetPath useStale
              = Ok (Some (CommandLoader
                            {| root := the_root; path := join [the_root; parent; file];
                               targetPath := targetPath; useStale := useStale |}
                            command args)))
     ∧ (Forall (λ f, candidate f = None) files →
        findParameterized the_root interpreters fs targetPath useStale = Ok None))
  ∧ (∀ e, listing = Throw e → isEnoent e = true →
       findParameterized the_root interpreters fs targetPath useStale = Ok None)
  ∧ (∀ e, listing = Throw e → isEnoent e = false →
       findParameterized the_root interpreters fs targetPath useStale = Throw e)
  ∧ (∀ fs', readdirSync fs' (join [the_root; parent]) = listing →
       findParameterized the_root interpreters fs' targetPath useStale
       = findParameterized the_root interpreters fs targetPath useStale).
Proof.
  intros parent listing. subst parent listing.
  split; [|split; [|split]].
  - intros files Hls. unfold findParameterized. rewrite Hls.
    split; [done|]. split.
    + intros before file after name interpreter -> Hbefore Hfile.
      rewrite (scan_files_first _ _ _ _ _ _ _ _ Hbefore Hfile). cbv zeta.
      destruct (param_command interpreter _ name targetPath) as [command args].
      exists command, args. split; reflexivity.
    + intros Hnone. by rewrite scan_files_none.
  - intros e Hls He. unfold findParameterized. by rewrite Hls, He.
  - intros e Hls He. unfold findParameterized. by rewrite Hls, He.
  - intros fs' Hls. unfold findParameterized. by rewrite Hls.
Qed.

End ParameterizedFacts.

(** A source root in which the directory of the request does not exist but
    its parent holds a parameterized loader. *)
Definition fs_param : gmap string node :=
  list_to_map [("docs", Dir 1); ("docs/p", Dir 1);
               ("docs/p/[id].js", File "console.log(1)" 2)].

(** C6 (as stated) fails: for [p/q/42.json] the listing of [docs/p/q] fails
    with ENOENT; the code swallows the error and returns [undefined], while
    a walk that continued to the next ancestor would find [docs/p/[id].js]. *)
Lemma parameterized_walk_counterexample :
  Fs.readdirSync fs_param (Path.join ["docs"; Path.dirname "p/q/42.json"])
    = Throw (Errno "ENOENT")
  ∧ findExact "docs" defaultInterpreters fs_param "p/q/42.json" false = Ok None
  ∧ findParameterized "docs" defaultInterpreters fs_param "p/q/42.json" false = Ok None
  ∧ findParameterized_spec "docs" defaultInterpreters fs_param 10 "p/q/42.json"
      "p/q/42.json" false
    = Ok (Some (CommandLoader
                  {| root := "docs"; path := "docs/p/[id].js";
                     targetPath := "p/q/42.json"; useStale := false |}
                  "node" ["--no-warnings=ExperimentalWarning"; "docs/p/[id].js";
                          "--id"; "42.json"]))
  ∧ findParameterized "docs" defaultInterpreters fs_param "p/q/42.json" false
    ≠ findParameterized_spec "docs" defaultInterpreters fs_param 10 "p/q/42.json"
        "p/q/42.json" false.
Proof. vm_compute. repeat split; discriminate. Qed.

Lemma findParameterized_single_scan_witness :
  findParameterized "docs" defaultInterpreters fs_param "p/42.json" false
  = Ok (Some (CommandLoader
                {| root := "docs"; path := "docs/p/[id].js";
                   targetPath := "p/42.json"; useStale := false |}
                "node" ["--no-warnings=ExperimentalWarning"; "docs/p/[id].js";
                        "--id"; "42.json"]))
  ∧ findParameterized "docs" defaultInterpreters fs_param "p/q/42.json" false = Ok None
  ∧ findParameterized "docs" defaultInterpreters fs_param "p/[id].js/x" false
    = Throw (Errno "ENOTDIR").
Proof.
  split; [|split].
  - destruct (findParameterized_single_scan "docs" defaultInterpreters fs_param
                "p/42.json" false) as [Hok _].
    destruct (Hok ["[id].js"] eq_refl) as (_ & Hfirst & _).
    destruct (Hfirst [] "[id].js" [] "id" ["node"; "--no-warnings=ExperimentalWarning"]
                eq_refl (Forall_nil_2 _) eq_refl) as (command & args & Hc & ->).
    vm_compute in Hc. by injection Hc as <- <-.
  - destruct (findParameterized_single_scan "docs" defaultInterpreters fs_param
                "p/q/42.json" false) as (_ & Hnf & _).
    apply (Hnf (Errno "ENOENT")); reflexivity.
  - destruct (findParameterized_single_scan "docs" defaultInterpreters fs_param
                "p/[id].js/x" false) as (_ & _ & Herr & _).
    apply (Herr (Errno "ENOTDIR")); reflexivity.
Defined.

(** ** Facts about strings and paths *)

Module StrFacts.
Import Str.

Lemma sapp_cons c s t : String c s +:+ t = String c (s +:+ t).
Proof. reflexivity. Qed.

Lemma sapp_nil_l s : "" +:+ s = s.
Proof. reflexivity. Qed.

Lemma sapp_nil_r s : s +:+ "" = s.
Proof. induction s as [|c s IH]; [done|]. by rewrite sapp_cons, IH. Qed.

Lemma sapp_assoc a b c : (a +:+ b) +:+ c = a +:+ b +:+ c.
Proof. induction a as [|x a IH]; [done|]. by rewrite !sapp_cons, IH. Qed.

Lemma slength_app a b :
  String.length (a +:+ b) = (String.length a + String.length b)%nat.
Proof. induction a as [|x a IH]; [done|]. rewrite sapp_cons. simpl. by rewrite IH. Qed.

Lemma of_chars_app a b : of_chars (a ++ b) = of_chars a +:+ of_chars b.
Proof. induction a as [|x a IH]; [done|]. simpl. by rewrite IH. Qed.

Lemma chars_app a b : chars (a +:+ b) = chars a ++ chars b.
Proof. induction a as [|x a IH]; [done|]. rewrite sapp_cons. simpl. by rewrite IH. Qed.

Lemma of_chars_chars s : of_chars (chars s) = s.
Proof. apply string_of_list_ascii_of_string. Qed.

Lemma chars_of_chars l : chars (of_chars l) = l.
Proof. apply list_ascii_of_string_of_list_ascii. Qed.

Lemma length_of_chars l : String.length (of_chars l) = length l.
Proof. induction l as [|x l IH]; [done|]. simpl. by rewrite IH. Qed.

Lemma length_chars s : length (chars s) = String.length s.
Proof. by rewrite <- (of_chars_chars s) at 2; rewrite length_of_chars. Qed.

Lemma drop_app a b : drop (String.length a) (a +:+ b) = b.
Proof. induction a as [|x a IH]; [done|]. rewrite sapp_cons. simpl. exact IH. Qed.

Lemma is_slash_true c : is_slash c = true → c = "/"%char.
Proof. apply Ascii.eqb_eq. Qed.

Lemma skip_while_split {A} (f : A → bool) l :
  ∃ pre, l = pre ++ skip_while f l ∧ Forall (λ x, f x = true) pre.
Proof.
  induction l as [|x l (pre & IH & Hpre)]; simpl.
  - by exists [].
  - destruct (f x) eqn:Hx.
    + exists (x :: pre). split; [by rewrite IH at 1|by constructor].
    + by exists [].
Qed.

Lemma skip_while_head {A} (f : A → bool) l x t :
  skip_while f l = x :: t → f x = false.
Proof.
  induction l as [|y l IH]; simpl; [done|].
  destruct (f y) eqn:Hy; [done|]. intros [= -> ->]. done.
Qed.

End StrFacts.

Module PathFacts.
Import Str Path StrFacts.

(** What [dirname] returns: one of the three fixed answers, or the text of
    the argument before one of its slashes. *)
Lemma dirname_cases_strong p :
  dirname p = "." ∨ dirname p = "/"
  ∨ (dirname p = "//" ∧ (2 < String.length p)%nat)
  ∨ ∃ tail, p = dirname p +:+ "/" +:+ tail.
Proof.
  destruct p as [|c0 s]; [by left|].
  unfold dirname.
  set (l := rev (chars (String c0 s))).
  destruct (skip_while_split is_slash l) as (pre1 & H1 & _).
  destruct (skip_while_split (λ c, negb (is_slash c)) (skip_while is_slash l))
    as (pre2 & H2 & _).
  destruct (skip_while (λ c, negb (is_slash c)) (skip_while is_slash l))
    as [|x [|y rest]] eqn:Hr.
  - destruct (is_slash c0); auto.
  - destruct (is_slash c0); auto.
  - assert (chars (String c0 s)
            = rev (y :: rest) ++ x :: rev (pre1 ++ pre2)) as Hchars.
    { rewrite <- (rev_involutive (chars (String c0 s))). fold l.
      rewrite H1, H2. rewrite List.app_assoc, rev_app_distr.
      change (x :: y :: rest) with ([x] ++ (y :: rest)).
      rewrite (rev_app_distr [x]). simpl rev at 2.
      by rewrite <- List.app_assoc. }
    destruct (is_slash c0 && (length (y :: rest) =? 1)%nat) eqn:Hroot.
    + right; right; left. split; [done|].
      rewrite <- length_chars, Hchars.
      rewrite length_app, !length_rev. cbn [length]. rewrite length_rev, length_app.
      destruct pre2 as [|c pre2]; [|cbn [length]; lia].
      exfalso. simpl in H2. rewrite H2 in Hr.
      pose proof (skip_while_head _ _ _ _ Hr) as Hx. simpl in Hx.
      destruct (skip_while_split is_slash l) as (pre & Hl & Hpre).
      assert (skip_while is_slash l = x :: y :: rest) as Hr1 by done.
      apply skip_while_head in Hr1. by rewrite Hr1 in Hx.
    + right; right; right.
      apply skip_while_head in Hr. apply negb_false_iff, is_slash_true in Hr as ->.
      exists (of_chars (rev (pre1 ++ pre2))).
      rewrite <- (of_chars_chars (String c0 s)) at 1.
      rewrite Hchars, of_chars_app. reflexivity.
Qed.

Lemma dirname_cases p :
  dirname p = "." ∨ dirname p = "/" ∨ dirname p = "//"
  ∨ ∃ tail, p = dirname p +:+ "/" +:+ tail.
Proof. destruct (dirname_cases_strong p) as [?|[?|[[? _]|?]]]; auto. Qed.


Definition special (d : string) : Prop := d = "." ∨ d = "/" ∨ d = "//".

Lemma dirname_special d : special d → special (dirname d).
Proof. intros [->|[->| ->]]; vm_compute; auto. Qed.

Lemma dirname_shorter p :
  special (dirname p) ∨ (String.length (dirname p) < String.length p)%nat.
Proof.
  destruct (dirname_cases p) as [H|[H|[H|[tail H]]]]; [left; red; auto..|].
  right. rewrite H at 2. rewrite !slength_app. simpl. lia.
Qed.

(** ** Segments *)

Lemma split_nonempty s : split s ≠ [].
Proof.
  destruct s as [|c s]; simpl; [done|].
  destruct (is_slash c); [done|]. by destruct (split s).
Qed.

Lemma split_app_slash a b : split (a +:+ "/" +:+ b) = split a ++ split b.
Proof.
  induction a as [|c a IH].
  - reflexivity.
  - rewrite sapp_cons. simpl. rewrite IH.
    destruct (is_slash c); [done|].
    pose proof (split_nonempty a). by destruct (split a).
Qed.

Lemma has_root_app a b : a ≠ "" → has_root (a +:+ b) = has_root a.
Proof. by destruct a. Qed.

Lemma ends_with_slash_app a b : b ≠ "" → ends_with_slash (a +:+ b) = ends_with_slash b.
Proof.
  intros Hb. unfold ends_with_slash. rewrite chars_app, rev_app_distr.
  destruct (rev (chars b)) eqn:Hr; [|done].
  apply (f_equal (@rev _)) in Hr. rewrite rev_involutive in Hr. simpl in Hr.
  apply (f_equal of_chars) in Hr. rewrite of_chars_chars in Hr. done.
Qed.

(** [normalize] in two steps: the stack of kept segments, then the text. *)
Definition stack (allowAboveRoot : bool) (s : string) (st : list string) : list string :=
  fold_left (norm_step allowAboveRoot) (split s) st.

Definition render (isAbsolute trailingSeparator : bool) (st : list string) : string :=
  match concat (rev st) with
  | EmptyString =>
      if isAbsolute then "/" else if trailingSeparator then "./" else "."
  | body =>
      (if isAbsolute then "/" else "") +:+ body
        +:+ (if trailingSeparator then "/" else "")
  end.

Lemma normalize_render s :
  s ≠ "" →
  normalize s = render (has_root s) (ends_with_slash s) (stack (negb (has_root s)) s []).
Proof.
  intros H. destruct s as [|c s]; [done|].
  unfold normalize, render, stack, norm_segs.
  by destruct (concat _).
Qed.

Lemma stack_app_slash f a b st : stack f (a +:+ "/" +:+ b) st = stack f b (stack f a st).
Proof. unfold stack. by rewrite split_app_slash, fold_left_app. Qed.

Lemma join_pair a b :
  a ≠ "" → b ≠ "" → join [a; b] = normalize (a +:+ "/" +:+ b).
Proof.
  intros Ha Hb. unfold join.
  rewrite filter_cons_True, filter_cons_True by done.
  rewrite filter_nil. simpl. by destruct b.
Qed.

Lemma join_empty_root b : b ≠ "" → join [""; b] = normalize b.
Proof.
  intros Hb. unfold join.
  rewrite filter_cons_False by (intros H; by apply H).
  rewrite filter_cons_True by done. by rewrite filter_nil.
Qed.

Lemma app_nonempty_r a b : b ≠ "" → a +:+ b ≠ "".
Proof. destruct a, b; done. Qed.

Lemma join_double_slash the_root : join [the_root; "//"] = join [the_root; "/"].
Proof.
  destruct (decide (the_root = "")) as [->|Hroot]; [reflexivity|].
  rewrite !join_pair by done.
  rewrite !normalize_render by (by apply app_nonempty_r).
  rewrite !has_root_app by done.
  rewrite !ends_with_slash_app by done.
  by rewrite !stack_app_slash.
Qed.

(** A segment without slash. *)
Definition slash_free (seg : string) : Prop :=
  Forall (λ c, is_slash c = false) (chars seg).

(** A segment [normalizeString] keeps: not empty, not ["."], no slash. *)
Definition clean (seg : string) : Prop :=
  seg ≠ "" ∧ seg ≠ "." ∧ slash_free seg.

Lemma split_slash_free s : Forall slash_free (split s).
Proof.
  induction s as [|c s IH]; simpl.
  - repeat constructor.
  - destruct (is_slash c) eqn:Hc.
    + constructor; [constructor|done].
    + pose proof (split_nonempty s). destruct (split s) as [|h t]; [done|].
      inversion IH; subst. constructor; [|done]. by constructor.
Qed.

Lemma split_single s : slash_free s → split s = [s].
Proof.
  induction s as [|c s IH]; intros Hs; [done|].
  inversion Hs as [|? ? Hc Hs']; subst. simpl. rewrite Hc. by rewrite IH.
Qed.

Lemma concat_cons x segs : segs ≠ [] → concat (x :: segs) = x +:+ "/" +:+ concat segs.
Proof. by destruct segs. Qed.

Lemma split_concat segs :
  segs ≠ [] → Forall slash_free segs → split (concat segs) = segs.
Proof.
  induction segs as [|x segs IH]; [done|]. intros _ Hall.
  inversion Hall as [|? ? Hx Hrest]; subst.
  destruct segs as [|y segs].
  - by apply split_single.
  - rewrite concat_cons by done. rewrite split_app_slash, split_single by done.
    by rewrite IH.
Qed.

Lemma concat_snoc segs y :
  concat (segs ++ [y])
  = (match segs with [] => "" | _ => concat segs +:+ "/" end) +:+ y.
Proof.
  induction segs as [|x segs IH]; [done|].
  destruct segs as [|z segs].
  - simpl. by rewrite sapp_assoc.
  - change ((x :: z :: segs) ++ [y]) with (x :: ((z :: segs) ++ [y])).
    rewrite concat_cons by done. rewrite IH.
    rewrite (concat_cons x (z :: segs)) by done.
    by rewrite !sapp_assoc.
Qed.

Lemma split_app_tail tp d :
  slash_free d →
  ∃ init last, split tp = init ++ [last] ∧ split (tp +:+ d) = init ++ [last +:+ d].
Proof.
  intros Hd. induction tp as [|c tp (init & last & H1 & H2)].
  - exists [], "". split; [done|]. by apply split_single.
  - rewrite sapp_cons. simpl. rewrite H1, H2. destruct (is_slash c).
    + by exists ("" :: init), last.
    + destruct init as [|h t]; simpl.
      * by exists [], (String c last).
      * by exists (String c h :: t), last.
Qed.

Lemma slash_free_app a b : slash_free a → slash_free b → slash_free (a +:+ b).
Proof. unfold slash_free. rewrite chars_app. apply Forall_app_2. Qed.

Lemma ends_with_slash_free s : slash_free s → ends_with_slash s = false.
Proof.
  unfold slash_free, ends_with_slash. intros Hs.
  apply Forall_rev in Hs. destruct (rev (chars s)); [done|]. by inversion Hs.
Qed.

Lemma has_root_free s : slash_free s → has_root s = false.
Proof. destruct s; [done|]. intros Hs. by inversion Hs. Qed.

(** The stack only ever holds clean segments. *)
Lemma norm_step_clean f st seg :
  slash_free seg → Forall clean st → Forall clean (norm_step f st seg).
Proof.
  intros Hseg Hst. unfold norm_step.
  repeat case_bool_decide; simpl; subst; try done.
  - destruct st as [|top below].
    + destruct f; repeat constructor; done.
    + inversion Hst; subst. case_bool_decide; [|done].
      destruct f; [|done]. constructor; [|done]. repeat split; done.
  - constructor; [|done]. repeat split; done.
Qed.

Lemma fold_clean f segs st :
  Forall slash_free segs → Forall clean st →
  Forall clean (fold_left (norm_step f) segs st).
Proof.
  intros Hsegs. revert st. induction Hsegs as [|seg segs Hseg _ IH]; intros st Hst.
  - done.
  - simpl. apply IH. by apply norm_step_clean.
Qed.

Lemma stack_clean f s st : Forall clean st → Forall clean (stack f s st).
Proof. apply fold_clean, split_slash_free. Qed.

Lemma norm_step_skip f st seg : seg = "" ∨ seg = "." → norm_step f st seg = st.
Proof. intros [->| ->]; reflexivity. Qed.

Lemma norm_step_push f st seg :
  seg ≠ "" → seg ≠ "." → seg ≠ ".." → norm_step f st seg = seg :: st.
Proof. intros. unfold norm_step. by rewrite !bool_decide_eq_false_2. Qed.

Lemma norm_step_pop f top below :
  top ≠ ".." → norm_step f (top :: below) ".." = below.
Proof. intros. unfold norm_step. simpl. by rewrite bool_decide_eq_false_2. Qed.

Lemma norm_step_above below : norm_step true (".." :: below) ".." = ".." :: ".." :: below.
Proof. reflexivity. Qed.

(** Normalizing twice: replaying the segments [normalize] kept is the same
    as going through the original ones. *)
Lemma replay f segs st :
  Forall slash_free segs →
  fold_left (norm_step f) (rev (fold_left (norm_step true) segs [])) st
  = fold_left (norm_step f) segs st.
Proof.
  induction segs as [|y segs IH] using rev_ind; [done|]. intros Hall.
  apply Forall_app in Hall as [Hsegs Hy]. inversion Hy as [|? ? Hy' _]; subst.
  specialize (IH Hsegs).
  rewrite !fold_left_app. simpl.
  pose proof (fold_clean true segs [] Hsegs (Forall_nil_2 _)) as Hclean.
  rewrite <- IH.
  destruct (decide (y = "" ∨ y = ".")) as [Hskip|Hkeep].
  { by rewrite !norm_step_skip. }
  destruct (decide (y = "..")) as [->|Hup].
  - destruct (fold_left (norm_step true) segs []) as [|top below]; [done|].
    inversion Hclean as [|? ? (Ht1 & Ht2 & Ht3) _]; subst.
    destruct (decide (top = "..")) as [->|Htop].
    + rewrite norm_step_above. simpl.
      rewrite (fold_left_app _ (rev below ++ [".."]) [".."]). reflexivity.
    + rewrite norm_step_pop by done. cbn [rev]. rewrite fold_left_app.
      cbn [fold_left]. rewrite (norm_step_push f _ top) by done.
      by rewrite norm_step_pop.
  - rewrite (norm_step_push true) by tauto. cbn [rev].
    rewrite fold_left_app. reflexivity.
Qed.



Lemma concat_split s : concat (split s) = s.
Proof.
  induction s as [|c s IH]; [done|]. simpl.
  pose proof (split_nonempty s) as Hne.
  destruct (is_slash c) eqn:Hc.
  - apply is_slash_true in Hc as ->. rewrite concat_cons by done. by rewrite IH.
  - destruct (split s) as [|h t]; [done|].
    destruct t as [|h' t].
    + simpl in *. by rewrite IH.
    + rewrite concat_cons in * by done. rewrite sapp_cons. by rewrite IH.
Qed.

Lemma clean_nonempty seg : clean seg → seg ≠ "".
Proof. by intros [? _]. Qed.

Lemma concat_nonempty segs :
  segs ≠ [] → Forall clean segs → concat segs ≠ "".
Proof.
  destruct segs as [|x segs]; [done|]. intros _ Hall.
  inversion Hall as [|? ? [Hx _] _]; subst.
  destruct segs; [done|]. rewrite concat_cons by done. by destruct x.
Qed.

Lemma render_nil abs t :
  render abs t [] = if abs then "/" else if t then "./" else ".".
Proof. reflexivity. Qed.

Lemma render_cons abs t st :
  st ≠ [] → Forall clean st →
  render abs t st
  = (if abs then "/" else "") +:+ concat (rev st) +:+ (if t then "/" else "").
Proof.
  intros Hne Hall. unfold render.
  assert (concat (rev st) ≠ "") as Hc.
  { apply concat_nonempty; [|by apply Forall_rev].
    intros H. apply (f_equal (@rev _)) in H. by rewrite rev_involutive in H. }
  by destruct (concat (rev st)).
Qed.

Lemma render_nonempty abs t st : render abs t st ≠ "".
Proof.
  unfold render. destruct (concat (rev st)) eqn:H.
  - by destruct abs, t.
  - destruct abs; [done|]. rewrite sapp_nil_l, sapp_cons. done.
Qed.

Lemma clean_slash_free st : Forall clean st → Forall slash_free st.
Proof. intros H. eapply Forall_impl; [exact H|]. by intros ? (_ & _ & ?). Qed.

Lemma rev_nonempty {A} (l : list A) : l ≠ [] → rev l ≠ [].
Proof.
  intros Hne H. apply (f_equal (@rev _)) in H. by rewrite rev_involutive in H.
Qed.

Lemma stack_render f t st stk :
  Forall clean st →
  stack f (render false t st) stk = fold_left (norm_step f) (rev st) stk.
Proof.
  intros Hall. destruct st as [|top below].
  - by destruct t.
  - rewrite render_cons by done. rewrite sapp_nil_l. unfold stack.
    assert (split (concat (rev (top :: below))) = rev (top :: below)) as Hsplit.
    { apply split_concat; [by apply rev_nonempty|].
      by apply Forall_rev, clean_slash_free. }
    destruct t.
    + replace "/" with ("/" +:+ "") by done.
      rewrite split_app_slash, Hsplit, fold_left_app. reflexivity.
    + by rewrite sapp_nil_r, Hsplit.
Qed.

Lemma has_root_concat segs : Forall clean segs → has_root (concat segs) = false.
Proof.
  destruct segs as [|x segs]; [done|]. intros Hall.
  inversion Hall as [|? ? (Hx & _ & Hfree) _]; subst.
  destruct segs.
  - by apply has_root_free.
  - rewrite concat_cons by done. rewrite has_root_app by done.
    by apply has_root_free.
Qed.

Lemma has_root_render t st : Forall clean st → has_root (render false t st) = false.
Proof.
  intros Hall. destruct st as [|top below]; [by destruct t|].
  rewrite render_cons by done. rewrite sapp_nil_l.
  rewrite has_root_app.
  - by apply has_root_concat, Forall_rev.
  - apply concat_nonempty; [by apply rev_nonempty|by apply Forall_rev].
Qed.

Lemma ends_with_slash_render t st :
  Forall clean st → ends_with_slash (render false t st) = t.
Proof.
  intros Hall. destruct st as [|top below]; [by destruct t|].
  rewrite render_cons by done.
  destruct t.
  - rewrite <- sapp_assoc. by rewrite ends_with_slash_app.
  - rewrite sapp_nil_r. cbn [rev]. rewrite concat_snoc.
    inversion Hall as [|? ? (Htop & _ & Hfree) _]; subst.
    rewrite <- sapp_assoc. rewrite ends_with_slash_app by done.
    by apply ends_with_slash_free.
Qed.

Lemma normalize_as_render b :
  b ≠ "" →
  ∃ st, Forall clean st ∧ st = stack (negb (has_root b)) b []
        ∧ normalize b = render (has_root b) (ends_with_slash b) st.
Proof.
  intros Hb. eexists. split; [|split; [reflexivity|by apply normalize_render]].
  by apply stack_clean.
Qed.

Lemma normalize_twice b :
  b ≠ "" → has_root b = false → normalize (normalize b) = normalize b.
Proof.
  intros Hb Hrel. rewrite (normalize_render b) by done. rewrite Hrel. simpl negb.
  pose proof (stack_clean true b [] (Forall_nil_2 _)) as Hclean.
  rewrite normalize_render by apply render_nonempty.
  rewrite has_root_render, ends_with_slash_render by done. simpl negb.
  rewrite stack_render by done. unfold stack at 1.
  by rewrite replay by apply split_slash_free.
Qed.

Lemma ends_with_slash_under a x :
  x ≠ "" → ends_with_slash (a +:+ "/" +:+ x) = ends_with_slash x.
Proof. intros Hx. rewrite <- sapp_assoc. by apply ends_with_slash_app. Qed.

Lemma normalize_under a b :
  a ≠ "" → b ≠ "" → has_root b = false →
  normalize (a +:+ "/" +:+ normalize b) = normalize (a +:+ "/" +:+ b).
Proof.
  intros Ha Hb Hrel.
  rewrite !(normalize_render (a +:+ _)) by (by destruct a).
  rewrite !has_root_app by done.
  rewrite (ends_with_slash_under a b) by done.
  rewrite (normalize_render b) by done. rewrite Hrel. simpl negb.
  rewrite ends_with_slash_under by apply render_nonempty.
  rewrite !stack_app_slash.
  pose proof (stack_clean true b [] (Forall_nil_2 _)) as Hclean.
  rewrite ends_with_slash_render by done.
  rewrite stack_render by done. unfold stack at 1.
  rewrite replay by apply split_slash_free. reflexivity.
Qed.

End PathFacts.

(** ** The archive fallback of [find] *)

Section ArchiveFacts.
Import Str Path Fs StrFacts PathFacts.

Variable the_root : string.
Variable interpreters : list (string * list string).
Variable fs : gmap string node.

(** The directory the walk looks at in its iteration [k] (from 0). *)
Definition nth_dir (k : nat) (targetPath : string) : string :=
  Nat.iter (S k) dirname targetPath.

(** The walk goes on past [dir]: it is not the end of the path, and neither
    it nor its parent exists. *)
Definition walks_past (dir : string) : Prop :=
  dirname dir ≠ dir
  ∧ existsSync fs (join [the_root; dir]) = false
  ∧ existsSync fs (join [the_root; dirname dir]) = false.

Definition rank (d : string) : nat :=
  if bool_decide (d = ".") || bool_decide (d = "/") then 1%nat
  else if bool_decide (d = "//") then 2%nat
  else (String.length d + 3)%nat.

Lemma rank_special d : special d → (rank d ≤ 2)%nat.
Proof. intros [->|[->| ->]]; vm_compute; lia. Qed.

Lemma rank_le d : (rank d ≤ String.length d + 3)%nat.
Proof. unfold rank. repeat case_match; lia. Qed.

Lemma rank_dirname d : dirname d ≠ d → (rank (dirname d) < rank d)%nat.
Proof.
  intros Hne.
  destruct (decide (special d)) as [[->|[->| ->]]|Hd];
    [by destruct Hne|by destruct Hne|vm_compute; lia|].
  assert (rank d = (String.length d + 3)%nat) as ->.
  { unfold rank. unfold special in Hd.
    repeat (case_bool_decide; simpl); try lia; exfalso; apply Hd; auto. }
  destruct (dirname_shorter d) as [Hs|Hlt].
  - apply rank_special in Hs. lia.
  - pose proof (rank_le (dirname d)). lia.
Qed.

(** The walk always ends: the fuel [find] gives it is enough. *)
Lemma find_walk_fuel fuel dir :
  (rank dir ≤ fuel)%nat → is_Some (find_walk the_root fs fuel dir).
Proof.
  revert dir. induction fuel as [|fuel IH]; intros dir Hrank.
  - unfold rank in Hrank. repeat case_match; lia.
  - simpl. case_bool_decide as Hp; [by eexists|].
    destruct (existsSync fs (join [the_root; dir])); [by eexists|].
    destruct (existsSync fs (join [the_root; dirname dir])); [by eexists|].
    apply IH. pose proof (rank_dirname dir Hp). lia.
Qed.

Lemma rank_start targetPath : (rank (dirname targetPath) ≤ walk_fuel targetPath)%nat.
Proof.
  unfold walk_fuel. destruct (dirname_shorter targetPath) as [Hs|Hlt].
  - apply rank_special in Hs. lia.
  - pose proof (rank_le (dirname targetPath)). lia.
Qed.

Lemma find_total targetPath useStale :
  is_Some (find the_root interpreters fs targetPath useStale).
Proof.
  unfold find, find_fuel.
  destruct (findExact _ _ _ _ _) as [[l|]|e]; [by eexists..| |by eexists].
  destruct (find_walk_fuel _ _ (rank_start targetPath)) as [r ->].
  destruct r; by eexists.
Qed.

(** Where the walk ends, given how it went. *)
Lemma find_walk_at fuel dir k r :
  find_walk the_root fs fuel dir = Some r →
  (∀ j, (j < k)%nat → walks_past (Nat.iter j dirname dir)) →
  let d := Nat.iter k dirname dir in
  (dirname d = d → r = WalkReturn)
  ∧ (dirname d ≠ d → existsSync fs (join [the_root; d]) = true → r = WalkReturn)
  ∧ (dirname d ≠ d → existsSync fs (join [the_root; d]) = false →
     existsSync fs (join [the_root; dirname d]) = true → r = WalkBreak d).
Proof.
  revert fuel dir. induction k as [|k IH]; intros fuel dir Hr Hpast.
  - simpl. destruct fuel as [|fuel]; [done|]. simpl in Hr.
    repeat split.
    + intros Heq. rewrite bool_decide_eq_true_2 in Hr by done. congruence.
    + intros Hne Hex. rewrite bool_decide_eq_false_2, Hex in Hr by done. congruence.
    + intros Hne Hex Hpar.
      rewrite bool_decide_eq_false_2, Hex, Hpar in Hr by done. congruence.
  - destruct fuel as [|fuel]; [done|]. simpl in Hr.
    destruct (Hpast 0%nat ltac:(lia)) as (Hne & Hex & Hpar). simpl in Hne, Hex, Hpar.
    rewrite bool_decide_eq_false_2, Hex, Hpar in Hr by done.
    rewrite Nat.iter_succ_r.
    apply (IH fuel (dirname dir) Hr).
    intros j Hj. rewrite <- Nat.iter_succ_r. apply Hpast. lia.
Qed.

(** Every directory of the walk is a fixed answer of [dirname] or the text
    of [targetPath] before one of its slashes. *)
Lemma nth_dir_under k targetPath :
  special (nth_dir k targetPath)
  ∨ ∃ rest, targetPath = nth_dir k targetPath +:+ "/" +:+ rest.
Proof.
  induction k as [|k IH].
  - unfold nth_dir. simpl.
    destruct (dirname_cases targetPath) as [H|[H|[H|H]]]; [left; red; auto..|by right].
  - unfold nth_dir in *. rewrite Nat.iter_succ.
    destruct IH as [Hs|[rest Hrest]]; [left; by apply dirname_special|].
    destruct (dirname_cases (Nat.iter (S k) dirname targetPath))
      as [H|[H|[H|[tail H]]]]; [left; red; auto..|].
    right. exists (tail +:+ "/" +:+ rest).
    rewrite Hrest at 1. rewrite H at 1. by rewrite !sapp_assoc.
Qed.

Lemma inflatePath_rest dir ext rest :
  inflatePath_of (dir +:+ ext) ext (dir +:+ "/" +:+ rest) = rest.
Proof.
  unfold inflatePath_of. rewrite slength_app.
  replace (String.length dir + String.length ext - String.length ext + 1)%nat
    with (String.length (dir +:+ "/")) by (rewrite slength_app; simpl; lia).
  rewrite <- sapp_assoc. apply drop_app.
Qed.

(** An extension is passed over when neither the static archive exists
    nor a loader produces it. *)
Definition no_archive (dir : string) (useStale : bool) (ext : string) : Prop :=
  existsSync fs (join [the_root; dir +:+ ext]) = false
  ∧ findExact the_root interpreters fs (dir +:+ ext) useStale = Ok None.

Lemma find_archive_first tried ext cls later dir targetPath useStale :
  Forall (λ e : string * ExtractorClass, no_archive dir useStale e.1) tried →
  find_archive the_root interpreters fs (tried ++ (ext, cls) :: later) dir targetPath useStale
  = find_archive the_root interpreters fs ((ext, cls) :: later) dir targetPath useStale.
Proof.
  induction 1 as [|[e c] tried [Hst Hld] _ IH]; [done|].
  simpl in *. by rewrite Hst, Hld.
Qed.

Lemma find_archive_none exts dir targetPath useStale :
  Forall (λ e : string * ExtractorClass, no_archive dir useStale e.1) exts →
  find_archive the_root interpreters fs exts dir targetPath useStale = Ok None.
Proof.
  induction 1 as [|[e c] tried [Hst Hld] _ IH]; [done|].
  simpl in *. by rewrite Hst, Hld.
Qed.

(** C7. When exact and parameterized matching find nothing, [find] walks
    up from the directory of [targetPath].  If the directory it looks at
    exists under the root, [find] returns [undefined]; otherwise, at the
    first one whose parent exists, the extensions [.zip], [.tar], [.tar.gz],
    [.tgz] are tried in this order, each first as a static file and then
    through [findExact], and the extractor built has for [inflatePath] what
    follows that directory and a slash in [targetPath]. *)
Theorem find_archive_fallback (targetPath : string) (useStale : bool) (k : nat) :
  findExact the_root interpreters fs targetPath useStale = Ok None →
  (∀ j, (j < k)%nat → walks_past (nth_dir j targetPath)) →
  let dir := nth_dir k targetPath in
  dirname dir ≠ dir →
  (existsSync fs (join [the_root; dir]) = true →
     find the_root interpreters fs targetPath useStale = Some (Ok None))
  ∧ (existsSync fs (join [the_root; dir]) = false →
     existsSync fs (join [the_root; dirname dir]) = true →
     ∃ inflatePath,
       targetPath = dir +:+ "/" +:+ inflatePath
       ∧ find the_root interpreters fs targetPath useStale
         = Some (find_archive the_root interpreters fs extractors dir targetPath useStale)
       ∧ map fst extractors = [".zip"; ".tar"; ".tar.gz"; ".tgz"]
       ∧ (Forall (λ e, no_archive dir useStale e.1) extractors →
          find the_root interpreters fs targetPath useStale = Some (Ok None))
       ∧ ∀ tried ext cls later,
           extractors = tried ++ (ext, cls) :: later →
           Forall (λ e, no_archive dir useStale e.1) tried →
           (existsSync fs (join [the_root; dir +:+ ext]) = true →
              find the_root interpreters fs targetPath useStale
              = Some (Ok (Some (new_Extractor cls
                                  {| root := the_root;
                                     path := join [the_root; dir +:+ ext];
                                     targetPath := targetPath;
                                     useStale := useStale |}
                                  (PreloadStatic (dir +:+ ext)) inflatePath))))
           ∧ (existsSync fs (join [the_root; dir +:+ ext]) = false →
              ∀ archiveLoader,
                findExact the_root interpreters fs (dir +:+ ext) useStale
                  = Ok (Some archiveLoader) →
                find the_root interpreters fs targetPath useStale
                = Some (Ok (Some (new_Extractor cls
                                    {| root := the_root;
                                       path := path (options archiveLoader);
                                       targetPath := targetPath;
                                       useStale := useStale |}
                                    (PreloadLoader archiveLoader) inflatePath))))).
Proof.
  intros Hexact Hpast dir Hne.
  destruct (find_walk_fuel _ _ (rank_start targetPath)) as [r Hr].
  assert (∀ j, (j < k)%nat → walks_past (Nat.iter j dirname (dirname targetPath)))
    as Hpast'.
  { intros j Hj. rewrite <- Nat.iter_succ_r. by apply Hpast. }
  destruct (find_walk_at _ _ k r Hr Hpast') as (_ & Hret & Hbrk).
  rewrite <- Nat.iter_succ_r in Hret, Hbrk. fold (nth_dir k targetPath) in Hret, Hbrk.
  fold dir in Hret, Hbrk.
  split.
  - intros Hex. unfold find, find_fuel. by rewrite Hexact, Hr, (Hret Hne Hex).
  - intros Hex Hpar.
    assert (find the_root interpreters fs targetPath useStale
            = Some (find_archive the_root interpreters fs extractors dir
                      targetPath useStale)) as Hfind.
    { unfold find, find_fuel. by rewrite Hexact, Hr, (Hbrk Hne Hex Hpar). }
    destruct (nth_dir_under k targetPath) as [Hs|[rest Hrest]].
    { exfalso. fold dir in Hs. destruct Hs as [Hs|[Hs|Hs]]; rewrite Hs in *.
      - by apply Hne.
      - by apply Hne.
      - change (dirname "//") with "/" in Hpar.
        rewrite join_double_slash in Hex. congruence. }
    fold dir in Hrest. exists rest. split; [done|]. split; [done|]. split; [done|].
    split.
    + intros Hnone. by rewrite Hfind, find_archive_none.
    + intros tried ext cls later Hexts Htried. rewrite Hfind, Hexts.
      rewrite find_archive_first by done. simpl.
      assert (inflatePath_of (dir +:+ ext) ext targetPath = rest) as ->.
      { rewrite <- (inflatePath_rest dir ext rest). by rewrite <- Hrest. }
      split.
      * by intros ->.
      * by intros -> archiveLoader ->.
Qed.

End ArchiveFacts.

(** A root with a static archive [archive/bundle.zip] and an archive
    produced by a loader, [data.zip.py]. *)
Definition fs_archive : gmap string node :=
  list_to_map [("docs", Dir 1); ("docs/archive", Dir 1);
               ("docs/archive/bundle.zip", File "PK" 3);
               ("docs/data.zip.py", File "import zipfile" 4)].

Lemma find_archive_fallback_witness :
  find "docs" defaultInterpreters fs_archive "archive/bundle/inner/report.json" false
  = Some (Ok (Some (ZipExtractor
                      {| root := "docs"; path := "docs/archive/bundle.zip";
                         targetPath := "archive/bundle/inner/report.json";
                         useStale := false |}
                      (PreloadStatic "archive/bundle.zip") "inner/report.json")))
  ∧ find "docs" defaultInterpreters fs_archive "data/x.csv" true
    = Some (Ok (Some (ZipExtractor
                        {| root := "docs"; path := "docs/data.zip.py";
                           targetPath := "data/x.csv"; useStale := true |}
                        (PreloadLoader
                           (CommandLoader
                              {| root := "docs"; path := "docs/data.zip.py";
                                 targetPath := "data.zip"; useStale := true |}
                              "python3" ["docs/data.zip.py"]))
                        "x.csv"))).
Proof.
  split.
  - assert (∀ j, (j < 1)%nat →
              walks_past "docs" fs_archive
                (nth_dir j "archive/bundle/inner/report.json")) as Hpast.
    { intros j Hj. assert (j = 0%nat) as -> by lia.
      vm_compute. split; [discriminate|by split]. }
    destruct (find_archive_fallback "docs" defaultInterpreters fs_archive
                "archive/bundle/inner/report.json" false 1 eq_refl Hpast)
      as [_ Hbreak]; [vm_compute; discriminate|].
    destruct (Hbreak eq_refl eq_refl) as (inflatePath & Htarget & _ & _ & _ & Hfirst).
    destruct (Hfirst [] ".zip" ZipClass
                [(".tar", TarClass); (".tar.gz", TarGzClass); (".tgz", TarGzClass)]
                eq_refl (Forall_nil_2 _)) as [Hstatic _].
    rewrite (Hstatic eq_refl).
    vm_compute in Htarget. injection Htarget as <-. reflexivity.
  - assert (∀ j, (j < 0)%nat →
              walks_past "docs" fs_archive (nth_dir j "data/x.csv")) as Hpast
      by (intros j Hj; lia).
    destruct (find_archive_fallback "docs" defaultInterpreters fs_archive
                "data/x.csv" true 0 eq_refl Hpast)
      as [_ Hbreak]; [vm_compute; discriminate|].
    destruct (Hbreak eq_refl eq_refl) as (inflatePath & Htarget & _ & _ & _ & Hfirst).
    destruct (Hfirst [] ".zip" ZipClass
                [(".tar", TarClass); (".tar.gz", TarGzClass); (".tgz", TarGzClass)]
                eq_refl (Forall_nil_2 _)) as [_ Hloader].
    rewrite (Hloader eq_refl _ eq_refl).
    vm_compute in Htarget. injection Htarget as <-. reflexivity.
Defined.

(** ** The source file hash *)

Section HashFacts.
Import Str Path Fs StrFacts.

Variable cwd : string.
Variable sha256hex : bytes → string.
Variable the_root : string.
Variable interpreters : list (string * list string).

Lemma of_Z_inj a b : of_Z a = of_Z b → a = b.
Proof.
  unfold of_Z. intros H.
  apply (f_equal NilEmpty.int_of_string) in H. rewrite !NilEmpty.isi in H.
  injection H as H. apply (f_equal Z.of_int) in H. by rewrite !DecimalZ.of_to in H.
Qed.

(** The text hashed for a file produced by a loader changes with the
    modification time of the loader. *)
Lemma digest_input_inj h m1 m2 : h +:+ of_Z m1 = h +:+ of_Z m2 → m1 = m2.
Proof. intros H. apply of_Z_inj. by apply (inj (String.append h)) in H. Qed.

Lemma getSourceFileHash_loader fs name l content mtimeMs :
  existsSync fs (join [the_root; name]) = false →
  find the_root interpreters fs name false = Some (Ok (Some l)) →
  fs !! join [the_root; relative cwd the_root (path (options l))]
    = Some (File content mtimeMs) →
  getSourceFileHash cwd sha256hex the_root interpreters fs name
  = Some (Ok (sha256hex (sha256hex content +:+ of_Z mtimeMs))).
Proof.
  intros Hname Hfind Hfile.
  unfold getSourceFileHash, getSourceFilePath, getFileInfo.
  rewrite Hname, Hfind. simpl. rewrite Hfile. simpl.
  rewrite bool_decide_eq_false_2; [done|].
  intros Heq. rewrite Heq in Hfile.
  unfold existsSync in Hname. apply bool_decide_eq_false in Hname.
  apply Hname. by eexists.
Qed.

(** C9. For a name that does not exist under the root and resolves to a
    loader whose source is a file, [getSourceFileHash] is the digest of the
    loader's content hash followed by its modification time; two states
    that differ only in that modification time give different digests,
    unless SHA-256 itself collides on the two texts; for a name that is a
    file under the root, it is that file's content hash alone. *)
Theorem getSourceFileHash_digest (fs1 fs2 : gmap string node) (name : string)
    (l1 l2 : Loader) (content : bytes) (m1 m2 : Z) :
  existsSync fs1 (join [the_root; name]) = false →
  existsSync fs2 (join [the_root; name]) = false →
  find the_root interpreters fs1 name false = Some (Ok (Some l1)) →
  find the_root interpreters fs2 name false = Some (Ok (Some l2)) →
  fs1 !! join [the_root; relative cwd the_root (path (options l1))]
    = Some (File content m1) →
  fs2 !! join [the_root; relative cwd the_root (path (options l2))]
    = Some (File content m2) →
  getSourceFileHash cwd sha256hex the_root interpreters fs1 name
    = Some (Ok (sha256hex (sha256hex content +:+ of_Z m1)))
  ∧ getSourceFileHash cwd sha256hex the_root interpreters fs2 name
    = Some (Ok (sha256hex (sha256hex content +:+ of_Z m2)))
  ∧ (m1 ≠ m2 →
     getSourceFileHash cwd sha256hex the_root interpreters fs1 name
     ≠ getSourceFileHash cwd sha256hex the_root interpreters fs2 name
     ∨ ∃ x y, x ≠ y ∧ sha256hex x = sha256hex y)
  ∧ (∀ fs file_content file_mtime,
       fs !! join [the_root; name] = Some (File file_content file_mtime) →
       getSourceFileHash cwd sha256hex the_root interpreters fs name
       = Some (Ok (sha256hex file_content))).
Proof.
  intros Hn1 Hn2 Hf1 Hf2 Hs1 Hs2.
  rewrite (getSourceFileHash_loader _ _ _ _ _ Hn1 Hf1 Hs1).
  rewrite (getSourceFileHash_loader _ _ _ _ _ Hn2 Hf2 Hs2).
  split; [done|]. split; [done|]. split.
  - intros Hm.
    destruct (decide (sha256hex (sha256hex content +:+ of_Z m1)
                      = sha256hex (sha256hex content +:+ of_Z m2))) as [Heq|Hne].
    + right. eexists _, _. split; [|exact Heq].
      intros H. by apply Hm, (digest_input_inj (sha256hex content)).
    + left. congruence.
  - intros fs file_content file_mtime Hfile.
    unfold getSourceFileHash, getSourceFilePath, getFileInfo.
    assert (existsSync fs (join [the_root; name]) = true) as ->.
    { apply bool_decide_eq_true. by eexists. }
    simpl. rewrite Hfile. simpl. by rewrite bool_decide_eq_true_2.
Qed.

End HashFacts.

(** The loader [data/items.csv.py] of the specification's example, before
    and after it is touched. *)
Definition fs_items (mtimeMs : Z) : gmap string node :=
  list_to_map [("docs", Dir 1); ("docs/data", Dir 1);
               ("docs/data/items.csv.py", File "print('a,b')" mtimeMs)].

(** A stand-in for SHA-256 that shows what is hashed. *)
Definition demo_hash (b : bytes) : string := "sha(" +:+ b +:+ ")".

Lemma getSourceFileHash_digest_witness :
  getSourceFileHash "/work" demo_hash "docs" defaultInterpreters (fs_items 5)
    "data/items.csv" = Some (Ok "sha(sha(print('a,b'))5)")
  ∧ getSourceFileHash "/work" demo_hash "docs" defaultInterpreters (fs_items 6)
      "data/items.csv" = Some (Ok "sha(sha(print('a,b'))6)")
  ∧ getSourceFileHash "/work" demo_hash "docs" defaultInterpreters (fs_items 5)
      "data/items.csv.py" = Some (Ok "sha(print('a,b'))").
Proof.
  destruct (getSourceFileHash_digest "/work" demo_hash "docs" defaultInterpreters
              (fs_items 5) (fs_items 6) "data/items.csv"
              (CommandLoader {| root := "docs"; path := "docs/data/items.csv.py";
                                targetPath := "data/items.csv"; useStale := false |}
                 "python3" ["docs/data/items.csv.py"])
              (CommandLoader {| root := "docs"; path := "docs/data/items.csv.py";
                                targetPath := "data/items.csv"; useStale := false |}
                 "python3" ["docs/data/items.csv.py"])
              "print('a,b')" 5 6 eq_refl eq_refl eq_refl eq_refl eq_refl eq_refl)
    as (H1 & H2 & _ & _).
  split; [exact H1|]. split; [exact H2|]. reflexivity.
Defined.

(** ** The cache, temporary and error-marker paths *)

Module CachePaths.
Import Str Path StrFacts PathFacts.

Definition cache_dir : string := ".observablehq/cache".

(** The cache directory under the root. *)
Definition base (the_root : string) : string :=
  if bool_decide (the_root = "") then cache_dir else the_root +:+ "/" +:+ cache_dir.

(** What is appended to the target to name the temporary file. *)
Definition suffix (pid : N) : string := "." +:+ of_N pid.

Lemma uint_digits d :
  Forall (λ c, is_slash c = false ∧ is_dot c = false)
    (chars (NilEmpty.string_of_uint d)).
Proof. induction d; simpl; constructor; done. Qed.

Lemma of_N_nonempty n : of_N n ≠ "".
Proof.
  unfold of_N. intros H.
  pose proof (NilEmpty.usu (N.to_uint n)) as Hu. rewrite H in Hu. simpl in Hu.
  injection Hu as Hu.
  assert (n = 0%N) as ->.
  { rewrite <- (DecimalN.Unsigned.of_to n), <- Hu. reflexivity. }
  discriminate Hu.
Qed.

Lemma suffix_free pid : slash_free (suffix pid).
Proof.
  unfold suffix, slash_free. rewrite chars_app. apply Forall_app_2.
  - by constructor.
  - eapply Forall_impl; [apply uint_digits|]. by intros ? [? _].
Qed.

Lemma suffix_nonempty pid : suffix pid ≠ "".
Proof. unfold suffix. by rewrite sapp_cons. Qed.

Lemma suffix_length pid : (2 ≤ String.length (suffix pid))%nat.
Proof.
  unfold suffix. rewrite slength_app. pose proof (of_N_nonempty pid).
  destruct (of_N pid); [done|]. simpl. lia.
Qed.

(** A name followed by the suffix is a segment like any other. *)
Lemma suffixed_regular last pid :
  slash_free last →
  clean (last +:+ suffix pid) ∧ last +:+ suffix pid ≠ "..".
Proof.
  intros Hlast. pose proof (of_N_nonempty pid) as Hne.
  pose proof (uint_digits (N.to_uint pid)) as Hdig. fold (of_N pid) in Hdig.
  unfold suffix. repeat split.
  - destruct last; done.
  - destruct last as [|c last]; [by destruct (of_N pid)|].
    rewrite sapp_cons. destruct last; [|done]. rewrite sapp_nil_l. done.
  - apply slash_free_app; [done|]. apply (suffix_free pid).
  - destruct last as [|c last].
    + rewrite sapp_nil_l. destruct (of_N pid) as [|d rest]; [done|].
      inversion Hdig as [|? ? [_ Hd] _]; subst. intros [= ->]. done.
    + rewrite sapp_cons. destruct last as [|c' last]; [|destruct last; done].
      rewrite sapp_nil_l. intros [= -> H]. by destruct (of_N pid).
Qed.

Lemma base_nonempty the_root : base the_root ≠ "".
Proof.
  unfold base. case_bool_decide; [done|]. by destruct the_root.
Qed.

Lemma base_no_trailing_slash the_root : ends_with_slash (base the_root) = false.
Proof.
  unfold base. case_bool_decide; [done|]. by rewrite ends_with_slash_under.
Qed.

Lemma outputPath_eq l :
  outputPath l
  = if bool_decide (targetPath (options l) = "") then cache_dir
    else normalize (cache_dir +:+ "/" +:+ targetPath (options l)).
Proof.
  unfold outputPath, join.
  rewrite filter_cons_True, filter_cons_True by done.
  case_bool_decide as Htp.
  - rewrite Htp. rewrite filter_cons_False by (intros H; by apply H).
    by rewrite filter_nil.
  - rewrite filter_cons_True by done. rewrite filter_nil.
    change (concat [".observablehq"; "cache"; targetPath (options l)])
      with (cache_dir +:+ "/" +:+ targetPath (options l)).
    reflexivity.
Qed.

Lemma outputPath_nonempty l : outputPath l ≠ "".
Proof.
  rewrite outputPath_eq. case_bool_decide; [done|].
  rewrite normalize_render by done. apply render_nonempty.
Qed.

Lemma join_root the_root x :
  x ≠ "" →
  join [the_root; x]
  = if bool_decide (the_root = "") then normalize x
    else normalize (the_root +:+ "/" +:+ x).
Proof.
  intros Hx. case_bool_decide as Hr.
  - subst. by apply join_empty_root.
  - by apply join_pair.
Qed.

Lemma cachePath_eq l :
  cachePath l
  = if bool_decide (targetPath (options l) = "") then normalize (base (root (options l)))
    else normalize (base (root (options l)) +:+ "/" +:+ targetPath (options l)).
Proof.
  unfold cachePath. rewrite join_root by apply outputPath_nonempty.
  rewrite outputPath_eq. unfold base.
  destruct (bool_decide (targetPath (options l) = "")) eqn:Htp;
    destruct (bool_decide (root (options l) = "")) eqn:Hr; try reflexivity.
  - apply bool_decide_eq_false in Htp. by apply normalize_twice.
  - apply bool_decide_eq_false in Htp, Hr.
    rewrite normalize_under by done. by rewrite !sapp_assoc.
Qed.

Lemma tempPath_eq pid l :
  tempPath pid l
  = normalize (base (root (options l)) +:+ "/"
               +:+ targetPath (options l) +:+ suffix pid).
Proof.
  unfold tempPath, join, base.
  assert (targetPath (options l) +:+ "." +:+ of_N pid ≠ "") as Hne.
  { by apply app_nonempty_r. }
  case_bool_decide as Hr.
  - rewrite Hr. rewrite filter_cons_False by (intros H; by apply H).
    rewrite !filter_cons_True by done. rewrite filter_nil. simpl concat.
    destruct (_ +:+ "." +:+ of_N pid) eqn:E; [done|]. rewrite <- E. reflexivity.
  - rewrite !filter_cons_True by done. rewrite filter_nil. simpl concat.
    destruct (root (options l)) eqn:E0; [done|]. rewrite <- E0.
    destruct (_ +:+ "." +:+ of_N pid) eqn:E; [done|]. rewrite <- E.
    rewrite !sapp_assoc. reflexivity.
Qed.

(** Both paths come from one stack [st] of kept segments: the cache path
    goes on with the last segment of the target, the temporary path with
    that segment followed by the suffix. *)
Lemma path_forms pid l :
  ∃ abs st last,
    slash_free last ∧ Forall clean st
    ∧ last = List.last (split (targetPath (options l))) ""
    ∧ (last ≠ "" → ends_with_slash (targetPath (options l)) = false)
    ∧ cachePath l
      = render abs (ends_with_slash (targetPath (options l)))
          (norm_step (negb abs) st last)
    ∧ tempPath pid l = render abs false ((last +:+ suffix pid) :: st).
Proof.
  set (tp := targetPath (options l)). set (X := base (root (options l))).
  pose proof (base_nonempty (root (options l))) as HX. fold X in HX.
  pose proof (base_no_trailing_slash (root (options l))) as HXs. fold X in HXs.
  destruct (split_app_tail tp (suffix pid) (suffix_free pid))
    as (init & last & Hsplit & Hsplit').
  pose proof (split_slash_free tp) as Hfree. rewrite Hsplit in Hfree.
  apply Forall_app in Hfree as [Hinit Hlast].
  inversion Hlast as [|? ? Hlast' _]; subst.
  set (f := negb (has_root X)).
  set (st := fold_left (norm_step f) init (stack f X [])).
  assert (Forall clean st) as Hst.
  { apply fold_clean; [done|]. by apply stack_clean. }
  exists (has_root X), st, last. fold f.
  split; [done|]. split; [done|]. split; [|split; [|split]].
  - fold tp. by rewrite Hsplit, last_last.
  - intros Hne. rewrite <- (concat_split tp), Hsplit, concat_snoc.
    rewrite ends_with_slash_app by done. by apply ends_with_slash_free.
  - rewrite cachePath_eq. fold tp X. case_bool_decide as Htp.
    + rewrite Htp in *. simpl in Hsplit.
      destruct init as [|? init]; [|by destruct init].
      injection Hsplit as <-.
      rewrite normalize_render by done. fold f.
      by rewrite HXs.
    + rewrite normalize_render by (by apply app_nonempty_r, app_nonempty_r).
      rewrite has_root_app by done. fold f.
      rewrite ends_with_slash_under by done.
      rewrite stack_app_slash. unfold stack at 1.
      by rewrite Hsplit, fold_left_app.
  - rewrite tempPath_eq. fold tp X.
    assert (tp +:+ suffix pid ≠ "") as Hne.
    { apply app_nonempty_r, suffix_nonempty. }
    rewrite normalize_render by (by apply app_nonempty_r, app_nonempty_r).
    rewrite has_root_app by done. fold f.
    rewrite ends_with_slash_under by done.
    rewrite stack_app_slash. unfold stack at 1.
    rewrite Hsplit', fold_left_app. cbn [fold_left].
    destruct (suffixed_regular last pid Hlast') as [(H1 & H2 & _) H3].
    rewrite norm_step_push by done. fold st.
    f_equal. rewrite ends_with_slash_app by apply suffix_nonempty.
    apply ends_with_slash_free, suffix_free.
Qed.

Lemma length_concat_snoc st x :
  String.length (concat (rev (x :: st)))
  = (String.length (concat (rev st)) + (match st with [] => 0 | _ => 1 end)
     + String.length x)%nat.
Proof.
  cbn [rev]. rewrite concat_snoc.
  destruct st as [|y st]; [done|].
  destruct (rev (y :: st)) eqn:E.
  { apply (f_equal (@length _)) in E. rewrite length_rev in E. done. }
  rewrite !slength_app. simpl. lia.
Qed.

Lemma length_norm_step f st last :
  (String.length (concat (rev (norm_step f st last)))
   ≤ String.length (concat (rev (last :: st))))%nat.
Proof.
  rewrite length_concat_snoc. unfold norm_step.
  repeat case_bool_decide; simpl orb; cbv iota; subst; try lia.
  - destruct st as [|top below].
    + destruct f; simpl; lia.
    + case_bool_decide.
      * destruct f; [rewrite length_concat_snoc|]; lia.
      * rewrite length_concat_snoc. lia.
  - rewrite length_concat_snoc. lia.
Qed.

Lemma length_render abs t st :
  Forall clean st → st ≠ [] →
  String.length (render abs t st)
  = ((if abs then 1 else 0) + String.length (concat (rev st))
     + (if t then 1 else 0))%nat.
Proof.
  intros Hst Hne. rewrite render_cons by done. rewrite !slength_app.
  by destruct abs, t.
Qed.

(** The cache path is shorter than the temporary path, but for one
    degenerate target, which still gives two different paths. *)
Lemma cache_vs_temp pid l :
  (String.length (cachePath l) < String.length (tempPath pid l))%nat
  ∨ (cachePath l = "./" ∧ tempPath pid l = suffix pid).
Proof.
  destruct (path_forms pid l) as (abs & st & last & Hlast & Hst & _ & Ht & -> & ->).
  set (t := ends_with_slash (targetPath (options l))) in *.
  destruct (suffixed_regular last pid Hlast) as [Hclean _].
  pose proof (suffix_length pid) as Hsfx.
  pose proof (length_norm_step (negb abs) st last) as Hstep.
  rewrite (length_render abs false) by (by constructor || done).
  rewrite length_concat_snoc, slength_app.
  rewrite length_concat_snoc in Hstep.
  assert (Forall clean (norm_step (negb abs) st last)) as Hst'
    by (by apply norm_step_clean).
  destruct (norm_step (negb abs) st last) as [|top' below'] eqn:Hns.
  - rewrite render_nil.
    destruct abs; [left; change (String.length "/") with 1%nat; lia|].
    destruct t eqn:Ht'; [|left; change (String.length ".") with 1%nat; lia].
    assert (last = "") as ->.
    { destruct (decide (last = "")) as [|Hn]; [done|]. by specialize (Ht Hn). }
    rewrite norm_step_skip in Hns by auto. subst st.
    right. split; [done|]. rewrite render_cons by (by constructor || done).
    by rewrite sapp_nil_l, sapp_nil_r.
  - left. rewrite length_render by done.
    destruct t eqn:Ht'.
    + assert (last = "") as ->.
      { destruct (decide (last = "")) as [|Hn]; [done|]. by specialize (Ht Hn). }
      rewrite norm_step_skip in Hns by auto. subst st.
      change (String.length "") with 0%nat. destruct abs; lia.
    + destruct abs; lia.
Qed.

Lemma suffix_not_dot_slash pid : suffix pid ≠ "./".
Proof.
  unfold suffix. rewrite sapp_cons, sapp_nil_l. intros [= H].
  pose proof (uint_digits (N.to_uint pid)) as Hdig. fold (of_N pid) in Hdig.
  rewrite H in Hdig. by inversion Hdig as [|? ? [? _] _].
Qed.

Lemma cache_ne_temp pid l : cachePath l ≠ tempPath pid l.
Proof.
  destruct (cache_vs_temp pid l) as [Hlt|[Hc Ht]].
  - intros H. rewrite H in Hlt. lia.
  - rewrite Hc, Ht. intros H. by apply (suffix_not_dot_slash pid).
Qed.

Lemma length_errorPath pid l :
  String.length (errorPath pid l) = (String.length (tempPath pid l) + 4)%nat.
Proof. unfold errorPath. by rewrite slength_app. Qed.

Lemma cache_shorter_than_error pid l :
  (String.length (cachePath l) < String.length (errorPath pid l))%nat.
Proof.
  rewrite length_errorPath.
  destruct (cache_vs_temp pid l) as [Hlt|[Hc Ht]]; [lia|].
  rewrite Hc, Ht. pose proof (suffix_length pid). simpl. lia.
Qed.

Lemma cache_ne_error pid l : cachePath l ≠ errorPath pid l.
Proof.
  intros H. pose proof (cache_shorter_than_error pid l) as Hlt.
  rewrite H in Hlt. lia.
Qed.

Lemma temp_ne_error pid l : tempPath pid l ≠ errorPath pid l.
Proof.
  intros H. pose proof (length_errorPath pid l) as Hlen.
  rewrite <- H in Hlen. lia.
Qed.

(** The temporary path ends with a dot and the process id. *)
Lemma tempPath_suffix pid l : ∃ pre, tempPath pid l = pre +:+ "." +:+ of_N pid.
Proof.
  destruct (path_forms pid l) as (abs & st & last & Hlast & Hst & _ & _ & _ & ->).
  destruct (suffixed_regular last pid Hlast) as [Hclean _].
  rewrite render_cons by (by constructor || done).
  cbn [rev]. rewrite concat_snoc, sapp_nil_r.
  exists ((if abs then "/" else "")
          +:+ (match rev st with [] => "" | _ => concat (rev st) +:+ "/" end)
          +:+ last).
  unfold suffix. by rewrite !sapp_assoc.
Qed.

(** For a target whose last segment is a name, the temporary path is the
    cache path followed by a dot and the process id. *)
Lemma tempPath_of_cachePath pid l :
  let name := List.last (split (targetPath (options l))) "" in
  name ≠ "" → name ≠ "." → name ≠ ".." →
  tempPath pid l = cachePath l +:+ "." +:+ of_N pid.
Proof.
  intros name H1 H2 H3.
  destruct (path_forms pid l)
    as (abs & st & last & Hlast & Hst & Heq & Ht & -> & ->).
  subst name. rewrite <- Heq in *.
  rewrite Ht by done. rewrite norm_step_push by done.
  destruct (suffixed_regular last pid Hlast) as [Hclean _].
  assert (Forall clean ((last +:+ suffix pid) :: st)) as Htemp by (by constructor).
  assert (Forall clean (last :: st)) as Hcache by (by constructor).
  rewrite !render_cons by done.
  cbn [rev]. rewrite !concat_snoc, !sapp_nil_r.
  unfold suffix. by rewrite !sapp_assoc.
Qed.

End CachePaths.

(** ** The file operations of [load] *)

Module FsFacts.
Import Str Path StrFacts PathFacts Fs.

Lemma dirname_length p :
  dirname p ≠ p → dirname p ≠ "." → dirname p ≠ "/" →
  (String.length (dirname p) < String.length p)%nat.
Proof.
  intros Hne Hdot Hroot.
  destruct (dirname_cases_strong p) as [H|[H|[[H Hlen]|[tail H]]]]; [done|done| |].
  - by rewrite H.
  - rewrite H at 2. rewrite !slength_app. simpl. lia.
Qed.

Lemma ancestors_shorter fuel p d :
  d ∈ ancestors fuel p → (String.length d < String.length p)%nat.
Proof.
  revert p. induction fuel as [|fuel IH]; intros p; simpl; [by intros ?%elem_of_nil|].
  repeat case_bool_decide; simpl; try by intros ?%elem_of_nil.
  intros [->|Hin]%elem_of_cons.
  - by apply dirname_length.
  - specialize (IH _ Hin).
    assert (String.length (dirname p) < String.length p)%nat
      by (by apply dirname_length).
    lia.
Qed.

Lemma prepareOutput_preserve now p fs x n :
  fs !! x = Some n → prepareOutput now p fs !! x = Some n.
Proof.
  intros Hx. unfold prepareOutput.
  induction (ancestors (S (String.length p)) p) as [|d ds IH]; simpl; [done|].
  destruct (fold_right _ fs ds !! d) eqn:Hd; [done|].
  rewrite lookup_insert_ne; [done|]. intros ->. congruence.
Qed.

Lemma prepareOutput_other now p fs x :
  (String.length p ≤ String.length x)%nat →
  prepareOutput now p fs !! x = fs !! x.
Proof.
  intros Hlen. unfold prepareOutput.
  assert (∀ d, d ∈ ancestors (S (String.length p)) p → d ≠ x) as Hds.
  { intros d Hd ->. apply ancestors_shorter in Hd. lia. }
  induction (ancestors (S (String.length p)) p) as [|d ds IH]; simpl; [done|].
  destruct (fold_right _ fs ds !! d) eqn:Hd.
  - apply IH. intros d' Hd'. apply Hds. by right.
  - rewrite lookup_insert_ne by (apply Hds; by left).
    apply IH. intros d' Hd'. apply Hds. by right.
Qed.

End FsFacts.

(** ** One command *)

Arguments key : simpl never.
Arguments outputPath : simpl never.
Arguments cachePath : simpl never.
Arguments tempPath : simpl never.
Arguments errorPath : simpl never.
Arguments Fs.prepareOutput : simpl never.
Arguments Fs.maybeStat : simpl never.

(** Unfolding the updates of a world down to its fields. *)
Ltac world_simpl :=
  cbn [commands fs now runningCommands execs handles output returned
       set_stage set_fs release acquire write_output unregister init
       loader stage].

Ltac lookup_command H :=
  unfold settlement, stage_of; world_simpl;
  rewrite ?list_lookup_alter_eq, ?H;
  cbv beta iota delta [fmap option_fmap option_map mbind option_bind
                       settlement_of stage loader].

Section LoadFacts.
Import Str Path Fs StrFacts PathFacts CachePaths FsFacts.

Variable pid : N.
Variable codecs : Codecs.

Lemma lookup_set_stage w p s c :
  commands w !! p = Some c →
  commands (set_stage p s w) !! p = Some {| loader := loader c; stage := s |}.
Proof. intros H. simpl. by rewrite list_lookup_alter_eq, H. Qed.

Lemma lookup_set_stage_ne w p q s :
  p ≠ q → commands (set_stage p s w) !! q = commands w !! q.
Proof. intros H. simpl. by rewrite list_lookup_alter_ne. Qed.

Lemma stage_of_set_stage w p s c :
  commands w !! p = Some c → stage_of (set_stage p s w) p = Some s.
Proof. intros H. unfold stage_of. by rewrite (lookup_set_stage _ _ _ _ H). Qed.

Lemma settlement_set_stage w p r c :
  commands w !! p = Some c → settlement (set_stage p (Settled r) w) p = Some r.
Proof. intros H. unfold settlement. by rewrite (stage_of_set_stage _ _ _ _ H). Qed.

Lemma not_in_release p w : p ∉ handles (release p w).
Proof. simpl. intros [H _]%list_elem_of_filter. by apply H. Qed.

(** What the two renames leave in the file system. *)
Lemma rename_written f temp target written t :
  Fs.rename temp target (Fs.write t temp written f)
  = Ok (<[target := File written t]> (delete temp (<[temp := File written t]> f))).
Proof. unfold Fs.rename, Fs.write. by rewrite lookup_insert_eq. Qed.

(** The last two operations of a load whose production step succeeded. *)
Lemma finish_success wx p l s written :
  commands wx !! p = Some {| loader := l; stage := s |} →
  ∃ w2 w3,
    resume pid codecs p (after_exec pid p l written None wx) = Some w2
    ∧ stage_of w2 p = Some (AwaitClose (Resolved (outputPath l)))
    ∧ fs w2 !! cachePath l = Some (File written (now wx))
    ∧ fs w2 !! tempPath pid l = None
    ∧ resume pid codecs p w2 = Some w3
    ∧ fs w3 = fs w2
    ∧ settlement w3 p = Some (Resolved (outputPath l))
    ∧ p ∉ handles w3.
Proof.
  intros Hc. pose proof (cache_ne_temp pid l) as Hct.
  unfold after_exec. eexists _, _. split.
  { unfold resume. lookup_command Hc. rewrite rename_written. reflexivity. }
  split; [by lookup_command Hc|].
  split; [world_simpl; by rewrite lookup_insert_eq|].
  split.
  { world_simpl. rewrite lookup_insert_ne by done. by rewrite lookup_delete_eq. }
  split.
  { unfold resume. lookup_command Hc. reflexivity. }
  split; [done|]. split.
  - by lookup_command Hc.
  - cbn [handles set_stage]. apply not_in_release.
Qed.

(** The last two operations of a load whose production step failed. *)
Lemma finish_failure wx p l s written e :
  commands wx !! p = Some {| loader := l; stage := s |} →
  ∃ w2 w3,
    resume pid codecs p (after_exec pid p l written (Some e) wx) = Some w2
    ∧ stage_of w2 p = Some (AwaitClose (Rejected e))
    ∧ fs w2 !! errorPath pid l = Some (File written (now wx))
    ∧ fs w2 !! cachePath l = fs wx !! cachePath l
    ∧ fs w2 !! tempPath pid l = None
    ∧ resume pid codecs p w2 = Some w3
    ∧ fs w3 = fs w2
    ∧ settlement w3 p = Some (Rejected e)
    ∧ p ∉ handles w3.
Proof.
  intros Hc.
  pose proof (cache_ne_temp pid l) as Hct.
  pose proof (cache_ne_error pid l) as Hce.
  pose proof (temp_ne_error pid l) as Hte.
  unfold after_exec. eexists _, _. split.
  { unfold resume. lookup_command Hc. rewrite rename_written. reflexivity. }
  split; [by lookup_command Hc|].
  split; [world_simpl; by rewrite lookup_insert_eq|].
  split.
  { world_simpl. rewrite lookup_insert_ne by done.
    rewrite lookup_delete_ne by done. by rewrite lookup_insert_ne. }
  split.
  { world_simpl. rewrite lookup_insert_ne by done. by rewrite lookup_delete_eq. }
  split.
  { unfold resume. lookup_command Hc. reflexivity. }
  split; [done|]. split.
  - by lookup_command Hc.
  - cbn [handles set_stage]. apply not_in_release.
Qed.

Lemma after_exec_keeps_cache p l written err w n :
  fs w !! cachePath l = Some n →
  fs (after_exec pid p l written err w) !! cachePath l = Some n.
Proof.
  intros H0. pose proof (cache_ne_temp pid l) as Hct. unfold after_exec.
  destruct err; world_simpl; unfold Fs.write; by rewrite lookup_insert_ne.
Qed.

(** Apart from the rename of line 294, no operation of a load changes an
    existing cache file. *)
Lemma resume_keeps_cache w w' p l s n :
  commands w !! p = Some {| loader := l; stage := s |} →
  s ≠ AwaitRename →
  resume pid codecs p w = Some w' →
  fs w !! cachePath l = Some n → fs w' !! cachePath l = Some n.
Proof.
  intros Hc Hstage Hres Hn.
  pose proof (cache_ne_temp pid l) as Hct.
  pose proof (cache_ne_error pid l) as Hce.
  unfold resume in Hres. rewrite Hc in Hres.
  cbv beta iota delta [stage loader] in Hres.
  destruct s; try done; simplify_eq; try done.
  - repeat case_match; simplify_eq; done.
  - repeat case_match; simplify_eq; done.
  - world_simpl. unfold unlink_quiet.
    repeat case_match; try done. by rewrite lookup_delete_ne.
  - world_simpl. by apply prepareOutput_preserve.
  - world_simpl. by apply prepareOutput_preserve.
  - assert (fs (acquire p (set_fs (open_w (now w) (tempPath pid l) (fs w)) w))
            !! cachePath l = Some n) as H0.
    { world_simpl. unfold open_w. by rewrite lookup_insert_ne. }
    revert H0.
    generalize (acquire p (set_fs (open_w (now w) (tempPath pid l) (fs w)) w)).
    intros w0 H0. unfold call_exec.
    destruct l as [o cmd args|o [a|al] ip|o [a|al] ip gz]; try done.
    + unfold do_load. world_simpl. by destruct (_ !! key al).
    + unfold do_load. world_simpl. by destruct (_ !! key al).
  - destruct nested as [q|].
    + destruct (commands w !! q ≫= _) as [[archive|e]|]; simplify_eq; [done|].
      by apply after_exec_keeps_cache.
    + repeat case_match; simplify_eq; done.
  - destruct (extract codecs l archivePath (fs w)) as [[written' err']|];
      simplify_eq. by apply after_exec_keeps_cache.
  - destruct (Fs.rename _ _ _) as [f|e] eqn:Hren; simplify_eq; [|done].
    world_simpl. unfold Fs.rename in Hren.
    destruct (fs w !! tempPath pid l); simplify_eq.
    rewrite lookup_insert_ne by done. by rewrite lookup_delete_ne.
Qed.

Lemma process_end_keeps_cache w w' p l s n out e :
  commands w !! p = Some {| loader := l; stage := s |} →
  process_end pid p out e w = Some w' →
  fs w !! cachePath l = Some n → fs w' !! cachePath l = Some n.
Proof.
  intros Hc Hend Hn.
  unfold process_end in Hend. rewrite Hc in Hend.
  cbv beta iota delta [stage loader] in Hend.
  destruct s; simplify_eq. by apply after_exec_keeps_cache.
Qed.

(** C3. Once the production step of a load has finished and left
    [written] in the temporary file: when it succeeded, the temporary file
    is renamed to the cache path in one step, so that the cache file holds
    exactly what was written, and the load resolves to the output path; when
    it failed with [e], the temporary file is renamed to the error-marker
    path, the cache path is left as it was, and the load rejects with the
    same [e]; either way the temporary file is gone and its handle is
    released.  Before that rename, no step of the load changes an existing
    cache file. *)
Theorem atomic_replace (wx : World) (p : nat) (l : Loader) (s : Stage)
    (written : bytes) (err : option Error) :
  commands wx !! p = Some {| loader := l; stage := s |} →
  let w1 := after_exec pid p l written err wx in
  (err = None →
     ∃ w2 w3,
       resume pid codecs p w1 = Some w2
       ∧ stage_of w2 p = Some (AwaitClose (Resolved (outputPath l)))
       ∧ fs w2 !! cachePath l = Some (File written (now wx))
       ∧ fs w2 !! tempPath pid l = None
       ∧ resume pid codecs p w2 = Some w3
       ∧ fs w3 = fs w2
       ∧ settlement w3 p = Some (Resolved (outputPath l))
       ∧ p ∉ handles w3)
  ∧ (∀ e, err = Some e →
     ∃ w2 w3,
       resume pid codecs p w1 = Some w2
       ∧ stage_of w2 p = Some (AwaitClose (Rejected e))
       ∧ fs w2 !! errorPath pid l = Some (File written (now wx))
       ∧ fs w2 !! cachePath l = fs wx !! cachePath l
       ∧ fs w2 !! tempPath pid l = None
       ∧ resume pid codecs p w2 = Some w3
       ∧ fs w3 = fs w2
       ∧ settlement w3 p = Some (Rejected e)
       ∧ p ∉ handles w3)
  ∧ (∀ w w' s' n,
       commands w !! p = Some {| loader := l; stage := s' |} →
       s' ≠ AwaitRename →
       resume pid codecs p w = Some w' →
       fs w !! cachePath l = Some n → fs w' !! cachePath l = Some n)
  ∧ (∀ w w' s' n out e,
       commands w !! p = Some {| loader := l; stage := s' |} →
       process_end pid p out e w = Some w' →
       fs w !! cachePath l = Some n → fs w' !! cachePath l = Some n).
Proof.
  intros Hc w1. subst w1. split; [|split; [|split]].
  - intros ->. by eapply finish_success.
  - intros e ->. by eapply finish_failure.
  - intros w w' s' n. apply resume_keeps_cache.
  - intros w w' s' n out e. apply process_end_keeps_cache.
Qed.

(** The production step has been called and has not finished. *)
Definition in_production (s : Stage) : Prop :=
  s = AwaitExit ∨ ∃ nested, s = AwaitPreload nested.

(** The world when [exec] has just been called, from the one in which
    [prepareOutput(tempPath)] is awaited. *)
Definition exec_entry (p : nat) (l : Loader) (w : World) : World :=
  let w1 := set_stage p AwaitPrepareCache
              (set_fs (prepareOutput (now w) (tempPath pid l) (fs w)) w) in
  let w2 := set_stage p AwaitOpen
              (set_fs (prepareOutput (now w1) (cachePath l) (fs w1)) w1) in
  call_exec p l (acquire p (set_fs (open_w (now w2) (tempPath pid l) (fs w2)) w2)).

Lemma do_load_fields l w :
  fs (do_load l w).1 = fs w ∧ now (do_load l w).1 = now w
  ∧ execs (do_load l w).1 = execs w ∧ handles (do_load l w).1 = handles w
  ∧ returned (do_load l w).1 = returned w
  ∧ ∃ more, commands (do_load l w).1 = commands w ++ more.
Proof.
  unfold do_load. destruct (runningCommands w !! key l); simpl.
  - repeat split; try done. exists []. by rewrite app_nil_r.
  - repeat split; try done. by eexists.
Qed.

Lemma call_exec_fields p l w s :
  commands w !! p = Some {| loader := l; stage := s |} →
  fs (call_exec p l w) = fs w
  ∧ now (call_exec p l w) = now w
  ∧ execs (call_exec p l w) = execs w ++ [p]
  ∧ handles (call_exec p l w) = handles w
  ∧ returned (call_exec p l w) = returned w
  ∧ ∃ s', commands (call_exec p l w) !! p = Some {| loader := l; stage := s' |}
          ∧ in_production s'.
Proof.
  intros Hc. unfold call_exec.
  set (w0 := {| fs := fs w; now := now w; runningCommands := runningCommands w;
                commands := commands w; execs := execs w ++ [p];
                handles := handles w; output := output w;
                returned := returned w |}).
  assert (commands w0 !! p = Some {| loader := l; stage := s |}) as Hc0 by done.
  assert (∀ al q w', do_load al w0 = (w', q) →
            fs (set_stage p (AwaitPreload (Some q)) w') = fs w
            ∧ now (set_stage p (AwaitPreload (Some q)) w') = now w
            ∧ execs (set_stage p (AwaitPreload (Some q)) w') = execs w ++ [p]
            ∧ handles (set_stage p (AwaitPreload (Some q)) w') = handles w
            ∧ returned (set_stage p (AwaitPreload (Some q)) w') = returned w
            ∧ ∃ s', commands (set_stage p (AwaitPreload (Some q)) w') !! p
                    = Some {| loader := l; stage := s' |} ∧ in_production s') as Hnested.
  { intros al q w' Hload.
    destruct (do_load_fields al w0) as (H1 & H2 & H3 & H4 & H5 & more & H6).
    rewrite Hload in *. simpl in H1, H2, H3, H4, H5, H6.
    world_simpl. repeat split; try done.
    exists (AwaitPreload (Some q)). split; [|right; by eexists].
    rewrite list_lookup_alter_eq, H6, lookup_app_l.
    - by rewrite Hc.
    - by eapply lookup_lt_Some. }
  destruct l as [o cmd args|o [a|al] ip|o [a|al] ip gz].
  - repeat split; try done. exists AwaitExit. split; [|by left].
    by lookup_command Hc0.
  - repeat split; try done. exists (AwaitPreload None). split; [|right; by eexists].
    by lookup_command Hc0.
  - destruct (do_load al w0) as [w' q] eqn:Hload. by eapply Hnested.
  - repeat split; try done. exists (AwaitPreload None). split; [|right; by eexists].
    by lookup_command Hc0.
  - destruct (do_load al w0) as [w' q] eqn:Hload. by eapply Hnested.
Qed.

(** From the start of the execution phase to the call of [exec]: three
    awaited operations complete, the temporary file is created empty and its
    handle is held, no file that exists is changed but the temporary one. *)
Lemma run_to_exec w p l :
  commands w !! p = Some {| loader := l; stage := AwaitPrepareTemp |} →
  run pid codecs w [Resume p; Resume p; Resume p] = Some (exec_entry p l w)
  ∧ execs (exec_entry p l w) = execs w ++ [p]
  ∧ now (exec_entry p l w) = now w
  ∧ returned (exec_entry p l w) = returned w
  ∧ handles (exec_entry p l w) = p :: handles w
  ∧ fs (exec_entry p l w) !! tempPath pid l = Some (File "" (now w))
  ∧ fs (exec_entry p l w) !! errorPath pid l = fs w !! errorPath pid l
  ∧ (∀ x n, x ≠ tempPath pid l → fs w !! x = Some n →
            fs (exec_entry p l w) !! x = Some n)
  ∧ ∃ s', commands (exec_entry p l w) !! p = Some {| loader := l; stage := s' |}
          ∧ in_production s'.
Proof.
  intros Hc. unfold exec_entry.
  set (w1 := set_stage p AwaitPrepareCache _).
  set (w2 := set_stage p AwaitOpen _).
  set (w3 := acquire p _).
  assert (commands w1 !! p = Some {| loader := l; stage := AwaitPrepareCache |})
    as Hc1 by (subst w1; by lookup_command Hc).
  assert (commands w2 !! p = Some {| loader := l; stage := AwaitOpen |})
    as Hc2 by (subst w2; by lookup_command Hc1).
  assert (commands w3 !! p = Some {| loader := l; stage := AwaitOpen |})
    as Hc3 by done.
  destruct (call_exec_fields p l w3 _ Hc3) as (Hfs & Hnow & Hexecs & Hh & Hret & Hstage).
  split.
  { cbn [run step]. unfold resume at 1. rewrite Hc.
    cbv beta iota delta [stage loader]. fold w1.
    unfold resume at 1. rewrite Hc1.
    cbv beta iota delta [stage loader]. fold w2.
    unfold resume at 1. rewrite Hc2.
    cbv beta iota delta [stage loader]. fold w3. reflexivity. }
  rewrite Hfs, Hnow, Hexecs, Hh, Hret.
  split; [done|]. split; [done|]. split; [done|]. split; [done|].
  split.
  { subst w3. world_simpl. unfold open_w. by rewrite lookup_insert_eq. }
  split.
  { subst w3 w2 w1. world_simpl. unfold open_w.
    rewrite lookup_insert_ne by apply temp_ne_error.
    rewrite prepareOutput_other.
    2:{ pose proof (cache_shorter_than_error pid l). lia. }
    rewrite prepareOutput_other; [done|].
    rewrite length_errorPath. lia. }
  split; [|done].
  intros x n Hx Hn. subst w3 w2 w1. world_simpl. unfold open_w.
  rewrite lookup_insert_ne by done.
  by do 2 apply prepareOutput_preserve.
Qed.

(** The test of line 285. *)
Definition recent (w : World) (errorMtime loaderMtime : Z) : Prop :=
  loaderMtime < errorMtime ∧ now w - 1000 < errorMtime.

Lemma recent_true w em lm :
  recent w em lm → (em >? lm) && (em >? -1000 + now w) = true.
Proof.
  intros [H1 H2]. rewrite andb_true_iff, !Z.gtb_ltb, !Z.ltb_lt. lia.
Qed.

Lemma recent_false w em lm :
  ¬ recent w em lm → (em >? lm) && (em >? -1000 + now w) = false.
Proof.
  unfold recent. intros H. rewrite andb_false_iff, !Z.gtb_ltb, !Z.ltb_ge. lia.
Qed.

(** No marker stops the load: there is none, or it is not recent. *)
Definition cooldown_clear (w : World) (l : Loader) (loaderStat : option Z) : Prop :=
  ∀ em, maybeStat (fs w) (errorPath pid l) = Some em →
        ∃ lm, loaderStat = Some lm ∧ ¬ recent w em lm.

(** From the cooldown check to the call of [exec], when nothing stops the
    load. *)
Lemma run_cooldown_clear w p l loaderStat :
  commands w !! p = Some {| loader := l; stage := AwaitErrorStat loaderStat |} →
  cooldown_clear w l loaderStat →
  ∃ n w',
    run pid codecs w (replicate n (Resume p)) = Some w'
    ∧ execs w' = execs w ++ [p]
    ∧ now w' = now w
    ∧ returned w' = returned w
    ∧ handles w' = p :: handles w
    ∧ (∃ s', commands w' !! p = Some {| loader := l; stage := s' |}
             ∧ in_production s')
    ∧ (∀ content m, fs w !! errorPath pid l = Some (File content m) →
                    fs w' !! errorPath pid l = None)
    ∧ (fs w !! errorPath pid l = None → fs w' !! errorPath pid l = None)
    ∧ fs w' !! tempPath pid l = Some (File "" (now w))
    ∧ (∀ x n, x ≠ tempPath pid l → x ≠ errorPath pid l → fs w !! x = Some n →
              fs w' !! x = Some n).
Proof.
  intros Hc Hclear.
  destruct (maybeStat (fs w) (errorPath pid l)) as [em|] eqn:Hmarker.
  - destruct (Hclear em Hmarker) as (lm & -> & Hold).
    set (wa := set_stage p AwaitUnlink w).
    set (wb := set_stage p AwaitPrepareTemp
                 (set_fs (unlink_quiet (errorPath pid l) (fs wa)) wa)).
    assert (commands wa !! p = Some {| loader := l; stage := AwaitUnlink |})
      as Hca by (subst wa; by lookup_command Hc).
    assert (commands wb !! p = Some {| loader := l; stage := AwaitPrepareTemp |})
      as Hcb by (subst wb; by lookup_command Hca).
    destruct (run_to_exec wb p l Hcb)
      as (Hrun & Hexecs & Hnow & Hret & Hh & Htemp & Herr & Hkeep & Hstage).
    exists 5%nat, (exec_entry p l wb).
    split.
    { cbn [replicate run step]. unfold resume at 1. rewrite Hc.
      cbv beta iota delta [stage loader]. rewrite Hmarker.
      rewrite (recent_false _ _ _ Hold). fold wa.
      unfold resume at 1. rewrite Hca.
      cbv beta iota delta [stage loader]. fold wb. exact Hrun. }
    split; [done|]. split; [done|]. split; [done|]. split; [done|].
    split; [done|]. split.
    { intros content m Hfile. rewrite Herr. subst wb wa. world_simpl.
      unfold unlink_quiet. rewrite Hfile. by rewrite lookup_delete_eq. }
    split.
    { intros Hnone. rewrite Herr. subst wb wa. world_simpl.
      unfold unlink_quiet. by rewrite Hnone. }
    split; [done|].
    intros x n Hx Hxe Hn. apply Hkeep; [done|]. subst wb wa. world_simpl.
    unfold unlink_quiet. repeat case_match; try done.
    by rewrite lookup_delete_ne.
  - set (wb := set_stage p AwaitPrepareTemp w).
    assert (commands wb !! p = Some {| loader := l; stage := AwaitPrepareTemp |})
      as Hcb by (subst wb; by lookup_command Hc).
    destruct (run_to_exec wb p l Hcb)
      as (Hrun & Hexecs & Hnow & Hret & Hh & Htemp & Herr & Hkeep & Hstage).
    exists 4%nat, (exec_entry p l wb).
    split.
    { cbn [replicate run step]. unfold resume at 1. rewrite Hc.
      cbv beta iota delta [stage loader]. rewrite Hmarker. fold wb. exact Hrun. }
    split; [done|]. split; [done|]. split; [done|]. split; [done|].
    split; [done|].
    assert (fs w !! errorPath pid l = None) as Hnone.
    { unfold maybeStat in Hmarker. by destruct (fs w !! errorPath pid l). }
    split; [intros content m Hfile; congruence|].
    split; [intros _; by rewrite Herr|].
    split; [done|].
    intros x n Hx Hxe Hn. by apply Hkeep.
Qed.

(** C4. A load that is about to execute, and knows the modification
    time of its loader, looks at its error marker: a marker whose time is
    after that of the loader and after now minus one second makes the load
    reject at once with the "recent error" and nothing is executed; with any
    other marker, or none, the marker file is removed and the load goes on to
    call the production step, which is what a load does once the cooldown
    has expired or the marker was removed. *)
Theorem error_cooldown (w : World) (p : nat) (l : Loader) (loaderMtime : Z) :
  commands w !! p = Some {| loader := l; stage := AwaitErrorStat (Some loaderMtime) |} →
  (∀ errorMtime,
     maybeStat (fs w) (errorPath pid l) = Some errorMtime →
     recent w errorMtime loaderMtime →
     ∃ w', resume pid codecs p w = Some w'
           ∧ settlement w' p = Some (Rejected RecentError)
           ∧ execs w' = execs w ∧ fs w' = fs w ∧ handles w' = handles w)
  ∧ ((∀ errorMtime,
        maybeStat (fs w) (errorPath pid l) = Some errorMtime →
        ¬ recent w errorMtime loaderMtime) →
     ∃ n w',
       run pid codecs w (replicate n (Resume p)) = Some w'
       ∧ execs w' = execs w ++ [p]
       ∧ (∃ s', commands w' !! p = Some {| loader := l; stage := s' |}
                ∧ in_production s')
       ∧ (∀ content m, fs w !! errorPath pid l = Some (File content m) →
                       fs w' !! errorPath pid l = None)
       ∧ (fs w !! errorPath pid l = None → fs w' !! errorPath pid l = None))
  ∧ (∀ errorMtime, errorMtime + 1000 ≤ now w → ¬ recent w errorMtime loaderMtime).
Proof.
  intros Hc. split; [|split].
  - intros em Hmarker Hrecent. eexists. split.
    { unfold resume. rewrite Hc. cbv beta iota delta [stage loader].
      rewrite Hmarker, (recent_true _ _ _ Hrecent). reflexivity. }
    split; [by lookup_command Hc|]. done.
  - intros Hold.
    destruct (run_cooldown_clear w p l (Some loaderMtime) Hc)
      as (n & w' & Hrun & Hexecs & _ & _ & _ & Hstage & Hdel & Hnone & _).
    { intros em Hem. exists loaderMtime. split; [done|]. by apply Hold. }
    by exists n, w'.
  - intros em Hexpired [_ H]. lia.
Qed.

Lemma run_app w evs1 evs2 :
  run pid codecs w (evs1 ++ evs2)
  = match run pid codecs w evs1 with
    | Some w' => run pid codecs w' evs2
    | None => None
    end.
Proof.
  revert w. induction evs1 as [|ev evs1 IH]; intros w; [done|].
  simpl. destruct (step pid codecs w ev); [apply IH|done].
Qed.

Lemma cooldown_clear_ext w w' l loaderStat :
  fs w' = fs w → now w' = now w →
  cooldown_clear w l loaderStat → cooldown_clear w' l loaderStat.
Proof.
  intros Hfs Hnow H em. rewrite Hfs. intros Hem.
  destruct (H em Hem) as (lm & ? & Hold). exists lm. split; [done|].
  unfold recent in *. by rewrite Hnow.
Qed.

(** The world right after a call of [load] that registers its key. *)
Definition registered (l : Loader) (w : World) : World :=
  {| fs := fs w; now := now w;
     runningCommands := <[key l := length (commands w)]> (runningCommands w);
     commands := commands w ++ [{| loader := l; stage := AwaitLoaderStat |}];
     execs := execs w; handles := handles w;
     output := output w ++ [LoadLine (path (options l))];
     returned := returned w ++ [length (commands w)] |}.

Lemma step_load_first w l :
  runningCommands w !! key l = None →
  step pid codecs w (Load l) = Some (registered l w).
Proof. intros H. cbn [step]. unfold do_load. by rewrite H. Qed.

Lemma step_load_joined w l p :
  runningCommands w !! key l = Some p →
  step pid codecs w (Load l)
  = Some {| fs := fs w; now := now w; runningCommands := runningCommands w;
            commands := commands w; execs := execs w; handles := handles w;
            output := output w ++ [LoadLine (path (options l))];
            returned := returned w ++ [p] |}.
Proof. intros H. cbn [step]. unfold do_load. by rewrite H. Qed.

Lemma lookup_registered l w :
  commands (registered l w) !! length (commands w)
  = Some {| loader := l; stage := AwaitLoaderStat |}.
Proof. cbn [commands registered]. by rewrite list_lookup_middle. Qed.

(** C2 (amended). A call of [load] that registers its key stats the
    loader and the cache file and then: with no cache file, tags the output
    "missing" and goes on to execute; with a cache file older than the
    loader, returns the cache path untouched under [useStale], and otherwise
    tags "stale" and goes on to execute; with a cache file that is not older,
    returns the cache path and executes nothing.  "Goes on to execute" means:
    unless the error cooldown stops the load, the production step is called;
    and when that step succeeds the cache file holds what it wrote. *)
Theorem freshness_protocol (w : World) (l : Loader) :
  runningCommands w !! key l = None →
  let p := length (commands w) in
  let loaderStat := maybeStat (fs w) (path (options l)) in
  let cacheStat := maybeStat (fs w) (cachePath l) in
  let executes (w2 : World) (loaderStat : option Z) : Prop :=
    cooldown_clear w l loaderStat →
    (∃ n w3,
       run pid codecs w2 (replicate n (Resume p)) = Some w3
       ∧ execs w3 = execs w ++ [p]
       ∧ ∃ s', commands w3 !! p = Some {| loader := l; stage := s' |}
               ∧ in_production s')
    ∧ (∀ wx s written,
         commands wx !! p = Some {| loader := l; stage := s |} →
         ∃ w4 w5,
           resume pid codecs p (after_exec pid p l written None wx) = Some w4
           ∧ resume pid codecs p w4 = Some w5
           ∧ fs w5 !! cachePath l = Some (File written (now wx))
           ∧ settlement w5 p = Some (Resolved (outputPath l))) in
  ∃ w2,
    run pid codecs w [Load l; Resume p; Resume p] = Some w2
    ∧ fs w2 = fs w ∧ execs w2 = execs w ∧ returned w2 = returned w ++ [p]
    ∧ (cacheStat = None →
       commands w2 !! p = Some {| loader := l; stage := AwaitErrorStat loaderStat |}
       ∧ output w2 = output w ++ [LoadLine (path (options l)); TagMissing]
       ∧ executes w2 loaderStat)
    ∧ (∀ cacheMtime loaderMtime,
         cacheStat = Some cacheMtime → loaderStat = Some loaderMtime →
         cacheMtime < loaderMtime →
         (useStale (options l) = true →
            settlement w2 p = Some (Resolved (outputPath l))
            ∧ output w2 = output w ++ [LoadLine (path (options l)); TagUsingStale])
         ∧ (useStale (options l) = false →
            commands w2 !! p
              = Some {| loader := l; stage := AwaitErrorStat (Some loaderMtime) |}
            ∧ output w2 = output w ++ [LoadLine (path (options l)); TagStale]
            ∧ executes w2 (Some loaderMtime)))
    ∧ (∀ cacheMtime loaderMtime,
         cacheStat = Some cacheMtime → loaderStat = Some loaderMtime →
         loaderMtime ≤ cacheMtime →
         settlement w2 p = Some (Resolved (outputPath l))
         ∧ output w2 = output w ++ [LoadLine (path (options l)); TagFresh]).
Proof.
  intros Hkey p loaderStat cacheStat executes.
  pose proof (lookup_registered l w) as Hc0. fold p in Hc0.
  set (w0 := registered l w) in *.
  set (w1 := set_stage p (AwaitCacheStat loaderStat) w0).
  assert (commands w1 !! p = Some {| loader := l; stage := AwaitCacheStat loaderStat |})
    as Hc1 by (subst w1; by lookup_command Hc0).
  assert (∀ w2 ls,
            fs w2 = fs w → now w2 = now w → execs w2 = execs w →
            commands w2 !! p = Some {| loader := l; stage := AwaitErrorStat ls |} →
            executes w2 ls) as Hexecutes.
  { intros w2 ls Hfs Hnow Hexecs Hc2 Hclear. split.
    - destruct (run_cooldown_clear w2 p l ls Hc2)
        as (n & w3 & Hrun & Hex & _ & _ & _ & Hstage & _).
      { by apply (cooldown_clear_ext w). }
      exists n, w3. by rewrite <- Hexecs.
    - intros wx s written Hcx.
      destruct (finish_success wx p l s written Hcx)
        as (w4 & w5 & H1 & _ & Hcache & _ & H2 & Hfs5 & Hsettled & _).
      exists w4, w5. by rewrite Hfs5. }
  assert (run pid codecs w [Load l; Resume p]
          = Some w1) as Hrun1.
  { cbn [run]. rewrite step_load_first by done. fold w0.
    cbn [step]. unfold resume. rewrite Hc0.
    cbv beta iota delta [stage loader]. reflexivity. }
  assert (∀ w2, resume pid codecs p w1 = Some w2 →
                run pid codecs w [Load l; Resume p; Resume p] = Some w2) as Hrun2.
  { intros w2 H2.
    change [Load l; Resume p; Resume p] with ([Load l; Resume p] ++ [Resume p]).
    rewrite run_app, Hrun1. cbn [run step]. by rewrite H2. }
  assert (maybeStat (fs w1) (cachePath l) = cacheStat) as Hcs by done.
  assert (∀ tag s, output (set_stage p s (write_output tag w1))
                   = output w ++ [LoadLine (path (options l)); tag]) as Hout.
  { intros tag s. subst w1 w0. unfold registered. world_simpl.
    by rewrite <- List.app_assoc. }
  destruct cacheStat as [cm|] eqn:Hcache.
  - destruct loaderStat as [lm|] eqn:Hloader.
    + destruct (decide (cm < lm)) as [Hstale|Hfresh].
      * destruct (useStale (options l)) eqn:Huse.
        -- eexists. split.
           { apply Hrun2. unfold resume. rewrite Hc1.
             cbv beta iota delta [stage loader]. rewrite Hcs.
             rewrite (proj2 (Z.ltb_lt cm lm) Hstale), Huse. reflexivity. }
           split; [done|]. split; [done|]. split; [done|].
           split; [done|]. split.
           ++ intros cm' lm' [= <-] [= <-] _. split; [|done].
              intros _. split; [by lookup_command Hc1|]. apply Hout.
           ++ intros cm' lm' [= <-] [= <-] ?. lia.
        -- eexists. split.
           { apply Hrun2. unfold resume. rewrite Hc1.
             cbv beta iota delta [stage loader]. rewrite Hcs.
             rewrite (proj2 (Z.ltb_lt cm lm) Hstale), Huse. reflexivity. }
           split; [done|]. split; [done|]. split; [done|].
           split; [done|]. split.
           ++ intros cm' lm' [= <-] [= <-] _. split; [done|].
              intros _. split; [by lookup_command Hc1|].
              split; [apply Hout|].
              apply Hexecutes; try done. by lookup_command Hc1.
           ++ intros cm' lm' [= <-] [= <-] ?. lia.
      * eexists. split.
        { apply Hrun2. unfold resume. rewrite Hc1.
          cbv beta iota delta [stage loader]. rewrite Hcs.
          rewrite (proj2 (Z.ltb_ge cm lm)) by lia. reflexivity. }
        split; [done|]. split; [done|]. split; [done|].
        split; [done|]. split.
        -- intros cm' lm' [= <-] [= <-] ?. lia.
        -- intros cm' lm' [= <-] [= <-] _. split; [by lookup_command Hc1|].
           apply Hout.
    + eexists. split.
      { apply Hrun2. unfold resume. rewrite Hc1.
        cbv beta iota delta [stage loader]. rewrite Hcs. reflexivity. }
      split; [done|]. split; [done|]. split; [done|].
      split; [done|]. split; intros ? ? _ [=].
  - eexists. split.
    { apply Hrun2. unfold resume. rewrite Hc1.
      cbv beta iota delta [stage loader]. rewrite Hcs. reflexivity. }
    split; [done|]. split; [done|]. split; [done|].
    split; [|split; intros ? ? [=]].
    intros _. split; [by lookup_command Hc1|].
    split; [apply Hout|].
    apply Hexecutes; try done. by lookup_command Hc1.
Qed.

End LoadFacts.

(** ** The loader of the specification's example, at work *)

Definition demo_pid : N := 77.

Definition items_loader (stale : bool) : Loader :=
  CommandLoader
    {| root := "docs"; path := "docs/data/items.csv.py";
       targetPath := "data/items.csv"; useStale := stale |}
    "python3" ["docs/data/items.csv.py"].

Definition items_cache : string := "docs/.observablehq/cache/data/items.csv".
Definition items_marker : string := "docs/.observablehq/cache/data/items.csv.77.err".

(** C2 (as stated) fails: no cache file exists, yet the production step
    does not execute, because an error marker written half a second ago
    makes the load reject with the recent-error condition. *)
Lemma freshness_counterexample :
  let fs0 := <[items_marker := File "Traceback" 99500]> (fs_items 5) in
  Fs.maybeStat fs0 (cachePath (items_loader false)) = None
  ∧ ∃ w, run demo_pid demo_codecs (init fs0 100000)
           [Load (items_loader false); Resume 0; Resume 0; Resume 0] = Some w
         ∧ settlement w 0 = Some (Rejected RecentError)
         ∧ execs w = []
         ∧ resume demo_pid demo_codecs 0 w ≫= resume demo_pid demo_codecs 0 = None.
Proof.
  split; [reflexivity|]. eexists. split; [vm_compute; reflexivity|].
  split; [reflexivity|]. split; reflexivity.
Qed.

Lemma freshness_protocol_witness :
  ∃ w2 n w3,
    run demo_pid demo_codecs (init (fs_items 5) 100)
      [Load (items_loader false); Resume 0; Resume 0] = Some w2
    ∧ output w2 = [LoadLine "docs/data/items.csv.py"; TagMissing]
    ∧ run demo_pid demo_codecs w2 (replicate n (Resume 0%nat)) = Some w3
    ∧ execs w3 = [0%nat].
Proof.
  assert (runningCommands (init (fs_items 5) 100) !! key (items_loader false) = None)
    as Hkey by reflexivity.
  destruct (freshness_protocol demo_pid demo_codecs (init (fs_items 5) 100)
              (items_loader false) Hkey)
    as (w2 & Hrun & _ & _ & _ & Hmissing & _).
  destruct (Hmissing eq_refl) as (_ & Hout & Hexec).
  destruct Hexec as [(n & w3 & Hrun3 & Hexecs & _) _].
  { intros em Hem. vm_compute in Hem. discriminate Hem. }
  exists w2, n, w3. repeat split; assumption.
Defined.

(** A world in which the subprocess of the items loader is running. *)
Definition world_running : World :=
  {| fs := <[items_cache := File "old,data" 3]>
             (<["docs/.observablehq/cache/data/items.csv.77" := File "" 100]>
                (fs_items 5));
     now := 100;
     runningCommands := {[ "docs/data/items.csv" := 0%nat ]};
     commands := [{| loader := items_loader false; stage := AwaitExit |}];
     execs := [0%nat]; handles := [0%nat]; output := []; returned := [0%nat] |}.

Lemma atomic_replace_witness :
  (∃ w2 w3,
     process_end demo_pid 0 "a,b" (Closed (Some 0)) world_running ≫= resume demo_pid demo_codecs 0
       = Some w2
     ∧ resume demo_pid demo_codecs 0 w2 = Some w3
     ∧ fs w3 !! items_cache = Some (File "a,b" 100)
     ∧ settlement w3 0 = Some (Resolved ".observablehq/cache/data/items.csv")
     ∧ handles w3 = [])
  ∧ (∃ w2 w3,
       process_end demo_pid 0 "a," (Closed (Some 1)) world_running ≫= resume demo_pid demo_codecs 0
         = Some w2
       ∧ resume demo_pid demo_codecs 0 w2 = Some w3
       ∧ fs w3 !! items_marker = Some (File "a," 100)
       ∧ fs w3 !! items_cache = Some (File "old,data" 3)
       ∧ settlement w3 0 = Some (Rejected (ExitError (Some 1)))).
Proof.
  split.
  - destruct (atomic_replace demo_pid demo_codecs world_running 0
                (items_loader false) AwaitExit "a,b" None eq_refl) as (Hok & _).
    destruct (Hok eq_refl) as (w2 & w3 & H1 & _ & Hcache & _ & H2 & Hfs & Hset & Hh).
    exists w2, w3. split; [exact H1|]. split; [exact H2|].
    split; [by rewrite Hfs|]. split; [exact Hset|].
    injection H1 as <-. injection H2 as <-. reflexivity.
  - destruct (atomic_replace demo_pid demo_codecs world_running 0
                (items_loader false) AwaitExit "a," (Some (ExitError (Some 1)))
                eq_refl) as (_ & Hfail & _).
    destruct (Hfail _ eq_refl)
      as (w2 & w3 & H1 & _ & Hmarker & Hcache & _ & H2 & Hfs & Hset & _).
    exists w2, w3. split; [exact H1|]. split; [exact H2|].
    split; [by rewrite Hfs|]. split; [|exact Hset].
    rewrite Hfs. change items_cache with (cachePath (items_loader false)).
    rewrite Hcache. reflexivity.
Defined.

(** A world in which the items loader is about to execute, with a marker
    written at time [markerMtime]. *)
Definition world_cooldown (markerMtime : Z) : World :=
  {| fs := <[items_marker := File "Traceback" markerMtime]> (fs_items 5);
     now := 100000;
     runningCommands := {[ "docs/data/items.csv" := 0%nat ]};
     commands := [{| loader := items_loader false; stage := AwaitErrorStat (Some 5) |}];
     execs := []; handles := []; output := []; returned := [0%nat] |}.

Lemma error_cooldown_witness :
  (∃ w', resume demo_pid demo_codecs 0 (world_cooldown 99500) = Some w'
         ∧ settlement w' 0 = Some (Rejected RecentError) ∧ execs w' = [])
  ∧ (∃ n w', run demo_pid demo_codecs (world_cooldown 98000)
               (replicate n (Resume 0%nat)) = Some w'
             ∧ execs w' = [0%nat] ∧ fs w' !! items_marker = None).
Proof.
  split.
  - destruct (error_cooldown demo_pid demo_codecs (world_cooldown 99500) 0
                (items_loader false) 5 eq_refl) as (Hrecent & _).
    destruct (Hrecent 99500 eq_refl) as (w' & Hres & Hset & Hexecs & _).
    { split; reflexivity. }
    by exists w'.
  - destruct (error_cooldown demo_pid demo_codecs (world_cooldown 98000) 0
                (items_loader false) 5 eq_refl) as (_ & Hretry & _).
    destruct Hretry as (n & w' & Hrun & Hexecs & _ & Hdel & _).
    { intros em Hem [_ H]. vm_compute in Hem. injection Hem as <-.
      vm_compute in H. discriminate H. }
    exists n, w'. split; [exact Hrun|]. split; [exact Hexecs|].
    by apply (Hdel "Traceback" 98000).
Defined.

(** C5: the loader source is gone and a cache file is there; the load
    rejects with the TypeError of reading [mtimeMs] of [undefined].  The
    same happens with neither source nor cache but an error marker. *)
Lemma load_missing_source_fails :
  (let fs0 : gmap string node := {[ items_cache := File "old,data" 3 ]} in
   Fs.maybeStat fs0 (path (options (items_loader false))) = None
   ∧ ∃ w, run demo_pid demo_codecs (init fs0 100)
            [Load (items_loader false); Resume 0; Resume 0] = Some w
          ∧ settlement w 0 = Some (Rejected TypeError))
  ∧ (let fs0 : gmap string node := {[ items_marker := File "Traceback" 3 ]} in
     Fs.maybeStat fs0 (path (options (items_loader false))) = None
     ∧ Fs.maybeStat fs0 (cachePath (items_loader false)) = None
     ∧ ∃ w, run demo_pid demo_codecs (init fs0 100000)
              [Load (items_loader false); Resume 0; Resume 0; Resume 0] = Some w
            ∧ settlement w 0 = Some (Rejected TypeError))
  ∧ (let fs0 : gmap string node := ∅ in
     ∃ w, run demo_pid demo_codecs (init fs0 100)
            [Load (items_loader false); Resume 0; Resume 0; Resume 0;
             Resume 0; Resume 0; Resume 0] = Some w
          ∧ stage_of w 0 = Some AwaitExit ∧ execs w = [0%nat]).
Proof.
  split; [|split].
  - split; [reflexivity|]. eexists. split; [vm_compute; reflexivity|reflexivity].
  - split; [reflexivity|]. split; [reflexivity|].
    eexists. split; [vm_compute; reflexivity|reflexivity].
  - eexists. split; [vm_compute; reflexivity|]. split; reflexivity.
Qed.

(** ** The process id in the temporary and error-marker paths *)

Section PerProcess.
Import Str Path Fs StrFacts PathFacts CachePaths.

Variable codecs : Codecs.

Lemma keep_while_app {A} (f : A → bool) a y b :
  Forall (λ x, f x = true) a → f y = false → keep_while f (a ++ y :: b) = a.
Proof.
  intros Ha Hy. induction Ha as [|x a Hx _ IH]; simpl.
  - by rewrite Hy.
  - by rewrite Hx, IH.
Qed.

Lemma sapp_inj_r a b s : a +:+ s = b +:+ s → a = b.
Proof.
  intros H. apply (f_equal chars) in H. rewrite !chars_app in H.
  apply app_inv_tail in H. apply (f_equal of_chars) in H.
  by rewrite !of_chars_chars in H.
Qed.

Lemma of_N_inj a b : of_N a = of_N b → a = b.
Proof.
  unfold of_N. intros H. apply (f_equal NilEmpty.uint_of_string) in H.
  rewrite !NilEmpty.usu in H. injection H as H.
  apply (f_equal N.of_uint) in H. by rewrite !DecimalN.Unsigned.of_to in H.
Qed.

(** What follows the last dot of a text that ends with a dot and digits. *)
Lemma dot_digits_inj x y a b : x +:+ "." +:+ of_N a = y +:+ "." +:+ of_N b → a = b.
Proof.
  intros H. apply of_N_inj.
  apply (f_equal (λ s, keep_while (λ c, negb (is_dot c)) (rev (chars s)))) in H.
  rewrite !chars_app, !rev_app_distr in H.
  change (rev (chars ".")) with ["."%char] in H.
  rewrite <- !List.app_assoc in H. simpl app in H.
  assert (∀ n, Forall (λ c, negb (is_dot c) = true) (rev (chars (of_N n)))) as Hdig.
  { intros n. apply Forall_rev. eapply Forall_impl; [apply uint_digits|].
    intros c [_ Hc]. by rewrite Hc. }
  rewrite !keep_while_app in H by (apply Hdig || done).
  apply (f_equal (@rev _)) in H. rewrite !rev_involutive in H.
  apply (f_equal of_chars) in H. by rewrite !of_chars_chars in H.
Qed.

Lemma tempPath_pid_inj pid pid' l l' : tempPath pid l = tempPath pid' l' → pid = pid'.
Proof.
  destruct (tempPath_suffix pid l) as [pre ->].
  destruct (tempPath_suffix pid' l') as [pre' ->].
  apply dot_digits_inj.
Qed.

Lemma errorPath_pid_inj pid pid' l l' : errorPath pid l = errorPath pid' l' → pid = pid'.
Proof. unfold errorPath. intros H%sapp_inj_r. by eapply tempPath_pid_inj. Qed.

(** C10. The error-marker path is the temporary path followed by
    [.err], and the temporary path ends with a dot and the process id; for a
    target whose last segment is a name it is the cache path, a dot, the
    process id, [.err].  Hence two processes with different ids never use the
    same temporary path nor the same marker path, whatever the targets, and
    the cooldown check of a load is not affected by the marker another
    process wrote: with no marker of its own, the load is not rejected as
    recently failed. *)
Theorem error_marker_per_process (pid pid' : N) (l l' : Loader) :
  pid ≠ pid' →
  errorPath pid l = tempPath pid l +:+ ".err"
  ∧ (∃ pre, errorPath pid l = pre +:+ "." +:+ of_N pid +:+ ".err")
  ∧ (let name := List.last (split (targetPath (options l))) "" in
     name ≠ "" → name ≠ "." → name ≠ ".." →
     errorPath pid l = cachePath l +:+ "." +:+ of_N pid +:+ ".err")
  ∧ tempPath pid l ≠ tempPath pid' l'
  ∧ errorPath pid l ≠ errorPath pid' l'
  ∧ (∀ w p loaderStat other,
       commands w !! p = Some {| loader := l; stage := AwaitErrorStat loaderStat |} →
       let w' := set_fs (<[errorPath pid' l' := other]> (fs w)) w in
       maybeStat (fs w') (errorPath pid l) = maybeStat (fs w) (errorPath pid l)
       ∧ ((λ x, stage_of x p) <$> resume pid codecs p w'
          = (λ x, stage_of x p) <$> resume pid codecs p w)
       ∧ (maybeStat (fs w) (errorPath pid l) = None →
          ∃ w'', resume pid codecs p w' = Some w''
                 ∧ stage_of w'' p = Some AwaitPrepareTemp)).
Proof.
  intros Hpid.
  assert (errorPath pid l ≠ errorPath pid' l') as Herr.
  { intros H. by apply Hpid, (errorPath_pid_inj _ _ _ _ H). }
  split; [done|]. split; [|split; [|split; [|split; [done|]]]].
  - destruct (tempPath_suffix pid l) as [pre Hpre]. exists pre.
    unfold errorPath. rewrite Hpre. by rewrite !sapp_assoc.
  - intros name H1 H2 H3. unfold errorPath.
    rewrite (tempPath_of_cachePath pid l) by done. by rewrite !sapp_assoc.
  - intros H. by apply Hpid, (tempPath_pid_inj _ _ _ _ H).
  - intros w p loaderStat other Hc w'.
    assert (maybeStat (fs w') (errorPath pid l) = maybeStat (fs w) (errorPath pid l))
      as Hsame.
    { subst w'. unfold maybeStat. world_simpl. by rewrite lookup_insert_ne. }
    split; [done|].
    assert (commands w' !! p
            = Some {| loader := l; stage := AwaitErrorStat loaderStat |}) as Hc' by done.
    split.
    + unfold resume. rewrite Hc, Hc'. cbv beta iota delta [stage loader].
      rewrite Hsame.
      destruct (maybeStat (fs w) (errorPath pid l)) as [em|];
        [destruct loaderStat as [lm|]|].
      * change (now w') with (now w).
        destruct ((em >? lm) && (em >? -1000 + now w));
          cbn [fmap option_fmap option_map]; f_equal;
          try (by lookup_command Hc; lookup_command Hc').
      * cbn [fmap option_fmap option_map]; f_equal;
          try (by lookup_command Hc; lookup_command Hc').
      * cbn [fmap option_fmap option_map]; f_equal;
          try (by lookup_command Hc; lookup_command Hc').
    + intros Hnone. eexists. split.
      { unfold resume. rewrite Hc'. cbv beta iota delta [stage loader].
        rewrite Hsame, Hnone. reflexivity. }
      by lookup_command Hc'.
Qed.

End PerProcess.

Lemma error_marker_per_process_witness :
  errorPath 77%N (items_loader false) = "docs/.observablehq/cache/data/items.csv.77.err"
  ∧ errorPath 77%N (items_loader false) ≠ errorPath 78%N (items_loader false)
  ∧ tempPath 77%N (items_loader false) ≠ tempPath 78%N (items_loader false)
  ∧ ∃ w'', resume 77%N demo_codecs 0
             (set_fs (<[errorPath 78%N (items_loader false) := File "Traceback" 99900]>
                        (fs_items 5))
                (set_fs (fs_items 5) (world_cooldown 99900))) = Some w''
           ∧ stage_of w'' 0 = Some AwaitPrepareTemp.
Proof.
  assert (77%N ≠ 78%N) as Hpid by discriminate.
  destruct (error_marker_per_process demo_codecs 77%N 78%N (items_loader false)
              (items_loader false) Hpid)
    as (_ & _ & Hname & Htemp & Herr & Hcheck).
  split.
  - rewrite Hname; [reflexivity|vm_compute; discriminate..].
  - split; [exact Herr|]. split; [exact Htemp|].
    destruct (Hcheck (set_fs (fs_items 5) (world_cooldown 99900)) 0%nat (Some 5)
                (File "Traceback" 99900) eq_refl) as (_ & _ & Hgo).
    apply Hgo. reflexivity.
Defined.

(** ** The in-flight registry *)

Definition before_exec (s : Stage) : bool :=
  match s with
  | AwaitLoaderStat | AwaitCacheStat _ | AwaitErrorStat _ | AwaitUnlink
  | AwaitPrepareTemp | AwaitPrepareCache | AwaitOpen => true
  | _ => false
  end.

(** What holds of the registry, the commands and the log of production
    steps in every world the process can reach: a registered key names a
    command with that key that has not run its [finally] callback; every
    such command is the one registered under its key; no command's
    production step is logged twice, nor before the command calls it. *)
Record Inv3 (rc : gmap string nat) (cmds : list Command) (ex : list nat) : Prop := {
  inv_registered : ∀ k q,
    rc !! k = Some q →
    ∃ l s, cmds !! q = Some {| loader := l; stage := s |}
           ∧ key l = k ∧ is_finalized s = false;
  inv_in_flight : ∀ q l s,
    cmds !! q = Some {| loader := l; stage := s |} →
    is_finalized s = false → rc !! key l = Some q;
  inv_nodup : NoDup ex;
  inv_bound : ∀ q, q ∈ ex → (q < length cmds)%nat;
  inv_before : ∀ q l s,
    cmds !! q = Some {| loader := l; stage := s |} →
    before_exec s = true → q ∉ ex
}.

Definition Inv (w : World) : Prop :=
  Inv3 (runningCommands w) (commands w) (execs w).

Definition restage (s : Stage) (c : Command) : Command :=
  {| loader := loader c; stage := s |}.

Section RegistryFacts.

Lemma lookup_restage (cmds : list Command) (p q : nat) s l' s' :
  alter (restage s) p cmds !! q = Some {| loader := l'; stage := s' |} →
  (q = p ∧ s' = s ∧ ∃ s0, cmds !! p = Some {| loader := l'; stage := s0 |})
  ∨ (q ≠ p ∧ cmds !! q = Some {| loader := l'; stage := s' |}).
Proof.
  destruct (decide (q = p)) as [->|Hne].
  - rewrite list_lookup_alter_eq. destruct (cmds !! p) as [[l0 s0]|]; [|done].
    intros [= <- <-]. left. eauto.
  - rewrite list_lookup_alter_ne by done. by right.
Qed.

Lemma inv_init : Inv3 ∅ [] [].
Proof.
  split; try done.
  all: try constructor.
  all: try (by intros ? ?%elem_of_nil).
  all: try (by intros ? ? ? _ _ ?%elem_of_nil).
Qed.

(** A command moves on to a stage that is not the final one. *)
Lemma inv_stage rc (cmds : list Command) ex (p : nat) l s s' :
  Inv3 rc cmds ex →
  cmds !! p = Some {| loader := l; stage := s |} →
  is_finalized s = false → is_finalized s' = false →
  (before_exec s' = true → before_exec s = true) →
  Inv3 rc (alter (restage s') p cmds) ex.
Proof.
  intros [H1 H2 H3 H4 H5] Hp Hs Hs' Hmono. split.
  - intros k q Hk. destruct (H1 k q Hk) as (l0 & s0 & Hq & Hkey & Hfin).
    destruct (decide (q = p)) as [->|Hne].
    + exists l, s'. rewrite list_lookup_alter_eq, Hp. simplify_eq. done.
    + exists l0, s0. by rewrite list_lookup_alter_ne.
  - intros q l0 s0 Hq Hfin.
    destruct (lookup_restage _ _ _ _ _ _ Hq) as [(-> & -> & s1 & Hq')|[Hne Hq']].
    + simplify_eq. by eapply H2.
    + by eapply H2.
  - done.
  - intros q Hq. rewrite length_alter. by apply H4.
  - intros q l0 s0 Hq Hbefore.
    destruct (lookup_restage _ _ _ _ _ _ Hq) as [(-> & -> & s1 & Hq')|[Hne Hq']].
    + simplify_eq. eapply H5; [done|]. by apply Hmono.
    + by eapply H5.
Qed.

(** A call of [load] registers a new command. *)
Lemma inv_register rc (cmds : list Command) ex l :
  Inv3 rc cmds ex →
  rc !! key l = None →
  Inv3 (<[key l := length cmds]> rc)
    (cmds ++ [{| loader := l; stage := AwaitLoaderStat |}]) ex.
Proof.
  intros [H1 H2 H3 H4 H5] Hnone. split.
  - intros k q Hk. destruct (decide (k = key l)) as [->|Hne].
    + rewrite lookup_insert_eq in Hk. simplify_eq.
      exists l, AwaitLoaderStat. by rewrite list_lookup_middle.
    + rewrite lookup_insert_ne in Hk by done.
      destruct (H1 k q Hk) as (l0 & s0 & Hq & Hkey & Hfin).
      exists l0, s0. rewrite lookup_app_l; [done|]. by eapply lookup_lt_Some.
  - intros q l0 s0 Hq Hfin.
    destruct (decide (q < length cmds)%nat) as [Hlt|Hge].
    + rewrite lookup_app_l in Hq by done.
      pose proof (H2 q l0 s0 Hq Hfin) as Hrc.
      rewrite lookup_insert_ne; [done|]. intros Heq. congruence.
    + rewrite lookup_app_r in Hq by lia.
      destruct (q - length cmds)%nat as [|n] eqn:Hn; [|by destruct n].
      simpl in Hq. simplify_eq.
      assert (q = length cmds) as -> by lia. by rewrite lookup_insert_eq.
  - done.
  - intros q Hq. rewrite length_app. specialize (H4 q Hq). lia.
  - intros q l0 s0 Hq Hbefore Hin.
    destruct (decide (q < length cmds)%nat) as [Hlt|Hge].
    + rewrite lookup_app_l in Hq by done. by eapply H5.
    + specialize (H4 q Hin). lia.
Qed.

(** A command calls its production step. *)
Lemma inv_exec rc (cmds : list Command) ex (p : nat) l s' :
  Inv3 rc cmds ex →
  cmds !! p = Some {| loader := l; stage := AwaitOpen |} →
  is_finalized s' = false → before_exec s' = false →
  Inv3 rc (alter (restage s') p cmds) (ex ++ [p]).
Proof.
  intros HI Hp Hs' Hb.
  pose proof (inv_before _ _ _ HI p l AwaitOpen Hp eq_refl) as Hnotin.
  destruct (inv_stage rc cmds ex p l AwaitOpen s' HI Hp eq_refl Hs')
    as [H1 H2 H3 H4 H5]; [by rewrite Hb|].
  split; try done.
  - apply NoDup_app. split; [done|]. split; [|apply NoDup_singleton].
    intros q Hq ->%list_elem_of_singleton. done.
  - intros q [Hq| ->%list_elem_of_singleton]%elem_of_app; [by apply H4|].
    rewrite length_alter. by eapply lookup_lt_Some.
  - intros q l0 s0 Hq Hbefore [Hin| ->%list_elem_of_singleton]%elem_of_app.
    + by eapply H5.
    + rewrite list_lookup_alter_eq, Hp in Hq. simpl in Hq.
      injection Hq as <- <-. congruence.
Qed.

(** The [finally] callback of a settled command unregisters its key. *)
Lemma inv_finalize rc (cmds : list Command) ex (p : nat) l r :
  Inv3 rc cmds ex →
  cmds !! p = Some {| loader := l; stage := Settled r |} →
  Inv3 (delete (key l) rc) (alter (restage (Finalized r)) p cmds) ex.
Proof.
  intros [H1 H2 H3 H4 H5] Hp. split.
  - intros k q Hk. apply lookup_delete_Some in Hk as [Hne Hk].
    destruct (H1 k q Hk) as (l0 & s0 & Hq & Hkey & Hfin).
    exists l0, s0. rewrite list_lookup_alter_ne; [done|].
    intros ->. by simplify_eq.
  - intros q l0 s0 Hq Hfin.
    destruct (lookup_restage _ _ _ _ _ _ Hq) as [(-> & -> & _)|[Hne Hq']]; [done|].
    pose proof (H2 q l0 s0 Hq' Hfin) as Hrc.
    rewrite lookup_delete_ne; [done|]. intros Heq.
    pose proof (H2 p l (Settled r) Hp eq_refl) as Hrp. congruence.
  - done.
  - intros q Hq. rewrite length_alter. by apply H4.
  - intros q l0 s0 Hq Hbefore.
    destruct (lookup_restage _ _ _ _ _ _ Hq) as [(-> & -> & _)|[Hne Hq']]; [done|].
    by eapply H5.
Qed.

End RegistryFacts.

(** The settlement a command has decided on: known from the stage that
    closes the temporary file onwards. *)
Definition result_of (s : Stage) : option Settlement :=
  match s with
  | AwaitClose r | Settled r | Finalized r => Some r
  | _ => None
  end.

Section Steps.

Variable pid : N.
Variable codecs : Codecs.

(** What one operation of a command does to the registry, the commands
    and the log: it moves the command to its next stage; when the stage was
    the opening of the temporary file it logs the production step and may
    register the loader of the archive; when the command was settled it
    removes the key. *)
Definition stage_change (w w' : World) (p : nat) (l : Loader) (s s' : Stage) : Prop :=
  runningCommands w' = runningCommands w
  ∧ commands w' = alter (restage s') p (commands w)
  ∧ execs w' = execs w
  ∧ is_finalized s' = false
  ∧ (before_exec s' = true → before_exec s = true)
  ∧ settlement_of s = None
  ∧ (∀ x, result_of s' = Some (Resolved x) →
          x = outputPath l ∨ result_of s = Some (Resolved x)).

Definition exec_call (w w' : World) (p : nat) (s s' : Stage) : Prop :=
  s = AwaitOpen
  ∧ execs w' = execs w ++ [p]
  ∧ is_finalized s' = false ∧ before_exec s' = false ∧ result_of s' = None
  ∧ ((runningCommands w' = runningCommands w
      ∧ commands w' = alter (restage s') p (commands w))
     ∨ ∃ archiveLoader,
         runningCommands w !! key archiveLoader = None
         ∧ runningCommands w' = <[key archiveLoader := length (commands w)]>
                                  (runningCommands w)
         ∧ commands w' = alter (restage s') p (commands w)
                         ++ [{| loader := archiveLoader; stage := AwaitLoaderStat |}]).

Definition finalization (w w' : World) (p : nat) (l : Loader) (s s' : Stage) : Prop :=
  ∃ r, s = Settled r ∧ s' = Finalized r
       ∧ runningCommands w' = delete (key l) (runningCommands w)
       ∧ commands w' = alter (restage s') p (commands w)
       ∧ execs w' = execs w.

Lemma after_exec_shape p l s written err w :
  before_exec s = false → settlement_of s = None →
  ∃ s', stage_change w (after_exec pid p l written err w) p l s s'.
Proof.
  intros Hb Hs. unfold after_exec.
  destruct err; [exists (AwaitRenameError e)|exists AwaitRename].
  all: repeat split; try done; by rewrite Hb.
Qed.

Lemma call_exec_shape p l w :
  commands w !! p = Some {| loader := l; stage := AwaitOpen |} →
  ∃ s', exec_call w (call_exec p l w) p AwaitOpen s'.
Proof.
  intros Hc. unfold call_exec.
  assert (∀ al, ∃ s',
            exec_call w
              (let '(w', q) :=
                 do_load al
                   {| fs := fs w; now := now w; runningCommands := runningCommands w;
                      commands := commands w; execs := execs w ++ [p];
                      handles := handles w; output := output w;
                      returned := returned w |} in
               set_stage p (AwaitPreload (Some q)) w') p AwaitOpen s') as Hnested.
  { intros al. unfold do_load. cbn [runningCommands].
    destruct (runningCommands w !! key al) as [q|] eqn:Hq.
    - exists (AwaitPreload (Some q)).
      do 5 (split; [done|]). by left.
    - exists (AwaitPreload (Some (length (commands w)))).
      do 5 (split; [done|]).
      right. exists al.
      split; [done|]. split; [done|].
      cbn [commands set_stage write_output].
      rewrite alter_app_l by (by eapply lookup_lt_Some). done. }
  destruct l as [o cmd args|o [a|al] ip|o [a|al] ip gz]; try apply Hnested.
  - exists AwaitExit. do 5 (split; [done|]). by left.
  - exists (AwaitPreload None). do 5 (split; [done|]). by left.
  - exists (AwaitPreload None). do 5 (split; [done|]). by left.
Qed.

Lemma resume_shape w w' p :
  resume pid codecs p w = Some w' →
  ∃ l s s',
    commands w !! p = Some {| loader := l; stage := s |}
    ∧ is_finalized s = false
    ∧ (stage_change w w' p l s s' ∨ exec_call w w' p s s'
       ∨ finalization w w' p l s s').
Proof.
  unfold resume. destruct (commands w !! p) as [[l s]|] eqn:Hc; [|done].
  cbv beta iota delta [stage loader]. intros Hres.
  destruct s.
  all: try (repeat case_match; simplify_eq; exists l; eexists; eexists;
            (split; [reflexivity|]); (split; [reflexivity|]);
            left; repeat split;
            first [done | by intros ? [=] | by intros ? ?; simplify_eq/=; auto]).
  - (* AwaitOpen *)
    simplify_eq.
    destruct (call_exec_shape p l
                (acquire p (set_fs (Fs.open_w (now w) (tempPath pid l) (fs w)) w)) Hc)
      as [s' Hs'].
    exists l, AwaitOpen, s'. split; [done|]. split; [done|]. right. by left.
  - (* AwaitExtract *)
    destruct (extract codecs l archivePath (fs w)) as [[written err]|]; simplify_eq.
    destruct (after_exec_shape p l (AwaitExtract archivePath) written err w
                eq_refl eq_refl) as [s' Hs'].
    exists l, (AwaitExtract archivePath), s'. split; [done|]. split; [done|].
    by left.
  - (* Settled *)
    simplify_eq. exists l, (Settled s), (Finalized s).
    split; [done|]. split; [done|]. right; right. by exists s.
Qed.

Lemma process_end_shape w w' p out e :
  process_end pid p out e w = Some w' →
  ∃ l s s',
    commands w !! p = Some {| loader := l; stage := s |}
    ∧ is_finalized s = false ∧ stage_change w w' p l s s'.
Proof.
  unfold process_end. destruct (commands w !! p) as [[l s]|] eqn:Hc; [|done].
  cbv beta iota delta [stage loader]. destruct s; try done. intros [= <-].
  destruct (after_exec_shape p l AwaitExit out
              match e with
              | Closed (Some 0) => None
              | Closed code => Some (ExitError code)
              | Errored => Some SpawnError
              end w eq_refl eq_refl) as [s' Hs'].
  exists l, AwaitExit, s'. split; [done|]. split; [done|]. exact Hs'.
Qed.

End Steps.

(** A command that resolves resolves to its own loader's output path. *)
Definition resolves_to_cache (cmds : list Command) : Prop :=
  ∀ q l s x,
    cmds !! q = Some {| loader := l; stage := s |} →
    result_of s = Some (Resolved x) → x = outputPath l.

(** The later world keeps every command of the earlier one, with its
    loader and, once settled, with its settlement. *)
Definition extends (w w' : World) : Prop :=
  ∀ q l s,
    commands w !! q = Some {| loader := l; stage := s |} →
    ∃ s', commands w' !! q = Some {| loader := l; stage := s' |}
          ∧ ∀ r, settlement_of s = Some r → settlement_of s' = Some r.

Lemma settlement_result s r : settlement_of s = Some r → result_of s = Some r.
Proof. by destruct s. Qed.

Lemma unsettled_in_flight s : settlement_of s = None → is_finalized s = false.
Proof. by destruct s. Qed.

Lemma extends_refl w : extends w w.
Proof. intros q l s Hq. eauto. Qed.

Lemma extends_trans w1 w2 w3 : extends w1 w2 → extends w2 w3 → extends w1 w3.
Proof.
  intros H12 H23 q l s Hq.
  destruct (H12 q l s Hq) as (s2 & Hq2 & Hs2).
  destruct (H23 q l s2 Hq2) as (s3 & Hq3 & Hs3).
  exists s3. split; [done|]. intros r Hr. by apply Hs3, Hs2.
Qed.

Lemma restage_keeps (cmds more : list Command) (p : nat) l s s' :
  cmds !! p = Some {| loader := l; stage := s |} →
  (∀ r, settlement_of s = Some r → settlement_of s' = Some r) →
  ∀ q l0 s0,
    cmds !! q = Some {| loader := l0; stage := s0 |} →
    ∃ s1, (alter (restage s') p cmds ++ more) !! q
          = Some {| loader := l0; stage := s1 |}
          ∧ ∀ r, settlement_of s0 = Some r → settlement_of s1 = Some r.
Proof.
  intros Hp Hs q l0 s0 Hq.
  rewrite lookup_app_l by (rewrite length_alter; by eapply lookup_lt_Some).
  destruct (decide (q = p)) as [->|Hne].
  - rewrite list_lookup_alter_eq, Hp. simplify_eq. exists s'. done.
  - rewrite list_lookup_alter_ne by done. eauto.
Qed.

Lemma restage_resolves (cmds : list Command) (p : nat) l s s' :
  resolves_to_cache cmds →
  cmds !! p = Some {| loader := l; stage := s |} →
  (∀ x, result_of s' = Some (Resolved x) →
        x = outputPath l ∨ result_of s = Some (Resolved x)) →
  resolves_to_cache (alter (restage s') p cmds).
Proof.
  intros Hres Hp Hs q l0 s0 x Hq Hx.
  destruct (lookup_restage _ _ _ _ _ _ Hq) as [(-> & -> & s1 & Hp')|[Hne Hq']].
  - simplify_eq. destruct (Hs x Hx) as [->|Hold]; [done|]. by eapply Hres.
  - by eapply Hres.
Qed.

Lemma register_resolves (cmds : list Command) l :
  resolves_to_cache cmds →
  resolves_to_cache (cmds ++ [{| loader := l; stage := AwaitLoaderStat |}]).
Proof.
  intros Hres q l0 s0 x Hq Hx.
  apply lookup_app_Some in Hq as [Hq|[_ Hq]]; [by eapply Hres|].
  apply list_lookup_singleton_Some in Hq as [_ Hq]. by simplify_eq.
Qed.

(** The effect of one event on the registry, the commands and the log. *)
Definition untouched (w w' : World) : Prop :=
  runningCommands w' = runningCommands w
  ∧ commands w' = commands w ∧ execs w' = execs w.

Definition registration (w w' : World) : Prop :=
  ∃ l, runningCommands w !! key l = None
       ∧ runningCommands w' = <[key l := length (commands w)]> (runningCommands w)
       ∧ commands w' = commands w ++ [{| loader := l; stage := AwaitLoaderStat |}]
       ∧ execs w' = execs w.

Definition operation (w w' : World) : Prop :=
  ∃ p l s s',
    commands w !! p = Some {| loader := l; stage := s |}
    ∧ is_finalized s = false
    ∧ (stage_change w w' p l s s' ∨ exec_call w w' p s s'
       ∨ finalization w w' p l s s').

Section Preservation.

Variable pid : N.
Variable codecs : Codecs.

Lemma step_shape w ev w' :
  step pid codecs w ev = Some w' →
  untouched w w' ∨ registration w w' ∨ operation w w'.
Proof.
  destruct ev as [l|p|p out e|dt|path n]; cbn [step].
  - unfold do_load.
    destruct (runningCommands w !! key l) as [q|] eqn:Hq; intros [= <-].
    + by left.
    + right; left. by exists l.
  - intros (l & s & s' & H)%resume_shape. right; right. by exists p, l, s, s'.
  - intros (l & s & s' & Hc & Hf & H)%process_end_shape.
    right; right. exists p, l, s, s'. auto.
  - case_match; [|done]. intros [= <-]. by left.
  - intros [= <-]. by left.
Qed.

Lemma step_inv w ev w' :
  Inv w → step pid codecs w ev = Some w' → Inv w'.
Proof.
  unfold Inv. intros HI [(-> & -> & ->)|[Hreg|Hop]]%step_shape; [done| |].
  - destruct Hreg as (l & Hnone & -> & -> & ->). by apply inv_register.
  - destruct Hop as (p & l & s & s' & Hc & Hf & [Hst|[Hex|Hfin]]).
    + destruct Hst as (-> & -> & -> & Hf' & Hb & _). by eapply inv_stage.
    + destruct Hex as (-> & -> & Hf' & Hb & _ & [[-> ->]|(al & Hnone & -> & ->)]).
      * by eapply inv_exec.
      * rewrite <- (length_alter (restage s') (commands w) p).
        apply inv_register; [|done]. by eapply inv_exec.
    + destruct Hfin as (r & -> & -> & -> & -> & ->). by eapply inv_finalize.
Qed.

Lemma step_resolves w ev w' :
  resolves_to_cache (commands w) → step pid codecs w ev = Some w' →
  resolves_to_cache (commands w').
Proof.
  intros HR [(_ & -> & _)|[Hreg|Hop]]%step_shape; [done| |].
  - destruct Hreg as (l & _ & _ & -> & _). by apply register_resolves.
  - destruct Hop as (p & l & s & s' & Hc & Hf & [Hst|[Hex|Hfin]]).
    + destruct Hst as (_ & -> & _ & _ & _ & _ & Hx). by eapply restage_resolves.
    + assert (resolves_to_cache (alter (restage s') p (commands w))) as HR'.
      { destruct Hex as (_ & _ & _ & _ & Hnone & _).
        eapply restage_resolves; [done..|]. intros x Hx. congruence. }
      destruct Hex as (_ & _ & _ & _ & _ & [[_ ->]|(al & _ & _ & ->)]); [done|].
      by apply register_resolves.
    + destruct Hfin as (r & -> & -> & _ & -> & _).
      eapply restage_resolves; [done..|]. intros x Hx. by right.
Qed.

Lemma step_extends w ev w' :
  step pid codecs w ev = Some w' → extends w w'.
Proof.
  intros [(_ & Hc & _)|[Hreg|Hop]]%step_shape.
  - intros q l s Hq. rewrite Hc. eauto.
  - destruct Hreg as (l & _ & _ & Hc & _). intros q l0 s0 Hq. rewrite Hc.
    exists s0. split; [|done]. rewrite lookup_app_l; [done|].
    by eapply lookup_lt_Some.
  - destruct Hop as (p & l & s & s' & Hc & Hf & [Hst|[Hex|Hfin]]).
    + destruct Hst as (_ & Hc' & _ & _ & _ & Hnone & _).
      intros q l0 s0 Hq. rewrite Hc', <- (app_nil_r (alter _ _ _)).
      eapply restage_keeps; [done| |done]. intros r Hr. congruence.
    + destruct Hex as (-> & _ & _ & _ & _ & [[_ Hc']|(al & _ & _ & Hc')]).
      all: intros q l0 s0 Hq; rewrite Hc'.
      * rewrite <- (app_nil_r (alter _ _ _)).
        eapply restage_keeps; [done| |done]. by intros r Hr.
      * eapply restage_keeps; [done| |done]. by intros r Hr.
    + destruct Hfin as (r & -> & -> & _ & Hc' & _).
      intros q l0 s0 Hq. rewrite Hc', <- (app_nil_r (alter _ _ _)).
      eapply restage_keeps; [done| |done]. by intros r' Hr.
Qed.

Lemma run_inv evs : ∀ w w',
  Inv w → run pid codecs w evs = Some w' → Inv w'.
Proof.
  induction evs as [|ev evs IH]; intros w w' HI; cbn [run].
  - by intros [= <-].
  - destruct (step pid codecs w ev) as [w1|] eqn:Hstep; [|done].
    apply IH. by eapply step_inv.
Qed.

Lemma run_resolves evs : ∀ w w',
  resolves_to_cache (commands w) → run pid codecs w evs = Some w' →
  resolves_to_cache (commands w').
Proof.
  induction evs as [|ev evs IH]; intros w w' HR; cbn [run].
  - by intros [= <-].
  - destruct (step pid codecs w ev) as [w1|] eqn:Hstep; [|done].
    apply IH. by eapply step_resolves.
Qed.

Lemma run_extends evs : ∀ w w',
  run pid codecs w evs = Some w' → extends w w'.
Proof.
  induction evs as [|ev evs IH]; intros w w'; cbn [run].
  - intros [= <-]. apply extends_refl.
  - destruct (step pid codecs w ev) as [w1|] eqn:Hstep; [|done].
    intros Hrun. eapply extends_trans; [by eapply step_extends|by apply IH].
Qed.

End Preservation.

Section Dedup.

Variable pid : N.
Variable codecs : Codecs.

Lemma same_key l1 l2 :
  root (options l2) = root (options l1) →
  targetPath (options l2) = targetPath (options l1) →
  key l2 = key l1 ∧ outputPath l2 = outputPath l1.
Proof. unfold key, outputPath. by intros -> ->. Qed.

Lemma inv_reachable fs0 now0 evs w :
  run pid codecs (init fs0 now0) evs = Some w →
  Inv w ∧ resolves_to_cache (commands w).
Proof.
  intros Hrun. split.
  - eapply run_inv; [|done]. apply inv_init.
  - eapply run_resolves; [|done]. by intros q l s x Hq.
Qed.

(** C1 (amended). Take a reachable state in which no load with the key of
    [l1] is in flight, let a call of [l1.load()] register its command [p], and
    let anything happen afterwards.  As long as [p] has not settled, a call of
    [load] on a loader with the same root and target path returns the very
    same command [p], and it changes neither the commands, nor the log of
    production steps, nor the file system, nor the registry.  From then on,
    whatever happens: no command executes its production step twice (so the
    two calls share at most one execution, and none when the first call
    returns a cached file or is rejected before executing); if [p] resolves,
    it resolves to the output path of both loaders; a settlement of [p] never
    changes; and no two commands in flight have the same key. *)
Theorem load_dedup (fs0 : gmap string node) (now0 : Z) (evs1 evs2 : list Event)
    (l1 l2 : Loader) (w w1 w2 : World) :
  run pid codecs (init fs0 now0) evs1 = Some w →
  runningCommands w !! key l1 = None →
  step pid codecs w (Load l1) = Some w1 →
  run pid codecs w1 evs2 = Some w2 →
  root (options l2) = root (options l1) →
  targetPath (options l2) = targetPath (options l1) →
  let p := length (commands w) in
  returned w1 = returned w ++ [p]
  ∧ (settlement w2 p = None →
     ∃ w3,
       step pid codecs w2 (Load l2) = Some w3
       ∧ returned w3 = returned w2 ++ [p]
       ∧ commands w3 = commands w2 ∧ execs w3 = execs w2
       ∧ fs w3 = fs w2 ∧ runningCommands w3 = runningCommands w2
       ∧ ∀ evs3 w4,
           run pid codecs w3 evs3 = Some w4 →
           NoDup (execs w4)
           ∧ (∀ x, settlement w4 p = Some (Resolved x) →
                   x = outputPath l1 ∧ x = outputPath l2)
           ∧ (∀ r evs4 w5,
                settlement w4 p = Some r →
                run pid codecs w4 evs4 = Some w5 → settlement w5 p = Some r)
           ∧ (∀ q q' l l' s s',
                commands w4 !! q = Some {| loader := l; stage := s |} →
                commands w4 !! q' = Some {| loader := l'; stage := s' |} →
                is_finalized s = false → is_finalized s' = false →
                key l = key l' → q = q')).
Proof.
  intros Hrun1 Hnone Hstep Hrun2 Hroot Htarget p.
  destruct (same_key l1 l2 Hroot Htarget) as [Hkey Hout].
  destruct (inv_reachable _ _ _ _ Hrun1) as [HI HR].
  rewrite step_load_first in Hstep by done. injection Hstep as <-.
  split; [done|]. intros Hpending.
  assert (Inv (registered l1 w)) as HI1.
  { eapply (step_inv pid codecs); [exact HI|]. by apply step_load_first. }
  assert (resolves_to_cache (commands (registered l1 w))) as HR1.
  { eapply (step_resolves pid codecs); [exact HR|]. by apply step_load_first. }
  pose proof (run_inv _ _ _ _ _ HI1 Hrun2) as HI2.
  pose proof (run_resolves _ _ _ _ _ HR1 Hrun2) as HR2.
  destruct (run_extends _ _ _ _ _ Hrun2 p l1 AwaitLoaderStat
              (lookup_registered l1 w)) as (s2 & Hp2 & _).
  assert (runningCommands w2 !! key l2 = Some p) as Hjoin.
  { rewrite Hkey. eapply (inv_in_flight _ _ _ HI2); [exact Hp2|].
    apply unsettled_in_flight. revert Hpending.
    unfold settlement, stage_of. by rewrite Hp2. }
  eexists. split; [by apply step_load_joined|].
  do 5 (split; [done|]). intros evs3 w4 Hrun3.
  assert (Inv w4) as HI4 by (eapply run_inv; [|exact Hrun3]; exact HI2).
  assert (resolves_to_cache (commands w4)) as HR4
    by (eapply run_resolves; [|exact Hrun3]; exact HR2).
  destruct (run_extends _ _ _ _ _ Hrun3 p l1 s2 Hp2) as (s4 & Hp4 & _).
  split; [apply (inv_nodup _ _ _ HI4)|]. split; [|split].
  - intros x. unfold settlement, stage_of. rewrite Hp4. cbn. intros Hx.
    apply settlement_result in Hx. rewrite Hout.
    split; by eapply HR4.
  - intros r evs4 w5 Hr Hrun4.
    destruct (run_extends _ _ _ _ _ Hrun4 p l1 s4 Hp4) as (s5 & Hp5 & Hs5).
    revert Hr. unfold settlement, stage_of. rewrite Hp4, Hp5. cbn. apply Hs5.
  - intros q q' l l' s s' Hq Hq' Hs Hs' Hk.
    pose proof (inv_in_flight _ _ _ HI4 q l s Hq Hs) as Ha.
    pose proof (inv_in_flight _ _ _ HI4 q' l' s' Hq' Hs') as Hb.
    rewrite Hk in Ha. congruence.
Qed.

End Dedup.

(** C1 (as stated) fails: the second call starts while the first is
    pending, both calls get the same command and it resolves to the cache
    path, yet the production step runs zero times, because the cache file is
    not older than the loader. *)
Lemma load_dedup_counterexample :
  let fs0 := <[items_cache := File "a,b" 9]> (fs_items 5) in
  let l := items_loader false in
  ∃ w1 w,
    run demo_pid demo_codecs (init fs0 100) [Load l] = Some w1
    ∧ settlement w1 0 = None
    ∧ run demo_pid demo_codecs w1 [Load l; Resume 0; Resume 0; Resume 0] = Some w
    ∧ returned w = [0%nat; 0%nat]
    ∧ settlement w 0 = Some (Resolved ".observablehq/cache/data/items.csv")
    ∧ runningCommands w = ∅
    ∧ execs w = []
    ∧ (∀ out e, step demo_pid demo_codecs w (Resume 0) = None
                ∧ step demo_pid demo_codecs w (Exit 0 out e) = None).
Proof.
  eexists. eexists. split; [vm_compute; reflexivity|].
  split; [reflexivity|]. split; [vm_compute; reflexivity|].
  split; [reflexivity|]. split; [reflexivity|]. split; [reflexivity|].
  split; [reflexivity|]. intros out e. split; reflexivity.
Qed.

Lemma load_dedup_witness :
  let l := items_loader false in
  ∃ w2 w3,
    run demo_pid demo_codecs (init (fs_items 5) 100) [Load l; Resume 0; Resume 0]
      = Some w2
    ∧ settlement w2 0 = None
    ∧ step demo_pid demo_codecs w2 (Load l) = Some w3
    ∧ returned w3 = [0%nat; 0%nat]
    ∧ execs w3 = execs w2 ∧ fs w3 = fs w2
    ∧ ∀ evs w4, run demo_pid demo_codecs w3 evs = Some w4 → NoDup (execs w4).
Proof.
  intros l.
  destruct (run demo_pid demo_codecs (init (fs_items 5) 100)
              [Load l; Resume 0%nat; Resume 0%nat]) as [w2|] eqn:Hrun;
    [|vm_compute in Hrun; discriminate Hrun].
  assert (settlement w2 0 = None) as Hpending.
  { vm_compute in Hrun. injection Hrun as <-. reflexivity. }
  assert (returned w2 = [0%nat]) as Hret.
  { vm_compute in Hrun. injection Hrun as <-. reflexivity. }
  destruct (load_dedup demo_pid demo_codecs (fs_items 5) 100 []
              [Resume 0%nat; Resume 0%nat] l l
              (init (fs_items 5) 100) (registered l (init (fs_items 5) 100)) w2
              eq_refl eq_refl eq_refl Hrun eq_refl eq_refl) as [_ Hjoin].
  destruct (Hjoin Hpending) as (w3 & Hstep & Hret3 & _ & Hex & Hfs & _ & Hlater).
  exists w2, w3. split; [reflexivity|]. split; [exact Hpending|].
  split; [exact Hstep|]. split; [by rewrite Hret3, Hret|].
  split; [exact Hex|]. split; [exact Hfs|].
  intros evs w4 Hrun4. by destruct (Hlater evs w4 Hrun4).
Defined.

(** ** The interpreter table of a resolver *)

Section InterpreterFacts.

Lemma map_get_obj_set {V} (k k' : string) (v : V) o :
  map_get k (obj_set k' v o) = if bool_decide (k = k') then Some v else map_get k o.
Proof.
  induction o as [|[k0 v0] o IH]; simpl.
  - done.
  - destruct (decide (k' = k0)) as [<-|Hne].
    + rewrite bool_decide_eq_true_2 by done. simpl. by case_bool_decide.
    + rewrite bool_decide_eq_false_2 by done. simpl. rewrite IH.
      repeat case_bool_decide; try done; congruence.
Qed.

Lemma obj_set_keys {V} (k : string) (v : V) o :
  NoDup (map fst o) → NoDup (map fst (obj_set k v o))
  ∧ ∀ x, x ∈ map fst (obj_set k v o) → x = k ∨ x ∈ map fst o.
Proof.
  induction o as [|[k0 v0] o IH]; simpl; intros Hnd.
  - split; [apply NoDup_singleton|]. intros x ?%list_elem_of_singleton. by left.
  - apply NoDup_cons in Hnd as [Hk0 Hnd]. destruct (IH Hnd) as [IH1 IH2].
    destruct (decide (k = k0)) as [<-|Hk].
    + rewrite bool_decide_eq_true_2 by done. simpl. split; [by apply NoDup_cons|].
      intros x [->|Hx]%elem_of_cons; [by left|right; by right].
    + rewrite bool_decide_eq_false_2 by done. simpl. split.
      * apply NoDup_cons. split; [|done].
        intros [->|Hin]%IH2; done.
      * intros x [->|Hx]%elem_of_cons; [right; by left|].
        destruct (IH2 x Hx); [by left|right; by right].
Qed.

Lemma map_get_spread {V} (over base : list (string * V)) k :
  map_get k (spread base over)
  = match map_get k (rev over) with
    | Some v => Some v
    | None => map_get k base
    end.
Proof.
  unfold spread. revert base. induction over as [|[k' v'] over IH]; intros base.
  - done.
  - cbn [fold_left rev]. rewrite IH. cbn [fst snd].
    assert (∀ (a b : list (string * V)),
              map_get k (a ++ b)
              = match map_get k a with Some v => Some v | None => map_get k b end)
      as Happ.
    { intros a b. induction a as [|[k0 v0] a IHa]; simpl; [done|].
      by case_bool_decide. }
    rewrite Happ, map_get_obj_set. simpl.
    destruct (map_get k (rev over)); [done|]. by case_bool_decide.
Qed.

Lemma spread_keys {V} (over base : list (string * V)) :
  NoDup (map fst base) → NoDup (map fst (spread base over)).
Proof.
  unfold spread. revert base. induction over as [|[k' v'] over IH]; intros base Hnd.
  - done.
  - cbn [fold_left]. apply IH. by apply obj_set_keys.
Qed.

Lemma map_get_not_in {V} (k : string) (o : list (string * V)) :
  k ∉ map fst o → map_get k o = None.
Proof.
  induction o as [|[k0 v0] o IH]; simpl; [done|].
  intros Hk. apply not_elem_of_cons in Hk as [Hne Hk].
  rewrite bool_decide_eq_false_2 by done. by apply IH.
Qed.

Lemma map_get_non_null {V} (k : string) (o : list (string * option V)) :
  NoDup (map fst o) →
  map_get k (omap (λ kv, match kv.2 with Some v => Some (kv.1, v) | None => None end) o)
  = map_get k o ≫= id.
Proof.
  induction o as [|[k0 [v0|]] o IH]; simpl; intros Hnd; [done| |].
  - apply NoDup_cons in Hnd as [_ Hnd]. case_bool_decide; [done|]. by apply IH.
  - apply NoDup_cons in Hnd as [Hk0 Hnd]. specialize (IH Hnd).
    case_bool_decide as Hk; [|exact IH]. subst k0.
    etrans; [exact IH|]. by rewrite map_get_not_in.
Qed.

Lemma map_get_defaults k :
  map_get k (map (λ kv : string * list string, (kv.1, Some kv.2)) defaultInterpreters)
  = Some <$> map_get k defaultInterpreters.
Proof.
  induction defaultInterpreters as [|[k0 v0] o IH]; simpl; [done|].
  by case_bool_decide.
Qed.

(** X1. The table a resolver is constructed with: an extension the
    configuration sets to an interpreter has that interpreter, one it sets to
    [null] has none, also when it is a default one, and every other
    extension has its default; when the configuration names an extension
    twice, the later entry counts. *)
Theorem new_interpreters_lookup (interpreters : list (string * option (list string)))
    (ext : string) :
  map_get ext (new_interpreters interpreters)
  = match map_get ext (rev interpreters) with
    | Some (Some interpreter) => Some interpreter
    | Some None => None
    | None => map_get ext defaultInterpreters
    end.
Proof.
  unfold new_interpreters. rewrite map_get_non_null.
  - rewrite map_get_spread, map_get_defaults.
    destruct (map_get ext (rev interpreters)) as [[v|]|]; [done..|].
    by destruct (map_get ext defaultInterpreters).
  - apply spread_keys. rewrite map_map. cbn [fst].
    apply (bool_decide_unpack _). by vm_compute.
Qed.

End InterpreterFacts.

(** ** What [find] returns *)

(** The loader is one for [target] under [the_root]. *)
Definition loader_for (the_root target : string) (useStale' : bool) (l : Loader) : Prop :=
  root (options l) = the_root ∧ targetPath (options l) = target
  ∧ useStale (options l) = useStale'.

Definition is_command (l : Loader) : bool :=
  match l with CommandLoader _ _ _ => true | _ => false end.

Section FindFacts.
Import Str Path Fs StrFacts PathFacts.

Variable the_root : string.
Variable interpreters : list (string * list string).
Variable fs : gmap string node.

Lemma findExact_loop_skip before rest target useStale' :
  Forall (λ e : string * list string,
            existsSync fs (join [the_root; target +:+ e.1]) = false) before →
  findExact_loop the_root fs (before ++ rest) target useStale'
  = findExact_loop the_root fs rest target useStale'.
Proof.
  induction 1 as [|[e i] before He _ IH]; [done|].
  simpl in *. by rewrite He.
Qed.

Lemma findExact_loop_some entries target useStale' l :
  findExact_loop the_root fs entries target useStale' = Some (Some l) →
  loader_for the_root target useStale' l ∧ is_command l = true
  ∧ existsSync fs (path (options l)) = true
  ∧ extname target ≠ "".
Proof.
  induction entries as [|[ext interpreter] rest IH]; simpl; [done|].
  destruct (existsSync fs (join [the_root; target +:+ ext])) eqn:Hex; simpl; [|done].
  case_bool_decide as Hext; [done|].
  destruct (exact_command interpreter _) as [command args].
  intros [= <-]. done.
Qed.

Lemma scan_files_some parent files target useStale' l :
  scan_files the_root interpreters parent files target useStale' = Some l →
  loader_for the_root target useStale' l ∧ is_command l = true
  ∧ ∃ file, file ∈ files ∧ is_Some (Param.exec file)
            ∧ path (options l) = join [the_root; parent; file].
Proof.
  induction files as [|file rest IH]; simpl; [done|].
  assert (scan_files the_root interpreters parent rest target useStale' = Some l →
          loader_for the_root target useStale' l ∧ is_command l = true
          ∧ ∃ file0, file0 ∈ file :: rest ∧ is_Some (Param.exec file0)
                     ∧ path (options l) = join [the_root; parent; file0]) as Hrest.
  { intros (H1 & H2 & file0 & H3 & H4)%IH. split; [done|]. split; [done|].
    exists file0. split; [by right|done]. }
  destruct (Param.exec file) as [[name group]|] eqn:Hfile; [|done].
  destruct (group ≫= _) as [interpreter|]; [|done].
  destruct (param_command interpreter _ name target) as [command args].
  intros [= <-]. split; [done|]. split; [done|].
  exists file. split; [by left|]. split; [by rewrite Hfile|done].
Qed.

Lemma find_archive_some exts dir target useStale' l :
  find_archive the_root interpreters fs exts dir target useStale' = Ok (Some l) →
  loader_for the_root target useStale' l ∧ is_command l = false
  ∧ ∃ ext cls inflatePath o preload,
      (ext, cls) ∈ exts ∧ l = new_Extractor cls o preload inflatePath
      ∧ ((preload = PreloadStatic (dir +:+ ext)
          ∧ path o = join [the_root; dir +:+ ext]
          ∧ existsSync fs (join [the_root; dir +:+ ext]) = true)
         ∨ ∃ archiveLoader,
             preload = PreloadLoader archiveLoader
             ∧ path o = path (options archiveLoader)
             ∧ findExact the_root interpreters fs (dir +:+ ext) useStale'
               = Ok (Some archiveLoader)).
Proof.
  induction exts as [|[e cls] rest IH]; cbn [find_archive]; [intros [=]|].
  assert (∀ o pre ip, loader_for the_root target useStale' (new_Extractor cls o pre ip)
                      ↔ loader_for the_root target useStale'
                          (CommandLoader o "" [])) as Hfor.
  { intros o pre ip. by destruct cls. }
  assert (∀ o pre ip, is_command (new_Extractor cls o pre ip) = false) as Hcmd.
  { intros o pre ip. by destruct cls. }
  destruct (existsSync fs (join [the_root; dir +:+ e])) eqn:Hstatic.
  { intros [= <-]. split; [by apply Hfor|]. split; [apply Hcmd|].
    eexists e, cls, _, _, _. split; [by left|]. split; [done|]. by left. }
  destruct (findExact _ _ _ _ _) as [[al|]|] eqn:Hal; [| |intros [=]].
  - intros [= <-]. split; [by apply Hfor|]. split; [apply Hcmd|].
    eexists e, cls, _, _, _. split; [by left|]. split; [done|].
    right. by exists al.
  - intros (H1 & H2 & e' & cls' & ip & o & pre & Hin & H3)%IH.
    split; [done|]. split; [done|].
    exists e', cls', ip, o, pre. split; [by right|done].
Qed.

(** X2. A target without extension gets no loader from [findExact] as
    soon as the file of some registered interpreter exists for it: the path
    is reported as invalid and the function returns at once, whatever
    parameterized file lies in the directory; so [find] never answers with a
    command loader for it. *)
Theorem findExact_no_extension (target : string) (useStale' : bool)
    (ext : string) (interpreter : list string) :
  extname target = "" →
  (ext, interpreter) ∈ interpreters →
  existsSync fs (join [the_root; target +:+ ext]) = true →
  findExact the_root interpreters fs target useStale' = Ok None
  ∧ ∀ l, find the_root interpreters fs target useStale' = Some (Ok (Some l)) →
         is_command l = false.
Proof.
  intros Hext Hin Hex.
  assert (findExact_loop the_root fs interpreters target useStale' = Some None)
    as Hloop.
  { induction interpreters as [|[e i] rest IH]; [by apply elem_of_nil in Hin|].
    simpl. destruct (existsSync fs (join [the_root; target +:+ e])) eqn:He; simpl.
    - by rewrite bool_decide_eq_true_2.
    - apply IH. apply elem_of_cons in Hin as [[= <- <-]|Hin]; [congruence|done]. }
  assert (findExact the_root interpreters fs target useStale' = Ok None) as Hexact.
  { unfold findExact. by rewrite Hloop. }
  split; [done|]. intros l. unfold find, find_fuel. rewrite Hexact.
  destruct (find_walk _ _ _ _) as [[|dir]|]; [intros [=]| |intros [=]].
  intros Harch. apply (inj Some) in Harch.
  by destruct (find_archive_some _ _ _ _ _ Harch) as (_ & ? & _).
Qed.

(** X3. Exact matching goes through the interpreters in the order of
    the table: the first extension for which [targetPath + ext] exists under
    the root decides, and for a target with an extension [find] returns the
    command loader of that file (the interpreter's command followed by its
    arguments and the script path, or the script itself when the interpreter
    is empty), without looking at parameterized files or archives. *)
Theorem find_exact_first (target : string) (useStale' : bool)
    (before after : list (string * list string)) (ext : string)
    (interpreter : list string) :
  interpreters = before ++ (ext, interpreter) :: after →
  Forall (λ e : string * list string,
            existsSync fs (join [the_root; target +:+ e.1]) = false) before →
  existsSync fs (join [the_root; target +:+ ext]) = true →
  extname target ≠ "" →
  let script := join [the_root; target +:+ ext] in
  find the_root interpreters fs target useStale'
  = Some (Ok (Some (CommandLoader
                      {| root := the_root; path := script;
                         targetPath := target; useStale := useStale' |}
                      (match interpreter with [] => script | command :: _ => command end)
                      (match interpreter with [] => [] | _ :: args => args ++ [script] end)))).
Proof.
  intros Hint Hbefore Hex Hext script.
  unfold find, find_fuel, findExact. rewrite Hint, findExact_loop_skip by done.
  simpl. rewrite Hex. simpl. rewrite bool_decide_eq_false_2 by done.
  by destruct interpreter.
Qed.

End FindFacts.

Definition fs_reports : gmap string node :=
  list_to_map [("docs", Dir 1); ("docs/data", Dir 1);
               ("docs/data/report.py", File "print(1)" 2);
               ("docs/data/report.csv.sh", File "echo 1" 3);
               ("docs/data/report.csv.py", File "print(2)" 4);
               ("docs/data/[id].py", File "print(3)" 5)].

Lemma findExact_no_extension_witness :
  findExact "docs" defaultInterpreters fs_reports "data/report" false = Ok None
  ∧ find "docs" defaultInterpreters fs_reports "data/report" false = Some (Ok None).
Proof.
  split.
  - apply (findExact_no_extension "docs" defaultInterpreters fs_reports
             "data/report" false ".py" ["python3"]).
    + reflexivity.
    + apply (bool_decide_unpack _). by vm_compute.
    + reflexivity.
  - reflexivity.
Defined.

Lemma find_exact_first_witness :
  find "docs" defaultInterpreters fs_reports "data/report.csv" true
  = Some (Ok (Some (CommandLoader
                      {| root := "docs"; path := "docs/data/report.csv.py";
                         targetPath := "data/report.csv"; useStale := true |}
                      "python3" ["docs/data/report.csv.py"]))).
Proof.
  apply (find_exact_first "docs" defaultInterpreters fs_reports "data/report.csv" true
           [(".js", ["node"; "--no-warnings=ExperimentalWarning"]); (".ts", ["tsx"])]
           [(".r", ["Rscript"]); (".R", ["Rscript"]); (".rs", ["rust-script"]);
            (".go", ["go"; "run"]); (".java", ["java"]); (".jl", ["julia"]);
            (".php", ["php"]); (".sh", ["sh"]); (".exe", [])]
           ".py" ["python3"]).
  - reflexivity.
  - repeat constructor.
  - reflexivity.
  - vm_compute. discriminate.
Defined.

(** ** The paths of the loaders [find] returns *)

(** The file system knows a file of the working directory listed as
    [./file] also as [file]: the two names are one path to [join].  Nothing
    is asked of the other keys; a directory may be there with its trailing
    slash too ([docs/] beside [docs]), which is how [join(root, "/")] finds
    it. *)
Definition dot_alias (fs : gmap string node) : Prop :=
  ∀ file, file ≠ "" → is_Some (fs !! ("./" +:+ file)) → is_Some (fs !! file).

Section SourcePathFacts.
Import Str Path Fs StrFacts PathFacts.

Lemma dirname_nonempty p : dirname p ≠ "".
Proof.
  unfold dirname. destruct p as [|c0 s]; [done|].
  destruct (skip_while _ _) as [|x [|y rest]].
  - by destruct (is_slash c0).
  - by destruct (is_slash c0).
  - destruct (is_slash c0 && _); [done|].
    intros H. apply (f_equal chars) in H. rewrite chars_of_chars in H.
    cbn [rev] in H. simpl in H. by destruct (rev rest ++ [y])%list eqn:E; [destruct (rev rest)|].
Qed.

Lemma strip_prefix_Some p s r : strip_prefix p s = Some r → s = p +:+ r.
Proof.
  revert s. induction p as [|a p IH]; intros s; simpl.
  - by intros [= ->].
  - destruct s as [|b s]; [done|].
    destruct (Ascii.eqb a b) eqn:Hab; [|done].
    apply Ascii.eqb_eq in Hab as ->. intros ->%IH. done.
Qed.

Lemma existsb_slash_free n : existsb is_slash (chars n) = false → slash_free n.
Proof.
  unfold slash_free. induction (chars n) as [|c l IH]; simpl; [constructor|].
  intros [Hc Hl]%orb_false_iff. constructor; [done|by apply IH].
Qed.

Lemma child_name_key d key file :
  child_name d key = Some file →
  clean file
  ∧ (if bool_decide (d = ".") then key = file
     else key = (if ends_with_slash d then d else d +:+ "/") +:+ file).
Proof.
  unfold child_name.
  set (rest := if bool_decide (d = ".") then Some key else _).
  destruct rest as [n|] eqn:Hrest; [|done].
  destruct (bool_decide (n = "")) eqn:H1; [done|].
  destruct (bool_decide (n = ".")) eqn:H2; [done|].
  destruct (existsb is_slash (chars n)) eqn:H3; [done|].
  simpl. intros [= <-].
  apply bool_decide_eq_false in H1, H2. apply existsb_slash_free in H3.
  split; [done|]. subst rest.
  case_bool_decide; [congruence|]. by apply strip_prefix_Some.
Qed.

Lemma readdir_child fs d files file :
  readdirSync fs d = Ok files → file ∈ files →
  is_Some (fs !! d)
  ∧ ∃ key, is_Some (fs !! key) ∧ child_name d key = Some file.
Proof.
  unfold readdirSync. destruct (fs !! d) as [[c m|m]|] eqn:Hd; [done| |done].
  intros [= <-] ([key n] & Hin & Hname)%list_elem_of_omap.
  split; [by eexists|]. exists key. split; [|done].
  apply elem_of_map_to_list in Hin. by eexists.
Qed.

Lemma exec_not_dotdot file : is_Some (Param.exec file) → file ≠ "..".
Proof.
  intros [r Hr] ->. by vm_compute in Hr.
Qed.

Lemma concat_not_dot segs : segs ≠ [] → Forall clean segs → concat segs ≠ ".".
Proof.
  intros Hne Hall. destruct segs as [|x [|y rest]]; [done| |].
  - inversion Hall as [|? ? (_ & Hx & _) _]; subst. done.
  - inversion Hall as [|? ? (Hx & _ & _) _]; subst.
    rewrite concat_cons by done. intros H.
    apply (f_equal String.length) in H. rewrite !slength_app in H.
    destruct x; [done|]. simpl in H. lia.
Qed.

(** The path [join] gives for a name in a directory, from the path it
    gives for the directory. *)
Lemma normalize_child X file :
  X ≠ "" → clean file → file ≠ ".." →
  ∃ abs t st,
    Forall clean st
    ∧ normalize X = render abs t st
    ∧ normalize (X +:+ "/" +:+ file) = render abs false (file :: st).
Proof.
  intros HX (Hf1 & Hf2 & Hf3) Hf4.
  exists (has_root X), (ends_with_slash X), (stack (negb (has_root X)) X []).
  split; [by apply stack_clean|]. split; [by apply normalize_render|].
  rewrite normalize_render by (by apply app_nonempty_r, app_nonempty_r).
  rewrite has_root_app by done.
  rewrite ends_with_slash_under by done.
  rewrite ends_with_slash_free by done.
  rewrite stack_app_slash. unfold stack at 1.
  rewrite split_single by done. cbn [fold_left].
  by rewrite norm_step_push.
Qed.

Lemma child_path fs X file key :
  dot_alias fs →
  X ≠ "" → clean file → file ≠ ".." →
  is_Some (fs !! key) →
  child_name (normalize X) key = Some file →
  is_Some (fs !! normalize (X +:+ "/" +:+ file)).
Proof.
  intros Halias HX Hfile Hdd Hin Hkey.
  destruct (normalize_child X file HX Hfile Hdd) as (abs & t & st & Hst & Hd & ->).
  apply child_name_key in Hkey as [_ Hkey]. rewrite Hd in Hkey.
  assert (Forall clean (file :: st)) as Hst' by (by constructor).
  rewrite (render_cons abs false (file :: st)) by done.
  cbn [rev]. rewrite concat_snoc, sapp_nil_r.
  destruct st as [|top below].
  - rewrite render_nil in Hkey. cbn [rev].
    destruct abs; [vm_compute in Hkey; by subst|].
    destruct t; [|vm_compute in Hkey; by subst].
    apply Halias; [apply Hfile|]. vm_compute in Hkey. by subst.
  - assert (top :: below ≠ []) as Hne by done.
    rewrite (render_cons abs t) in Hkey by done.
    set (body := concat (rev (top :: below))) in *.
    assert (body ≠ "") as Hbody.
    { apply concat_nonempty; [by apply rev_nonempty|by apply Forall_rev]. }
    assert (ends_with_slash body = false) as Hbs.
    { pose proof (ends_with_slash_render false (top :: below) Hst) as H.
      rewrite render_cons in H by done. by rewrite sapp_nil_l, sapp_nil_r in H. }
    assert (key = (if abs then "/" else "") +:+ body +:+ "/" +:+ file) as ->.
    { destruct t.
      - assert ((if abs then "/" else "") +:+ body +:+ "/" ≠ ".") as Hnd.
        { intros H. apply (f_equal String.length) in H. rewrite !slength_app in H.
          destruct body; [done|]. destruct abs; simpl in H; lia. }
        rewrite bool_decide_eq_false_2 in Hkey by done.
        rewrite ends_with_slash_app in Hkey by (by apply app_nonempty_r).
        rewrite ends_with_slash_app in Hkey by done.
        cbn in Hkey. rewrite Hkey. by rewrite !sapp_assoc.
      - rewrite sapp_nil_r in Hkey.
        assert ((if abs then "/" else "") +:+ body ≠ ".") as Hnd.
        { destruct abs; [done|]. rewrite sapp_nil_l.
          apply concat_not_dot; [by apply rev_nonempty|by apply Forall_rev]. }
        rewrite bool_decide_eq_false_2 in Hkey by done.
        rewrite ends_with_slash_app, Hbs in Hkey by done.
        rewrite Hkey. by rewrite !sapp_assoc. }
    destruct (rev (top :: below)) eqn:Hrev.
    { by apply rev_nonempty in Hrev. }
    rewrite ?sapp_assoc in Hin. by rewrite ?sapp_assoc.
Qed.

Variable the_root : string.
Variable interpreters : list (string * list string).
Variable fs : gmap string node.

Lemma join_child parent file :
  parent ≠ "" → file ≠ "" →
  ∃ X, X ≠ "" ∧ join [the_root; parent] = normalize X
       ∧ join [the_root; parent; file] = normalize (X +:+ "/" +:+ file).
Proof.
  intros Hp Hf. unfold join.
  destruct (decide (the_root = "")) as [->|Hr].
  - exists parent. split; [done|]. split.
    + rewrite filter_cons_False by (intros H; by apply H).
      rewrite !filter_cons_True by done. rewrite filter_nil. cbv beta iota.
      cbn [concat]. by destruct parent.
    + rewrite filter_cons_False by (intros H; by apply H).
      rewrite !filter_cons_True by done. rewrite filter_nil. cbv beta iota.
      by rewrite concat_cons.
  - exists (the_root +:+ "/" +:+ parent).
    split; [by apply app_nonempty_r, app_nonempty_r|]. split.
    + rewrite !filter_cons_True by done. rewrite filter_nil. cbv beta iota.
      by rewrite concat_cons.
    + rewrite !filter_cons_True by done. rewrite filter_nil. cbv beta iota.
      rewrite !concat_cons by done. cbn [concat]. by rewrite !sapp_assoc.
Qed.

Lemma param_path_exists parent files file :
  dot_alias fs → parent ≠ "" →
  readdirSync fs (join [the_root; parent]) = Ok files →
  file ∈ files → is_Some (Param.exec file) →
  existsSync fs (join [the_root; parent; file]) = true.
Proof.
  intros Halias Hp Hdir Hin Hexec.
  destruct (readdir_child _ _ _ _ Hdir Hin) as (Hd & key & Hkey & Hname).
  pose proof (child_name_key _ _ _ Hname) as [Hclean _].
  destruct (join_child parent file Hp (proj1 Hclean)) as (X & HX & Hj2 & Hj3).
  rewrite Hj3. rewrite Hj2 in Hname.
  apply bool_decide_eq_true.
  apply (child_path fs X file key); try done.
  by apply exec_not_dotdot.
Qed.

Lemma findExact_for target useStale' l :
  findExact the_root interpreters fs target useStale' = Ok (Some l) →
  loader_for the_root target useStale' l ∧ is_command l = true.
Proof.
  unfold findExact.
  destruct (findExact_loop _ _ _ _ _) as [r|] eqn:Hloop.
  - intros [= ->]. by destruct (findExact_loop_some _ _ _ _ _ _ Hloop) as (? & ? & _).
  - unfold findParameterized.
    destruct (readdirSync fs _) as [files|e] eqn:Hdir.
    + intros [= Hscan].
      by destruct (scan_files_some _ _ _ _ _ _ _ Hscan) as (H1 & H2 & _).
    + by destruct (negb (isEnoent e)).
Qed.

Lemma findExact_exists target useStale' l :
  dot_alias fs →
  findExact the_root interpreters fs target useStale' = Ok (Some l) →
  existsSync fs (path (options l)) = true.
Proof.
  intros Halias. unfold findExact.
  destruct (findExact_loop _ _ _ _ _) as [r|] eqn:Hloop.
  - intros [= ->]. by destruct (findExact_loop_some _ _ _ _ _ _ Hloop) as (? & ? & ? & _).
  - unfold findParameterized.
    destruct (readdirSync fs _) as [files|e] eqn:Hdir.
    + intros [= Hscan].
      destruct (scan_files_some _ _ _ _ _ _ _ Hscan)
        as (H1 & H2 & file & Hin & Hexec & ->).
      eapply param_path_exists; try done. apply dirname_nonempty.
    + by destruct (negb (isEnoent e)).
Qed.

(** What [find] returns is an exact or parameterized command loader, or
    an extractor over a static archive or over a command loader. *)
Lemma find_cases target useStale' l :
  find the_root interpreters fs target useStale' = Some (Ok (Some l)) →
  findExact the_root interpreters fs target useStale' = Ok (Some l)
  ∨ (loader_for the_root target useStale' l ∧ is_command l = false
     ∧ ∃ dir ext cls inflatePath o preload,
         (ext, cls) ∈ extractors ∧ l = new_Extractor cls o preload inflatePath
         ∧ ((preload = PreloadStatic (dir +:+ ext)
             ∧ path o = join [the_root; dir +:+ ext]
             ∧ existsSync fs (join [the_root; dir +:+ ext]) = true)
            ∨ ∃ archiveLoader,
                preload = PreloadLoader archiveLoader
                ∧ path o = path (options archiveLoader)
                ∧ findExact the_root interpreters fs (dir +:+ ext) useStale'
                  = Ok (Some archiveLoader))).
Proof.
  unfold find, find_fuel.
  destruct (findExact _ _ _ target _) as [[exact|]|e] eqn:Hexact; [| |intros [=]].
  - intros [= <-]. by left.
  - destruct (find_walk _ _ _ _) as [[|dir]|]; [intros [=]| |intros [=]].
    intros Harch. apply (inj Some) in Harch. right.
    destruct (find_archive_some _ _ _ _ _ _ _ _ Harch) as (Hfor & Hcmd & H).
    split; [done|]. split; [done|]. by exists dir.
Qed.

Lemma find_for target useStale' l :
  find the_root interpreters fs target useStale' = Some (Ok (Some l)) →
  loader_for the_root target useStale' l.
Proof.
  intros [Hexact|(Hfor & _)]%find_cases; [|done].
  by destruct (findExact_for _ _ _ Hexact).
Qed.

Lemma find_exists target useStale' l :
  dot_alias fs →
  find the_root interpreters fs target useStale' = Some (Ok (Some l)) →
  existsSync fs (path (options l)) = true.
Proof.
  intros Halias [Hexact|(_ & _ & Harch)]%find_cases.
  - by eapply findExact_exists.
  - destruct Harch as (dir & ext & cls & ip & o & pre & _ & -> & Hpre).
    assert (options (new_Extractor cls o pre ip) = o) as -> by (by destruct cls).
    destruct Hpre as [(_ & -> & Hex)|(al & _ & -> & Hal)]; [done|].
    by eapply findExact_exists.
Qed.

(** X4. Whatever way [find] comes to a loader (exact match,
    parameterized file, static archive, archive produced by a loader), the
    loader is one for the target asked for: its root is the resolver's, its
    target path and stale flag are the ones given, hence its registry key is
    the target joined to the root; and the loader of an archive, when there
    is one, is a command loader of the same root and stale flag. *)
Theorem find_loader_for (target : string) (useStale' : bool) (l : Loader) :
  find the_root interpreters fs target useStale' = Some (Ok (Some l)) →
  root (options l) = the_root
  ∧ targetPath (options l) = target
  ∧ useStale (options l) = useStale'
  ∧ key l = join [the_root; target]
  ∧ ∀ archiveLoader,
      preload_of l = Some (PreloadLoader archiveLoader) →
      is_command archiveLoader = true
      ∧ root (options archiveLoader) = the_root
      ∧ useStale (options archiveLoader) = useStale'
      ∧ path (options archiveLoader) = path (options l).
Proof.
  intros Hfind. destruct (find_for _ _ _ Hfind) as (Hroot & Htarget & Hstale).
  split; [done|]. split; [done|]. split; [done|].
  split; [unfold key; by rewrite Hroot, Htarget|].
  intros al Hpre. apply find_cases in Hfind as [Hexact|(_ & _ & Harch)].
  - destruct (findExact_for _ _ _ Hexact) as [_ Hcmd]. by destruct l.
  - destruct Harch as (dir & ext & cls & ip & o & pre & _ & -> & Hcase).
    assert (pre = PreloadLoader al) as -> by (destruct cls; by simplify_eq/=).
    assert (options (new_Extractor cls o (PreloadLoader al) ip) = o) as ->
      by (by destruct cls).
    destruct Hcase as [(? & _)|(al' & [= <-] & Hpath & Hal)]; [done|].
    destruct (findExact_for _ _ _ Hal) as ((H1 & _ & H3) & Hcmd). done.
Qed.

(** X5. [getOutputFilePath] answers with the name itself for a file
    that exists under the root, and also when no loader generates it; for a
    name that a loader generates it answers with the very output path a
    [load] of that loader resolves to, which joined to the root is the cache
    path the load writes. *)
Theorem getOutputFilePath_cache (name : string) :
  (existsSync fs (join [the_root; name]) = true →
     getOutputFilePath the_root interpreters fs name = Some (Ok name))
  ∧ (existsSync fs (join [the_root; name]) = false →
     (find the_root interpreters fs name false = Some (Ok None) →
        getOutputFilePath the_root interpreters fs name = Some (Ok name))
     ∧ ∀ l, find the_root interpreters fs name false = Some (Ok (Some l)) →
            getOutputFilePath the_root interpreters fs name = Some (Ok (outputPath l))
            ∧ join [the_root; outputPath l] = cachePath l).
Proof.
  unfold getOutputFilePath. split.
  - by intros ->.
  - intros ->. simpl. split; [by intros ->|].
    intros l Hfind. rewrite Hfind.
    destruct (find_for _ _ _ Hfind) as (Hroot & Htarget & _).
    unfold cachePath, outputPath. by rewrite Hroot, Htarget.
Qed.

(** X6. The source path of every loader [find] returns exists: the
    script of an exact match, the parameterized file found in the directory
    listing, the static archive, or the script of the loader that produces
    the archive.  The one thing asked of the file system is that a file it
    lists as [./file] is also there as [file]; directories may be present
    under their trailing-slash name, as they are for a target with a leading
    slash. *)
Theorem find_source_exists (target : string) (useStale' : bool) (l : Loader) :
  dot_alias fs →
  find the_root interpreters fs target useStale' = Some (Ok (Some l)) →
  existsSync fs (path (options l)) = true.
Proof.
  intros Halias [Hexact|(_ & _ & Harch)]%find_cases.
  - by eapply findExact_exists.
  - destruct Harch as (dir & ext & cls & ip & o & pre & _ & -> & Hpre).
    assert (options (new_Extractor cls o pre ip) = o) as -> by (by destruct cls).
    destruct Hpre as [(_ & -> & Hex)|(al & _ & -> & Hal)]; [done|].
    by eapply findExact_exists.
Qed.

(** X7. In a file system where a file listed as [./file] is also
    there as [file], [getWatchPath] only ever names a file that exists: the
    path itself when it exists under the root, and then no loader is looked
    for; otherwise the [.jsx] file beside a missing [.js] one; otherwise the
    source of the loader [find] returns, and nothing when there is none. *)
Theorem getWatchPath_exists (path' : string) :
  dot_alias fs →
  (existsSync fs (join [the_root; path']) = true →
     getWatchPath the_root interpreters fs path' = Some (Ok (Some (join [the_root; path']))))
  ∧ (∀ watched,
       getWatchPath the_root interpreters fs path' = Some (Ok (Some watched)) →
       existsSync fs watched = true)
  ∧ (existsSync fs (join [the_root; path']) = false →
     existsSync fs (join [the_root; path'] +:+ "x") = false →
     find the_root interpreters fs path' false = Some (Ok None) →
     getWatchPath the_root interpreters fs path' = Some (Ok None)).
Proof.
  intros Halias. unfold getWatchPath. split; [by intros ->|]. split.
  - intros watched.
    destruct (existsSync fs (join [the_root; path'])) eqn:Hex.
    { by intros [= <-]. }
    destruct (ends_with ".js" _ && existsSync fs _) eqn:Hjsx.
    { intros [= <-]. by apply andb_true_iff in Hjsx as [_ ?]. }
    destruct (find _ _ _ _ _) as [[[l|]|e]|] eqn:Hfind; try (by intros [=]).
    intros [= <-]. by eapply find_exists.
  - intros -> -> ->. by rewrite andb_false_r.
Qed.

Lemma dot_alias_check (fs' : gmap string node) :
  forallb (λ kv : string * node,
             negb (starts_with "./" kv.1) || bool_decide (kv.1 = "./")
             || existsSync fs' (drop 2 kv.1))
    (map_to_list fs') = true →
  dot_alias fs'.
Proof.
  intros Hall file Hfile [n Hk].
  rewrite forallb_forall in Hall.
  specialize (Hall ("./" +:+ file, n)).
  assert (bool_decide ("./" +:+ file = "./") = false) as Hne.
  { apply bool_decide_eq_false_2. intros [= H]. done. }
  cbn [fst] in Hall. rewrite Hne in Hall.
  eapply bool_decide_eq_true_1, Hall.
  apply list_elem_of_In. by apply elem_of_map_to_list.
Qed.

End SourcePathFacts.

Lemma find_loader_for_witness :
  let l := ZipExtractor
             {| root := "docs"; path := "docs/data.zip.py";
                targetPath := "data/x.csv"; useStale := true |}
             (PreloadLoader
                (CommandLoader
                   {| root := "docs"; path := "docs/data.zip.py";
                      targetPath := "data.zip"; useStale := true |}
                   "python3" ["docs/data.zip.py"]))
             "x.csv" in
  key l = "docs/data/x.csv".
Proof.
  intros l.
  destruct (find_loader_for "docs" defaultInterpreters fs_archive "data/x.csv" true l
              eq_refl) as (_ & _ & _ & Hkey & _).
  exact Hkey.
Defined.

Lemma getOutputFilePath_cache_witness :
  getOutputFilePath "docs" defaultInterpreters (fs_items 5) "data/items.csv.py"
  = Some (Ok "data/items.csv.py")
  ∧ getOutputFilePath "docs" defaultInterpreters (fs_items 5) "data/items.csv"
    = Some (Ok ".observablehq/cache/data/items.csv")
  ∧ getOutputFilePath "docs" defaultInterpreters (fs_items 5) "data/other.csv"
    = Some (Ok "data/other.csv").
Proof.
  split; [|split].
  - destruct (getOutputFilePath_cache "docs" defaultInterpreters (fs_items 5)
                "data/items.csv.py") as [H _].
    by apply H.
  - destruct (getOutputFilePath_cache "docs" defaultInterpreters (fs_items 5)
                "data/items.csv") as [_ H].
    destruct (H eq_refl) as [_ Hl].
    by destruct (Hl (items_loader false) eq_refl) as [-> _].
  - destruct (getOutputFilePath_cache "docs" defaultInterpreters (fs_items 5)
                "data/other.csv") as [_ H].
    destruct (H eq_refl) as [Hnone _]. by apply Hnone.
Defined.

(** A root directory that is also there under the name [join(root, "/")]
    gives it, with a parameterized loader at the top, and the working
    directory under the name [join(".", "/")] gives it, its file known both
    ways. *)
Definition fs_top : gmap string node :=
  list_to_map [("docs", Dir 1); ("docs/", Dir 1);
               ("docs/[id].js", File "console.log(1)" 2);
               ("./", Dir 1); ("./[n].js", File "console.log(2)" 3);
               ("[n].js", File "console.log(2)" 3)].

Lemma find_source_exists_witness :
  Fs.existsSync fs_top "docs/[id].js" = true
  ∧ Fs.existsSync fs_top "[n].js" = true.
Proof.
  split.
  - apply (find_source_exists "docs" defaultInterpreters fs_top "/42.json" false
             (CommandLoader
                {| root := "docs"; path := "docs/[id].js";
                   targetPath := "/42.json"; useStale := false |}
                "node" ["--no-warnings=ExperimentalWarning"; "docs/[id].js";
                        "--id"; "42.json"])).
    + apply dot_alias_check. by vm_compute.
    + by vm_compute.
  - apply (find_source_exists "." defaultInterpreters fs_top "/7.json" false
             (CommandLoader
                {| root := "."; path := "[n].js";
                   targetPath := "/7.json"; useStale := false |}
                "node" ["--no-warnings=ExperimentalWarning"; "[n].js";
                        "--n"; "7.json"])).
    + apply dot_alias_check. by vm_compute.
    + by vm_compute.
Defined.

Lemma getWatchPath_exists_witness :
  getWatchPath "docs" defaultInterpreters fs_top "/[id].js"
  = Some (Ok (Some "docs/[id].js"))
  ∧ Fs.existsSync fs_top "docs/[id].js" = true.
Proof.
  assert (dot_alias fs_top) as Halias by (apply dot_alias_check; by vm_compute).
  destruct (getWatchPath_exists "docs" defaultInterpreters fs_top "/[id].js" Halias)
    as (Hsame & _).
  destruct (getWatchPath_exists "docs" defaultInterpreters fs_top "/42.json" Halias)
    as (_ & Hwatched & _).
  split; [by apply Hsame|]. by apply Hwatched.
Defined.

(** ** From the loader's path back to a name under the root *)

(** A path below the root as the resolver builds them: no segment
    [".."], no trailing slash, and a name in it. *)
Definition plain (x : string) : Prop :=
  Forall (λ seg, seg ≠ "..") (Str.split x)
  ∧ Str.ends_with_slash x = false
  ∧ ∃ seg, seg ∈ Str.split x ∧ seg ≠ "" ∧ seg ≠ ".".

(** The segments [normalizeString] keeps of a path without [".."]. *)
Definition kept (x : string) : list string :=
  filter (λ seg, seg ≠ "" ∧ seg ≠ ".") (Str.split x).

Section RelativeFacts.
Import Str Path Fs StrFacts PathFacts.

Lemma fold_push f segs stk :
  Forall (λ seg, clean seg ∧ seg ≠ "..") segs →
  fold_left (norm_step f) segs stk = rev segs ++ stk.
Proof.
  intros Hsegs. revert stk. induction Hsegs as [|seg segs [(H1 & H2 & _) H3] _ IH];
    intros stk; [done|].
  cbn [fold_left rev]. rewrite norm_step_push by done. rewrite IH.
  by rewrite <- List.app_assoc.
Qed.

Lemma kept_clean x :
  Forall (λ seg, seg ≠ "..") (split x) →
  Forall (λ seg, clean seg ∧ seg ≠ "..") (kept x).
Proof.
  intros Hdd. unfold kept. apply Forall_forall.
  intros seg [[H1 H2] Hin]%list_elem_of_filter.
  rewrite Forall_forall in Hdd.
  pose proof (split_slash_free x) as Hfree. rewrite Forall_forall in Hfree.
  split; [|by apply Hdd]. split; [done|]. split; [done|]. by apply Hfree.
Qed.

Lemma stack_plain f x stk :
  Forall (λ seg, seg ≠ "..") (split x) →
  stack f x stk = rev (kept x) ++ stk.
Proof.
  unfold stack, kept. generalize (split x). intros segs Hdd. revert stk.
  induction Hdd as [|seg segs Hseg _ IH]; intros stk; [done|].
  cbn [fold_left].
  destruct (decide (seg ≠ "" ∧ seg ≠ ".")) as [[H1 H2]|Hskip].
  - rewrite filter_cons_True by done. rewrite norm_step_push by done.
    rewrite IH. cbn [rev]. by rewrite <- List.app_assoc.
  - rewrite filter_cons_False by done. rewrite norm_step_skip; [apply IH|].
    destruct (decide (seg = "")); [by left|]. right.
    destruct (decide (seg = ".")); [done|]. by destruct Hskip.
Qed.

Lemma strip_common_prefix r y : strip_common r (r ++ y) = ([], y).
Proof.
  induction r as [|a r IH]; simpl; [by destruct y|].
  by rewrite bool_decide_eq_true_2.
Qed.

Lemma stack_root f y stk : stack f ("/" +:+ y) stk = stack f y stk.
Proof. unfold stack. rewrite sapp_cons, sapp_nil_l. simpl. by rewrite norm_step_skip by auto. Qed.

(** The segments of a normalized path, gone through once more. *)
Lemma stack_render_any f abs t st stk :
  Forall clean st →
  stack f (render abs t st) stk = fold_left (norm_step f) (rev st) stk.
Proof.
  intros Hst. destruct abs; [|by apply stack_render].
  destruct st as [|top below].
  - by rewrite render_nil.
  - rewrite render_cons by done.
    rewrite <- (stack_render f t (top :: below) stk Hst).
    rewrite render_cons by done. rewrite sapp_nil_l. apply stack_root.
Qed.

Lemma has_root_render_any abs t st :
  Forall clean st → has_root (render abs t st) = abs.
Proof.
  intros Hst. destruct abs; [|by apply has_root_render].
  destruct st as [|top below]; [by rewrite render_nil|].
  by rewrite render_cons.
Qed.

(** The stack without [".."] that resolving a path leaves, replayed. *)
Lemma replay_resolved segs stk0 :
  Forall slash_free segs → Forall (λ seg, clean seg ∧ seg ≠ "..") stk0 →
  Forall (λ seg, clean seg ∧ seg ≠ "..") (fold_left (norm_step false) segs stk0).
Proof.
  intros Hsegs. revert stk0. induction Hsegs as [|seg segs Hseg _ IH]; intros stk0 H0;
    [done|].
  cbn [fold_left]. apply IH. unfold norm_step.
  repeat case_bool_decide; simpl orb; cbv iota; subst; try done.
  - destruct stk0 as [|top below]; [done|].
    inversion H0 as [|? ? [_ Htop] Hbelow]; subst.
    by rewrite bool_decide_eq_false_2.
  - constructor; [|done]. split; [|done]. split; [done|]. split; [done|]. done.
Qed.

(** Resolving [join(root, x)] against the working directory goes down
    from where resolving the root ends. *)
Lemma resolve_under cwd the_root x :
  the_root ≠ "" → x ≠ "" →
  Forall (λ seg, seg ≠ "..") (split x) →
  resolve_segs cwd (normalize (the_root +:+ "/" +:+ x))
  = resolve_segs cwd the_root ++ kept x.
Proof.
  intros Hroot Hx Hdd.
  assert (the_root +:+ "/" +:+ x ≠ "") as Hne by (by apply app_nonempty_r, app_nonempty_r).
  destruct (normalize_as_render _ Hne) as (st & Hst & Hst_eq & ->).
  rewrite has_root_app in * by done.
  unfold resolve_segs. rewrite has_root_render_any by done.
  destruct (has_root the_root) eqn:Habs.
  - unfold norm_segs. fold (stack false the_root []).
    fold (stack false (render true (ends_with_slash (the_root +:+ "/" +:+ x)) st) []).
    rewrite stack_render_any by done.
    simpl negb in Hst_eq.
    assert (Forall (λ seg, clean seg ∧ seg ≠ "..") st) as Hst'.
    { rewrite Hst_eq. apply replay_resolved; [apply split_slash_free|done]. }
    rewrite fold_push by (by apply Forall_rev).
    rewrite rev_involutive, app_nil_r, Hst_eq.
    rewrite stack_app_slash, stack_plain by done.
    by rewrite rev_app_distr, rev_involutive.
  - unfold norm_segs.
    fold (stack false (cwd +:+ "/" +:+ the_root) []).
    fold (stack false (cwd +:+ "/"
                       +:+ render false (ends_with_slash (the_root +:+ "/" +:+ x)) st) []).
    rewrite !stack_app_slash. rewrite stack_render by done.
    simpl negb in Hst_eq. rewrite Hst_eq. unfold stack at 1.
    rewrite replay by apply split_slash_free.
    fold (stack false (the_root +:+ "/" +:+ x) (stack false cwd [])).
    rewrite stack_app_slash, stack_plain by done.
    by rewrite rev_app_distr, rev_involutive.
Qed.

Lemma kept_nonempty x :
  (∃ seg, seg ∈ split x ∧ seg ≠ "" ∧ seg ≠ ".") → kept x ≠ [].
Proof.
  intros (seg & Hin & H1 & H2) Hnil.
  assert (seg ∈ kept x) as Hk by (apply list_elem_of_filter; by split).
  rewrite Hnil in Hk. by apply elem_of_nil in Hk.
Qed.

Lemma join_plain the_root x :
  the_root ≠ "" → plain x →
  join [the_root; x] = join [the_root; concat (kept x)].
Proof.
  intros Hroot (Hdd & Hslash & Hseg).
  pose proof (kept_nonempty x Hseg) as Hk.
  pose proof (kept_clean x Hdd) as Hclean.
  assert (Forall clean (kept x)) as Hclean'.
  { eapply Forall_impl; [exact Hclean|]. by intros ? [? _]. }
  assert (x ≠ "") as Hx.
  { intros ->. destruct Hseg as (seg & Hin & H1 & _).
    apply list_elem_of_singleton in Hin. done. }
  assert (concat (kept x) ≠ "") as Hc by (by apply concat_nonempty).
  rewrite !join_pair by done.
  rewrite !normalize_render by (by apply app_nonempty_r, app_nonempty_r).
  rewrite !has_root_app by done. rewrite !ends_with_slash_under by done.
  rewrite !stack_app_slash.
  rewrite stack_plain by done.
  unfold stack at 2. rewrite split_concat by (done || by apply clean_slash_free).
  rewrite fold_push by done.
  rewrite Hslash. f_equal.
  destruct (kept x) as [|a k] eqn:E using rev_ind; [done|].
  rewrite concat_snoc. apply Forall_app in Hclean' as [_ Hlast].
  inversion Hlast as [|? ? (Ha & _ & Hfree) _]; subst.
  rewrite ends_with_slash_app by done. symmetry. by apply ends_with_slash_free.
Qed.

(** The name [relative] gives for a path built under a non-empty root
    from a plain path, joined to the root again, is that path. *)
Lemma relative_round_trip (cwd the_root x : string) :
  the_root ≠ "" → plain x →
  relative cwd the_root (join [the_root; x]) = concat (kept x)
  ∧ join [the_root; relative cwd the_root (join [the_root; x])]
    = join [the_root; x].
Proof.
  intros Hroot Hplain.
  assert (relative cwd the_root (join [the_root; x]) = concat (kept x)) as Hrel.
  { destruct Hplain as (Hdd & Hslash & Hseg).
    assert (x ≠ "") as Hx.
    { intros ->. destruct Hseg as (seg & Hin & H1 & _).
      apply list_elem_of_singleton in Hin. done. }
    rewrite join_pair by done. unfold relative.
    rewrite resolve_under by done. by rewrite strip_common_prefix. }
  split; [done|]. rewrite Hrel. symmetry. by apply join_plain.
Qed.

Variable cwd : string.
Variable the_root : string.
Variable interpreters : list (string * list string).
Variable fs : gmap string node.

(** X8. [getSourceFilePath] answers with the name itself for a file
    that exists under the root.  For a name a loader generates, the loader's
    path being the root joined with a plain path [x] (no [".."] segment, no
    trailing slash), it answers with the kept segments of [x], whatever the
    working directory, and this answer joined to the non-empty root is the
    loader's path again: the file whose hash and modification time are then
    read is the loader's source. *)
Theorem getSourceFilePath_round_trip (name x : string) (l : Loader) :
  the_root ≠ "" →
  (existsSync fs (join [the_root; name]) = true →
     getSourceFilePath cwd the_root interpreters fs name = Some (Ok name))
  ∧ (existsSync fs (join [the_root; name]) = false →
     find the_root interpreters fs name false = Some (Ok (Some l)) →
     path (options l) = join [the_root; x] → plain x →
     getSourceFilePath cwd the_root interpreters fs name = Some (Ok (concat (kept x)))
     ∧ join [the_root; concat (kept x)] = path (options l)).
Proof.
  intros Hroot. unfold getSourceFilePath. split; [by intros ->|].
  intros -> -> Hpath Hplain. simpl. rewrite Hpath.
  destruct (relative_round_trip cwd the_root x Hroot Hplain) as [Hrel Hjoin].
  rewrite Hrel in *. done.
Qed.

End RelativeFacts.

Lemma getSourceFilePath_round_trip_witness :
  getSourceFilePath "/work" "docs" defaultInterpreters (fs_items 5) "data/items.csv"
  = Some (Ok "data/items.csv.py")
  ∧ Path.join ["docs"; "data/items.csv.py"] = "docs/data/items.csv.py".
Proof.
  assert (plain "data/items.csv.py") as Hplain.
  { unfold plain. change (Str.split "data/items.csv.py") with ["data"; "items.csv.py"].
    split; [by repeat constructor|]. split; [reflexivity|].
    exists "data". split; [by left|]. done. }
  destruct (getSourceFilePath_round_trip "/work" "docs" defaultInterpreters (fs_items 5)
              "data/items.csv" "data/items.csv.py" (items_loader false))
    as [_ Hgen]; [discriminate|].
  destruct (Hgen eq_refl eq_refl eq_refl Hplain) as [Hpath Hjoin].
  split; [exact Hpath|exact Hjoin].
Defined.

(** ** The names of parameterized loaders *)

(** A non-empty run of [\w] characters. *)
Definition word (s : string) : Prop :=
  s ≠ "" ∧ Forall (λ c, Str.is_word c = true) (Str.chars s).

(** The text of the repeated group [(\.\w+)*] for the given words, and
    what the group captures: its last repetition. *)
Definition groups (exts : list string) : string :=
  fold_right (λ e acc, "." +:+ e +:+ acc) "" exts.

Definition last_group (exts : list string) : option string :=
  match exts with
  | [] => None
  | _ => Some ("." +:+ List.last exts "")
  end.

Section PatternFacts.
Import Str StrFacts.

Lemma is_dot_true c : is_dot c = true → c = "."%char.
Proof. apply Ascii.eqb_eq. Qed.

Lemma scan_exts_sound s :
  (∀ g, Param.scan_exts Param.AtBoundary s = Some g →
        ∃ exts, Forall word exts ∧ s = groups exts ∧ g = last_group exts)
  ∧ (∀ g, Param.scan_exts Param.AfterDot s = Some g →
          ∃ e exts, word e ∧ Forall word exts ∧ s = e +:+ groups exts
                    ∧ g = last_group (e :: exts))
  ∧ (∀ cur g, Param.scan_exts (Param.InWord cur) s = Some g →
              ∃ w exts, Forall (λ c, is_word c = true) (chars w)
                        ∧ Forall word exts ∧ s = w +:+ groups exts
                        ∧ g = Some (match exts with
                                    | [] => cur +:+ w
                                    | _ => "." +:+ List.last exts ""
                                    end)).
Proof.
  induction s as [|c s (IH1 & IH2 & IH3)].
  - split; [|split].
    + intros g [= <-]. exists []. split; [apply Forall_nil_2|done].
    + intros g [=].
    + intros cur g [= <-]. exists "", [].
      split; [apply Forall_nil_2|]. split; [apply Forall_nil_2|].
      split; [done|]. by rewrite sapp_nil_r.
  - split; [|split].
    + intros g. simpl. destruct (is_dot c) eqn:Hc; [|done].
      apply is_dot_true in Hc as ->.
      intros (e & exts & He & Hexts & -> & ->)%IH2.
      exists (e :: exts). split; [by constructor|]. done.
    + intros g. simpl. destruct (is_word c) eqn:Hc; [|done].
      intros (w & exts & Hw & Hexts & -> & ->)%IH3.
      exists (String c w), exts. split; [split; [done|by constructor]|].
      split; [done|]. split; [done|]. by destruct exts.
    + intros cur g. simpl. destruct (is_word c) eqn:Hc.
      * intros (w & exts & Hw & Hexts & -> & ->)%IH3.
        exists (String c w), exts. split; [by constructor|].
        split; [done|]. split; [done|].
        destruct exts; [|done]. by rewrite sapp_assoc.
      * destruct (is_dot c) eqn:Hd; [|done]. apply is_dot_true in Hd as ->.
        intros (e & exts & He & Hexts & -> & ->)%IH2.
        exists "", (e :: exts). split; [apply Forall_nil_2|].
        split; [by constructor|]. done.
Qed.

Lemma scan_word cur w rest :
  Forall (λ c, is_word c = true) (chars w) →
  Param.scan_exts (Param.InWord cur) (w +:+ rest)
  = Param.scan_exts (Param.InWord (cur +:+ w)) rest.
Proof.
  revert cur. induction w as [|c w IH]; intros cur Hw.
  - by rewrite sapp_nil_l, sapp_nil_r.
  - inversion Hw as [|? ? Hc Hw']; subst. rewrite sapp_cons. simpl. rewrite Hc.
    rewrite IH by done. by rewrite sapp_assoc.
Qed.

Lemma scan_group st e rest :
  st = Param.AtBoundary ∨ (∃ cur, st = Param.InWord cur) →
  word e →
  Param.scan_exts st ("." +:+ e +:+ rest)
  = Param.scan_exts (Param.InWord ("." +:+ e)) rest.
Proof.
  intros Hst [Hne He]. destruct e as [|c e]; [done|].
  inversion He as [|? ? Hc He']; subst.
  assert (Param.scan_exts Param.AfterDot (String c e +:+ rest)
          = Param.scan_exts (Param.InWord ("." +:+ String c e)) rest) as Hafter.
  { rewrite sapp_cons. simpl. rewrite Hc. by rewrite scan_word. }
  destruct Hst as [->|[cur ->]]; [done|].
  rewrite sapp_cons, sapp_nil_l. by cbn.
Qed.

Lemma scan_groups_in cur exts :
  Forall word exts →
  Param.scan_exts (Param.InWord cur) (groups exts)
  = Some (Some (match exts with
                | [] => cur
                | _ => "." +:+ List.last exts ""
                end)).
Proof.
  intros Hexts. revert cur. induction Hexts as [|e exts He Hexts IH]; intros cur.
  - done.
  - cbn [groups fold_right]. fold (groups exts).
    rewrite scan_group by eauto. rewrite IH. by destruct exts.
Qed.

Lemma scan_groups exts :
  Forall word exts →
  Param.scan_exts Param.AtBoundary (groups exts) = Some (last_group exts).
Proof.
  intros Hexts. destruct Hexts as [|e exts He Hexts]; [done|].
  cbn [groups fold_right]. fold (groups exts).
  rewrite scan_group by eauto. rewrite scan_groups_in by done. by destruct exts.
Qed.

Lemma scan_name_sound s : ∀ acc name g,
  Param.scan_name acc s = Some (name, g) →
  ∃ w rest, Forall (λ c, is_word c = true) (chars w)
            ∧ s = w +:+ "]" +:+ rest ∧ name = acc +:+ w ∧ name ≠ ""
            ∧ Param.scan_exts Param.AtBoundary rest = Some g.
Proof.
  induction s as [|c s IH]; intros acc name g; simpl; [done|].
  destruct (is_word c) eqn:Hc.
  - intros (w & rest & Hw & -> & -> & Hne & Hrest)%IH.
    exists (String c w), rest. split; [by constructor|]. split; [done|].
    rewrite sapp_assoc in *. done.
  - destruct (Ascii.eqb c "]") eqn:Hb; [|done]. apply Ascii.eqb_eq in Hb as ->.
    case_bool_decide as Hacc; [done|].
    destruct (Param.scan_exts Param.AtBoundary s) as [g'|] eqn:Hs; [|done].
    intros [= <- <-]. exists "", s. split; [apply Forall_nil_2|].
    by rewrite sapp_nil_r.
Qed.

Lemma scan_name_word acc w rest :
  Forall (λ c, is_word c = true) (chars w) →
  Param.scan_name acc (w +:+ "]" +:+ rest)
  = if bool_decide (acc +:+ w = "") then None
    else match Param.scan_exts Param.AtBoundary rest with
         | Some g => Some (acc +:+ w, g)
         | None => None
         end.
Proof.
  revert acc. induction w as [|c w IH]; intros acc Hw.
  - rewrite sapp_nil_l, sapp_nil_r. done.
  - inversion Hw as [|? ? Hc Hw']; subst. rewrite sapp_cons. simpl. rewrite Hc.
    rewrite IH by done. by rewrite sapp_assoc.
Qed.

(** X9. A file of a directory counts as a parameterized loader exactly
    when its name is an opening bracket, a non-empty word, a closing
    bracket, and any number of groups made of a dot and a non-empty word;
    the parameter is the word in brackets, and the extension looked up in the
    interpreter table is the last group alone, none without a group. *)
Theorem param_pattern (file name : string) (group : option string) :
  Param.exec file = Some (name, group)
  ↔ ∃ exts, word name ∧ Forall word exts
            ∧ file = "[" +:+ name +:+ "]" +:+ groups exts
            ∧ group = last_group exts.
Proof.
  split.
  - unfold Param.exec. destruct file as [|c s]; [done|].
    destruct (Ascii.eqb c "[") eqn:Hc; [|done]. apply Ascii.eqb_eq in Hc as ->.
    intros (w & rest & Hw & -> & -> & Hne & Hrest)%scan_name_sound.
    destruct (scan_exts_sound rest) as (Hsound & _).
    destruct (Hsound group Hrest) as (exts & Hexts & -> & ->).
    exists exts. rewrite sapp_nil_l in *. done.
  - intros (exts & [Hne Hname] & Hexts & -> & ->).
    rewrite sapp_cons, sapp_nil_l. unfold Param.exec.
    change (Ascii.eqb "[" "[") with true. cbv iota.
    rewrite scan_name_word by done. rewrite sapp_nil_l.
    rewrite bool_decide_eq_false_2 by done. by rewrite scan_groups.
Qed.

End PatternFacts.

(** ** The files a load works on *)

Section LoadFiles.
Import Str Path Fs StrFacts PathFacts CachePaths FsFacts.

Variable pid : N.
Variable codecs : Codecs.

(** X10. Whatever the root, the target path and the process id, the
    cache file, the temporary file and the error marker of a loader are
    three different paths: the production step never writes into the cache
    file, and neither rename of [load] has its source as destination. *)
Theorem load_paths_distinct (l : Loader) :
  cachePath l ≠ tempPath pid l
  ∧ cachePath l ≠ errorPath pid l
  ∧ tempPath pid l ≠ errorPath pid l
  ∧ (String.length (cachePath l) < String.length (errorPath pid l))%nat.
Proof.
  split; [apply cache_ne_temp|]. split; [apply cache_ne_error|].
  split; [apply temp_ne_error|]. apply cache_shorter_than_error.
Qed.

(** At path [x] the second file system is the first one, or has a
    directory where the first one had nothing. *)
Definition kept_at (x : string) (f f' : gmap string node) : Prop :=
  f' !! x = f !! x ∨ (f !! x = None ∧ ∃ t, f' !! x = Some (Dir t)).

Lemma kept_at_refl x f : kept_at x f f.
Proof. by left. Qed.

Lemma kept_at_trans x f1 f2 f3 :
  kept_at x f1 f2 → kept_at x f2 f3 → kept_at x f1 f3.
Proof.
  intros [H12|[H1 [t H2]]] [H23|[H2' [t' H3]]].
  - left. congruence.
  - right. split; [congruence|]. by exists t'.
  - right. split; [done|]. exists t. congruence.
  - congruence.
Qed.

Lemma prepareOutput_kept now' p f x : kept_at x f (prepareOutput now' p f).
Proof.
  unfold prepareOutput.
  induction (ancestors (S (String.length p)) p) as [|d ds IH]; simpl; [by left|].
  destruct (fold_right _ f ds !! d) eqn:Hd; [done|].
  destruct (decide (d = x)) as [->|Hne].
  - right. destruct IH as [IH|[IH _]].
    + split; [congruence|]. exists now'. by rewrite lookup_insert_eq.
    + split; [done|]. exists now'. by rewrite lookup_insert_eq.
  - destruct IH as [IH|[IH [t Ht]]].
    + left. by rewrite lookup_insert_ne.
    + right. split; [done|]. exists t. by rewrite lookup_insert_ne.
Qed.

Lemma after_exec_kept p l written err w x :
  x ≠ tempPath pid l → fs (after_exec pid p l written err w) !! x = fs w !! x.
Proof.
  intros Hx. unfold after_exec.
  destruct err; world_simpl; unfold Fs.write; by rewrite lookup_insert_ne.
Qed.

Lemma rename_kept a b f f' x :
  Fs.rename a b f = Ok f' → x ≠ a → x ≠ b → f' !! x = f !! x.
Proof.
  unfold Fs.rename. destruct (f !! a); [|done]. intros [= <-] Ha Hb.
  rewrite lookup_insert_ne by done. by rewrite lookup_delete_ne.
Qed.

Lemma resume_kept w w' p l s x :
  commands w !! p = Some {| loader := l; stage := s |} →
  resume pid codecs p w = Some w' →
  x ≠ cachePath l → x ≠ tempPath pid l → x ≠ errorPath pid l →
  kept_at x (fs w) (fs w').
Proof.
  intros Hc Hres Hxc Hxt Hxe.
  unfold resume in Hres. rewrite Hc in Hres.
  cbv beta iota delta [stage loader] in Hres.
  destruct s; try done; simplify_eq; try (by left).
  - repeat case_match; simplify_eq; by left.
  - repeat case_match; simplify_eq; by left.
  - left. world_simpl. unfold unlink_quiet.
    repeat case_match; try done. by rewrite lookup_delete_ne.
  - world_simpl. apply prepareOutput_kept.
  - world_simpl. apply prepareOutput_kept.
  - left.
    destruct (call_exec_fields p l
                (acquire p (set_fs (open_w (now w) (tempPath pid l) (fs w)) w))
                AwaitOpen Hc) as (-> & _).
    world_simpl. unfold open_w. by rewrite lookup_insert_ne.
  - left. destruct nested as [q|].
    + destruct (commands w !! q ≫= _) as [[archive|e]|]; simplify_eq; [done|].
      by apply after_exec_kept.
    + repeat case_match; simplify_eq; done.
  - left. destruct (extract codecs l archivePath (fs w)) as [[written' err']|];
      simplify_eq. by apply after_exec_kept.
  - left. destruct (Fs.rename _ _ _) as [f|e] eqn:Hren; simplify_eq; [|done].
    world_simpl. by eapply rename_kept.
  - left. destruct (Fs.rename _ _ _) as [f|e] eqn:Hren; simplify_eq; [|done].
    world_simpl. by eapply rename_kept.
Qed.

Lemma process_end_kept w w' p l s out e x :
  commands w !! p = Some {| loader := l; stage := s |} →
  process_end pid p out e w = Some w' →
  x ≠ tempPath pid l → fs w' !! x = fs w !! x.
Proof.
  intros Hc Hend Hx.
  unfold process_end in Hend. rewrite Hc in Hend.
  cbv beta iota delta [stage loader] in Hend.
  destruct s; simplify_eq. by apply after_exec_kept.
Qed.

(** A path no command works on. *)
Definition foreign (w : World) (x : string) : Prop :=
  ∀ q l s, commands w !! q = Some {| loader := l; stage := s |} →
           x ≠ cachePath l ∧ x ≠ tempPath pid l ∧ x ≠ errorPath pid l.

Lemma foreign_extends w w' x : extends w w' → foreign w' x → foreign w x.
Proof.
  intros Hext Hx q l s Hq. destruct (Hext q l s Hq) as (s' & Hq' & _).
  by eapply Hx.
Qed.

Definition is_touch (ev : Event) : bool :=
  match ev with Touch _ _ => true | _ => false end.

Lemma step_kept w ev w' x :
  step pid codecs w ev = Some w' → is_touch ev = false →
  foreign w x → kept_at x (fs w) (fs w').
Proof.
  intros Hstep Htouch Hx. destruct ev as [l|p|p out e|dt|path n]; cbn [step] in Hstep.
  - unfold do_load in Hstep. destruct (runningCommands w !! key l); simplify_eq; by left.
  - destruct (commands w !! p) as [[l s]|] eqn:Hc.
    + destruct (Hx p l s Hc) as (? & ? & ?). by eapply resume_kept.
    + unfold resume in Hstep. by rewrite Hc in Hstep.
  - destruct (commands w !! p) as [[l s]|] eqn:Hc.
    + destruct (Hx p l s Hc) as (? & ? & ?). left. by eapply process_end_kept.
    + unfold process_end in Hstep. by rewrite Hc in Hstep.
  - case_match; simplify_eq. by left.
  - done.
Qed.

(** X11. As long as nobody else changes the file system, loads leave
    every path alone that is not the cache file, the temporary file or the
    error marker of a loader that was loaded: what is there stays as it is,
    and where nothing is, nothing appears but, possibly, a directory created
    on the way to a cache file. *)
Theorem load_frame (w w' : World) (evs : list Event) (x : string) :
  run pid codecs w evs = Some w' →
  forallb (λ ev, negb (is_touch ev)) evs = true →
  foreign w' x →
  fs w' !! x = fs w !! x
  ∨ (fs w !! x = None ∧ ∃ t, fs w' !! x = Some (Dir t)).
Proof.
  revert w. induction evs as [|ev evs IH]; intros w; cbn [run forallb].
  - intros [= <-] _ _. by left.
  - destruct (step pid codecs w ev) as [w1|] eqn:Hstep; [|done].
    intros Hrun [Hev Hevs]%andb_true_iff Hx.
    apply negb_true_iff in Hev.
    eapply kept_at_trans; [|by apply IH].
    eapply step_kept; [done..|].
    eapply foreign_extends; [|done].
    eapply extends_trans; [by eapply step_extends|by eapply run_extends].
Qed.

End LoadFiles.

(** ** The descriptor of the temporary file and the registry *)

(** The stages between [open] (line 291) and [tempFd.close()] (line 299). *)
Definition holds_fd (s : Stage) : bool :=
  match s with
  | AwaitExit | AwaitPreload _ | AwaitExtract _ | AwaitRename
  | AwaitRenameError _ | AwaitClose _ => true
  | _ => false
  end.

(** The commands holding a descriptor are those in such a stage, each
    once. *)
Definition FdInv (cmds : list Command) (h : list nat) : Prop :=
  NoDup h
  ∧ ∀ q, q ∈ h ↔ ∃ l s, cmds !! q = Some {| loader := l; stage := s |}
                         ∧ holds_fd s = true.

Section DescriptorFacts.

Variable pid : N.
Variable codecs : Codecs.

Lemma fd_init : FdInv [] [].
Proof.
  split; [constructor|]. intros q. split; [by intros ?%elem_of_nil|].
  by intros (l & s & ? & _).
Qed.

Lemma fd_append cmds h l :
  FdInv cmds h →
  FdInv (cmds ++ [{| loader := l; stage := AwaitLoaderStat |}]) h.
Proof.
  intros [Hnd Hh]. split; [done|]. intros q. rewrite Hh. split.
  - intros (l0 & s0 & Hq & Hs). exists l0, s0. split; [|done].
    rewrite lookup_app_l; [done|]. by eapply lookup_lt_Some.
  - intros (l0 & s0 & Hq & Hs). exists l0, s0. split; [|done].
    apply lookup_app_Some in Hq as [Hq|[_ Hq]]; [done|].
    apply list_lookup_singleton_Some in Hq as [_ Hq]. by simplify_eq.
Qed.

Lemma fd_same (cmds : list Command) h (p : nat) l s s' :
  FdInv cmds h →
  cmds !! p = Some {| loader := l; stage := s |} →
  holds_fd s' = holds_fd s →
  FdInv (alter (restage s') p cmds) h.
Proof.
  intros [Hnd Hh] Hp Hs. split; [done|]. intros q. rewrite Hh. split.
  - intros (l0 & s0 & Hq & Hs0). destruct (decide (q = p)) as [->|Hne].
    + exists l, s'. rewrite list_lookup_alter_eq, Hp. simplify_eq.
      split; [done|]. congruence.
    + exists l0, s0. by rewrite list_lookup_alter_ne.
  - intros (l0 & s0 & Hq & Hs0).
    destruct (lookup_restage _ _ _ _ _ _ Hq) as [(-> & -> & s1 & Hp')|[Hne Hq']].
    + simplify_eq. exists l, s. split; [done|]. congruence.
    + by exists l0, s0.
Qed.

Lemma fd_open (cmds : list Command) h (p : nat) l s s' :
  FdInv cmds h →
  cmds !! p = Some {| loader := l; stage := s |} →
  holds_fd s = false → holds_fd s' = true →
  FdInv (alter (restage s') p cmds) (p :: h).
Proof.
  intros [Hnd Hh] Hp Hs Hs'. split.
  - apply NoDup_cons. split; [|done].
    intros (l0 & s0 & Hq & Hs0)%Hh. simplify_eq. congruence.
  - intros q. rewrite elem_of_cons, Hh. split.
    + intros [->|(l0 & s0 & Hq & Hs0)].
      * exists l, s'. by rewrite list_lookup_alter_eq, Hp.
      * destruct (decide (q = p)) as [->|Hne].
        -- exists l, s'. by rewrite list_lookup_alter_eq, Hp.
        -- exists l0, s0. by rewrite list_lookup_alter_ne.
    + intros (l0 & s0 & Hq & Hs0).
      destruct (lookup_restage _ _ _ _ _ _ Hq) as [(-> & -> & _)|[Hne Hq']].
      * by left.
      * right. by exists l0, s0.
Qed.

Lemma fd_close (cmds : list Command) h (p : nat) l s s' :
  FdInv cmds h →
  cmds !! p = Some {| loader := l; stage := s |} →
  holds_fd s' = false →
  FdInv (alter (restage s') p cmds) (filter (λ q, q ≠ p) h).
Proof.
  intros [Hnd Hh] Hp Hs'. split; [by apply NoDup_filter|].
  intros q. rewrite list_elem_of_filter, Hh. split.
  - intros (Hne & l0 & s0 & Hq & Hs0).
    exists l0, s0. by rewrite list_lookup_alter_ne.
  - intros (l0 & s0 & Hq & Hs0).
    destruct (lookup_restage _ _ _ _ _ _ Hq) as [(-> & -> & _)|[Hne Hq']].
    + congruence.
    + split; [done|]. by exists l0, s0.
Qed.

(** What one operation of a command does to the descriptors. *)
Definition fd_step (w w' : World) (p : nat) (s : Stage) : Prop :=
  ∃ s' more,
    commands w' = alter (restage s') p (commands w) ++ more
    ∧ (more = [] ∨ ∃ l, more = [{| loader := l; stage := AwaitLoaderStat |}])
    ∧ ((holds_fd s = false ∧ holds_fd s' = true ∧ handles w' = p :: handles w)
       ∨ (holds_fd s' = false
          ∧ handles w' = filter (λ q, q ≠ p) (handles w))
       ∨ (holds_fd s' = holds_fd s ∧ handles w' = handles w)).

Lemma fd_step_inv w w' p l s :
  FdInv (commands w) (handles w) →
  commands w !! p = Some {| loader := l; stage := s |} →
  fd_step w w' p s →
  FdInv (commands w') (handles w').
Proof.
  intros HI Hc (s' & more & -> & Hmore & Hfd).
  assert (FdInv (alter (restage s') p (commands w)) (handles w')) as HI'.
  { destruct Hfd as [(Hs & Hs' & ->)|[(Hs' & ->)|(Hs' & ->)]].
    - by eapply fd_open.
    - by eapply fd_close.
    - by eapply fd_same. }
  destruct Hmore as [->|[al ->]]; [by rewrite app_nil_r|]. by apply fd_append.
Qed.

Lemma after_exec_fd p l s written err w :
  holds_fd s = true → fd_step w (after_exec pid p l written err w) p s.
Proof.
  intros Hs. unfold after_exec.
  destruct err; eexists _, []; rewrite app_nil_r.
  all: (split; [reflexivity|]); (split; [by left|]); right; right.
  all: split; [by rewrite Hs|done].
Qed.

Lemma call_exec_fd p l w :
  commands w !! p = Some {| loader := l; stage := AwaitOpen |} →
  fd_step w (call_exec p l (acquire p (set_fs (Fs.open_w (now w) (tempPath pid l) (fs w)) w)))
    p AwaitOpen.
Proof.
  intros Hc.
  destruct (call_exec_shape p l
              (acquire p (set_fs (Fs.open_w (now w) (tempPath pid l) (fs w)) w)) Hc)
    as (s' & _ & _ & _ & _ & _ & Hcmds).
  destruct (call_exec_fields p l
              (acquire p (set_fs (Fs.open_w (now w) (tempPath pid l) (fs w)) w))
              AwaitOpen Hc) as (_ & _ & _ & Hh & _ & s'' & Hs'' & Hprod).
  assert (s'' = s') as ->.
  { destruct Hcmds as [[_ Hcmds]|(al & _ & _ & Hcmds)]; rewrite Hcmds in Hs''.
    - cbn [commands acquire set_fs] in Hs''.
      rewrite list_lookup_alter_eq, Hc in Hs''. by injection Hs''.
    - cbn [commands acquire set_fs] in Hs''.
      rewrite lookup_app_l in Hs''
        by (rewrite length_alter; by eapply lookup_lt_Some).
      rewrite list_lookup_alter_eq, Hc in Hs''. by injection Hs''. }
  assert (holds_fd s' = true) as Hfd by (by destruct Hprod as [->|[n ->]]).
  destruct Hcmds as [[_ Hcmds]|(al & _ & _ & Hcmds)].
  - exists s', []. rewrite app_nil_r. split; [done|]. split; [by left|]. by left.
  - exists s', [{| loader := al; stage := AwaitLoaderStat |}].
    split; [done|]. split; [right; by exists al|]. by left.
Qed.

Lemma resume_fd w w' p l s :
  commands w !! p = Some {| loader := l; stage := s |} →
  resume pid codecs p w = Some w' →
  fd_step w w' p s.
Proof.
  intros Hc Hres. unfold resume in Hres. rewrite Hc in Hres.
  cbv beta iota delta [stage loader] in Hres.
  destruct s.
  all: try (repeat case_match; simplify_eq; eexists _, []; rewrite app_nil_r;
            (split; [reflexivity|]); (split; [by left|]);
            first [by right; right | by right; left]).
  - simplify_eq. by apply call_exec_fd.
  - destruct (extract codecs l archivePath (fs w)) as [[written err]|]; simplify_eq.
    by apply after_exec_fd.
Qed.

Lemma step_fd w ev w' :
  FdInv (commands w) (handles w) → step pid codecs w ev = Some w' →
  FdInv (commands w') (handles w').
Proof.
  intros HI. destruct ev as [l|p|p out e|dt|path n]; cbn [step].
  - unfold do_load.
    destruct (runningCommands w !! key l) as [q|] eqn:Hq; intros [= <-]; [done|].
    by apply fd_append.
  - intros Hres. destruct (commands w !! p) as [[l s]|] eqn:Hc.
    + eapply fd_step_inv; [done..|]. by eapply resume_fd.
    + unfold resume in Hres. by rewrite Hc in Hres.
  - unfold process_end. destruct (commands w !! p) as [[l s]|] eqn:Hc; [|done].
    cbv beta iota delta [stage loader]. destruct s; try done. intros [= <-].
    eapply fd_step_inv; [done..|]. by apply after_exec_fd.
  - case_match; [|done]. by intros [= <-].
  - by intros [= <-].
Qed.

(** X12. In every state a process can reach, the commands that hold
    the descriptor of their temporary file open are exactly those between
    the [open] of line 291 and the [close] of line 299, each holding one: a
    load that has settled, by returning or by throwing, holds none. *)
Theorem descriptors_released (fs0 : gmap string node) (now0 : Z)
    (evs : list Event) (w : World) :
  run pid codecs (init fs0 now0) evs = Some w →
  NoDup (handles w)
  ∧ (∀ q, q ∈ handles w
          ↔ ∃ l s, commands w !! q = Some {| loader := l; stage := s |}
                   ∧ holds_fd s = true)
  ∧ ∀ q r, settlement w q = Some r → q ∉ handles w.
Proof.
  intros Hrun.
  assert (FdInv (commands w) (handles w)) as [Hnd Hh].
  { revert Hrun. generalize fd_init.
    change [] with (commands (init fs0 now0)) at 1.
    change [] with (handles (init fs0 now0)).
    generalize (init fs0 now0). revert w.
    induction evs as [|ev evs IH]; intros w w0 HI; cbn [run].
    - by intros [= <-].
    - destruct (step pid codecs w0 ev) as [w1|] eqn:Hstep; [|done].
      apply IH. by eapply step_fd. }
  split; [done|]. split; [done|].
  intros q r Hr (l & s & Hq & Hs)%Hh.
  unfold settlement, stage_of in Hr. rewrite Hq in Hr. by destruct s.
Qed.

(** X13. In every state a process can reach, the registry holds
    exactly the commands whose removal reaction has not run yet, each under
    the key of its loader: no entry outlives its command, and every command
    that can still be joined is registered. *)
Theorem registry_in_flight (fs0 : gmap string node) (now0 : Z)
    (evs : list Event) (w : World) (k : string) (q : nat) :
  run pid codecs (init fs0 now0) evs = Some w →
  runningCommands w !! k = Some q
  ↔ ∃ l s, commands w !! q = Some {| loader := l; stage := s |}
           ∧ key l = k ∧ is_finalized s = false.
Proof.
  intros Hrun. destruct (inv_reachable _ _ _ _ _ _ Hrun) as [HI _]. split.
  - apply (inv_registered _ _ _ HI).
  - intros (l & s & Hq & <- & Hs). by eapply (inv_in_flight _ _ _ HI).
Qed.

End DescriptorFacts.

(** ** A load after a load *)

Section ReloadFacts.
Import Str Path Fs StrFacts PathFacts CachePaths FsFacts.

Variable pid : N.
Variable codecs : Codecs.

(** The three operations that end a load whose production step has
    finished: the rename, the close and the removal from the registry. *)
Lemma finish_run wx p l s written err :
  commands wx !! p = Some {| loader := l; stage := s |} →
  let target := match err with None => cachePath l | Some _ => errorPath pid l end in
  let r := match err with None => Resolved (outputPath l) | Some e => Rejected e end in
  ∃ w4,
    run pid codecs (after_exec pid p l written err wx) [Resume p; Resume p; Resume p]
    = Some w4
    ∧ fs w4 = <[target := File written (now wx)]>
                (delete (tempPath pid l)
                   (<[tempPath pid l := File written (now wx)]> (fs wx)))
    ∧ now w4 = now wx ∧ execs w4 = execs wx ∧ output w4 = output wx
    ∧ runningCommands w4 = delete (key l) (runningCommands wx)
    ∧ length (commands w4) = length (commands wx)
    ∧ commands w4 !! p = Some {| loader := l; stage := Finalized r |}.
Proof.
  intros Hc target r. unfold after_exec.
  destruct err as [e|]; subst target r.
  - eexists. split.
    { cbn [run step]. unfold resume at 1. lookup_command Hc.
      rewrite rename_written.
      unfold resume at 1. lookup_command Hc.
      unfold resume at 1. lookup_command Hc. reflexivity. }
    world_simpl. rewrite !length_alter.
    repeat (split; [done|]). by lookup_command Hc.
  - eexists. split.
    { cbn [run step]. unfold resume at 1. lookup_command Hc.
      rewrite rename_written.
      unfold resume at 1. lookup_command Hc.
      unfold resume at 1. lookup_command Hc. reflexivity. }
    world_simpl. rewrite !length_alter.
    repeat (split; [done|]). by lookup_command Hc.
Qed.

(** A call of [load] that registers its key, up to the cooldown check or
    to the return of the cached file. *)
Lemma load_stat w l lm :
  runningCommands w !! key l = None →
  maybeStat (fs w) (path (options l)) = Some lm →
  let p := length (commands w) in
  ∃ w1,
    run pid codecs w [Load l; Resume p] = Some w1
    ∧ commands w1 !! p = Some {| loader := l; stage := AwaitCacheStat (Some lm) |}
    ∧ fs w1 = fs w ∧ now w1 = now w ∧ execs w1 = execs w
    ∧ output w1 = output w ++ [LoadLine (path (options l))]
    ∧ (∀ q, (q < p)%nat → commands w1 !! q = commands w !! q).
Proof.
  intros Hkey Hstat p.
  pose proof (lookup_registered l w) as Hc0. fold p in Hc0.
  eexists. split.
  { cbn [run]. rewrite step_load_first by done.
    cbn [step]. unfold resume. rewrite Hc0.
    cbv beta iota delta [stage loader]. cbn [fs registered]. rewrite Hstat.
    reflexivity. }
  split; [by lookup_command Hc0|]. split; [done|]. split; [done|].
  split; [done|]. split; [done|].
  intros q Hq. cbn [commands set_stage registered].
  rewrite list_lookup_alter_ne by lia. by rewrite lookup_app_l.
Qed.

Definition tick (dt : Z) (w : World) : World :=
  {| fs := fs w; now := now w + dt; runningCommands := runningCommands w;
     commands := commands w; execs := execs w; handles := handles w;
     output := output w; returned := returned w |}.

Lemma run_cons w ev evs :
  run pid codecs w (ev :: evs)
  = match step pid codecs w ev with
    | Some w' => run pid codecs w' evs
    | None => None
    end.
Proof. reflexivity. Qed.

Lemma step_tick w dt : 0 ≤ dt → step pid codecs w (Tick dt) = Some (tick dt w).
Proof. intros Hdt. cbn [step]. by rewrite (proj2 (Z.leb_le 0 dt) Hdt). Qed.

(** The file system a finished load leaves, away from its own files. *)
Lemma finished_elsewhere (f : gmap string node) target temp n n' x :
  x ≠ target → x ≠ temp →
  (<[target := n]> (delete temp (<[temp := n']> f))) !! x = f !! x.
Proof.
  intros H1 H2. rewrite lookup_insert_ne by done.
  rewrite lookup_delete_ne by done. by rewrite lookup_insert_ne.
Qed.

(** The same three operations from the rename on, for whatever the
    temporary file is: [rename] moves it as it is, content and modification
    time. *)
Lemma finish_moves w p l err n :
  commands w !! p
  = Some {| loader := l;
            stage := match err with
                     | None => AwaitRename
                     | Some e => AwaitRenameError e
                     end |} →
  fs w !! tempPath pid l = Some n →
  let target := match err with None => cachePath l | Some _ => errorPath pid l end in
  let r := match err with None => Resolved (outputPath l) | Some e => Rejected e end in
  ∃ w4,
    run pid codecs w [Resume p; Resume p; Resume p] = Some w4
    ∧ fs w4 = <[target := n]> (delete (tempPath pid l) (fs w))
    ∧ now w4 = now w ∧ execs w4 = execs w ∧ output w4 = output w
    ∧ runningCommands w4 = delete (key l) (runningCommands w)
    ∧ length (commands w4) = length (commands w)
    ∧ commands w4 !! p = Some {| loader := l; stage := Finalized r |}.
Proof.
  intros Hc Htemp target r.
  destruct err as [e|]; subst target r.
  - eexists. split.
    { cbn [run step]. unfold resume at 1. lookup_command Hc.
      unfold Fs.rename. rewrite Htemp.
      unfold resume at 1. lookup_command Hc.
      unfold resume at 1. lookup_command Hc. reflexivity. }
    world_simpl. rewrite !length_alter.
    repeat (split; [done|]). by lookup_command Hc.
  - eexists. split.
    { cbn [run step]. unfold resume at 1. lookup_command Hc.
      unfold Fs.rename. rewrite Htemp.
      unfold resume at 1. lookup_command Hc.
      unfold resume at 1. lookup_command Hc. reflexivity. }
    world_simpl. rewrite !length_alter.
    repeat (split; [done|]). by lookup_command Hc.
Qed.

Lemma moved_elsewhere (f : gmap string node) target temp n x :
  x ≠ target → x ≠ temp → (<[target := n]> (delete temp f)) !! x = f !! x.
Proof.
  intros H1 H2. rewrite lookup_insert_ne by done. by rewrite lookup_delete_ne.
Qed.

(** X14. The production step of a load has succeeded and left the
    temporary file with some modification time [m] (the time of its last
    write, or of its opening when nothing was written).  When the load has
    run to its end the cache file is that file, content and time, and a later
    load of the same loader starts anew and compares [m] with the
    modification time of the source as it is then: when the source is not
    newer the cache file is fresh, the load resolves to the same output path
    and executes nothing; when the source is newer (also when it was modified
    while the step ran) the cache file is stale: it is returned as it is under
    [useStale], and otherwise the load goes on to the cooldown check. *)
Theorem reload_after_success (w : World) (p : nat) (l : Loader)
    (written : bytes) (m loaderMtime dt : Z) :
  commands w !! p = Some {| loader := l; stage := AwaitRename |} →
  fs w !! tempPath pid l = Some (File written m) →
  maybeStat (fs w) (path (options l)) = Some loaderMtime →
  path (options l) ≠ cachePath l → path (options l) ≠ tempPath pid l →
  0 ≤ dt →
  let p' := length (commands w) in
  ∃ w',
    run pid codecs w
      [Resume p; Resume p; Resume p; Tick dt; Load l; Resume p'; Resume p'] = Some w'
    ∧ settlement w' p = Some (Resolved (outputPath l))
    ∧ execs w' = execs w
    ∧ fs w' !! cachePath l = Some (File written m)
    ∧ (loaderMtime ≤ m →
       settlement w' p' = Some (Resolved (outputPath l))
       ∧ output w' = output w ++ [LoadLine (path (options l)); TagFresh])
    ∧ (m < loaderMtime → useStale (options l) = true →
       settlement w' p' = Some (Resolved (outputPath l))
       ∧ output w' = output w ++ [LoadLine (path (options l)); TagUsingStale])
    ∧ (m < loaderMtime → useStale (options l) = false →
       stage_of w' p' = Some (AwaitErrorStat (Some loaderMtime))
       ∧ output w' = output w ++ [LoadLine (path (options l)); TagStale]).
Proof.
  intros Hc Htemp Hstat Hpc Hpt Hdt p'.
  destruct (finish_moves w p l None _ Hc Htemp)
    as (w4 & Hrun4 & Hfs4 & Hnow4 & Hex4 & Hout4 & Hrc4 & Hlen4 & Hc4).
  assert (p < p')%nat as Hlt by (by eapply lookup_lt_Some).
  destruct (load_stat (tick dt w4) l loaderMtime) as
    (w6 & Hrun6 & Hc6 & Hfs6 & Hnow6 & Hex6 & Hout6 & Hold6).
  { cbn [runningCommands tick]. rewrite Hrc4. apply lookup_delete_eq. }
  { cbn [fs tick]. unfold maybeStat. rewrite Hfs4.
    by rewrite moved_elsewhere. }
  cbn [commands tick] in Hrun6, Hc6, Hold6. rewrite Hlen4 in Hrun6, Hc6, Hold6.
  fold p' in Hrun6, Hc6, Hold6.
  assert (fs w6 !! cachePath l = Some (File written m)) as Hfile.
  { rewrite Hfs6. cbn [fs tick]. rewrite Hfs4. by rewrite lookup_insert_eq. }
  assert (maybeStat (fs w6) (cachePath l) = Some m) as Hcache.
  { unfold maybeStat. by rewrite Hfile. }
  assert (output w6 = output w ++ [LoadLine (path (options l))]) as Hout.
  { rewrite Hout6. cbn [output tick]. by rewrite Hout4. }
  assert (∀ w7, commands w7 = commands w6 →
                ∀ s, settlement (set_stage p' s w7) p = Some (Resolved (outputPath l)))
    as Hfirst.
  { intros w7 H7 s. unfold settlement, stage_of. world_simpl. rewrite H7.
    rewrite list_lookup_alter_ne by lia. rewrite Hold6 by done. by rewrite Hc4. }
  assert (run pid codecs w
            [Resume p; Resume p; Resume p; Tick dt; Load l; Resume p'; Resume p']
          = resume pid codecs p' w6) as Hrun.
  { change [Resume p; Resume p; Resume p; Tick dt; Load l; Resume p'; Resume p']
      with ([Resume p; Resume p; Resume p]
            ++ Tick dt :: [Load l; Resume p'] ++ [Resume p']).
    rewrite run_app, Hrun4. rewrite run_cons, step_tick by done.
    rewrite run_app, Hrun6. cbn [run step]. by destruct (resume _ _ _ _). }
  rewrite Hrun. unfold resume. rewrite Hc6.
  cbv beta iota delta [stage loader]. rewrite Hcache.
  destruct (m <? loaderMtime) eqn:Hcmp.
  - apply Z.ltb_lt in Hcmp. destruct (useStale (options l)) eqn:Hstale.
    + eexists. split; [reflexivity|].
      split; [by apply Hfirst|]. split; [world_simpl; by rewrite Hex6|].
      split; [done|]. split; [intros; lia|]. split; [|done].
      intros _ _. split; [by lookup_command Hc6|].
      world_simpl. rewrite Hout. by rewrite <- List.app_assoc.
    + eexists. split; [reflexivity|].
      split; [by apply Hfirst|]. split; [world_simpl; by rewrite Hex6|].
      split; [done|]. split; [intros; lia|]. split; [done|].
      intros _ _. split; [by lookup_command Hc6|].
      world_simpl. rewrite Hout. by rewrite <- List.app_assoc.
  - apply Z.ltb_ge in Hcmp.
    eexists. split; [reflexivity|].
    split; [by apply Hfirst|]. split; [world_simpl; by rewrite Hex6|].
    split; [done|]. split; [|split; intros; lia].
    intros _. split; [by lookup_command Hc6|].
    world_simpl. rewrite Hout. by rewrite <- List.app_assoc.
Qed.

(** X15. The production step of a load has failed, with no cache file,
    and left the temporary file with some modification time [m].  When the
    load has run to its end the error marker is that file, content and time.
    A load of the same loader started [dt] later is rejected at the cooldown
    check, and executes nothing, when [m] is after the modification time of
    the source and less than 1000 ms before the time of the check; when the
    source is as new as the marker or newer, or the marker is 1000 ms old or
    more, the load passes the check and removes the marker. *)
Theorem reload_after_failure (w : World) (p : nat) (l : Loader)
    (written : bytes) (e : Error) (m loaderMtime dt : Z) :
  commands w !! p = Some {| loader := l; stage := AwaitRenameError e |} →
  fs w !! tempPath pid l = Some (File written m) →
  maybeStat (fs w) (path (options l)) = Some loaderMtime →
  fs w !! cachePath l = None →
  path (options l) ≠ errorPath pid l → path (options l) ≠ tempPath pid l →
  0 ≤ dt →
  let p' := length (commands w) in
  let again := [Resume p; Resume p; Resume p; Tick dt;
                Load l; Resume p'; Resume p'; Resume p'] in
  (loaderMtime < m → now w + dt < m + 1000 →
   ∃ w',
     run pid codecs w again = Some w'
     ∧ settlement w' p = Some (Rejected e)
     ∧ settlement w' p' = Some (Rejected RecentError)
     ∧ execs w' = execs w
     ∧ fs w' !! errorPath pid l = Some (File written m))
  ∧ (m ≤ loaderMtime ∨ m + 1000 ≤ now w + dt →
     ∃ w',
       run pid codecs w (again ++ [Resume p']) = Some w'
       ∧ settlement w' p = Some (Rejected e)
       ∧ stage_of w' p' = Some AwaitPrepareTemp
       ∧ execs w' = execs w
       ∧ fs w' !! errorPath pid l = None).
Proof.
  intros Hc Htemp Hstat Hnocache Hpe Hpt Hdt p' again.
  pose proof (cache_ne_temp pid l) as Hct.
  pose proof (cache_ne_error pid l) as Hce.
  destruct (finish_moves w p l (Some e) _ Hc Htemp)
    as (w4 & Hrun4 & Hfs4 & Hnow4 & Hex4 & Hout4 & Hrc4 & Hlen4 & Hc4).
  assert (p < p')%nat as Hlt by (by eapply lookup_lt_Some).
  destruct (load_stat (tick dt w4) l loaderMtime) as
    (w6 & Hrun6 & Hc6 & Hfs6 & Hnow6 & Hex6 & Hout6 & Hold6).
  { cbn [runningCommands tick]. rewrite Hrc4. apply lookup_delete_eq. }
  { cbn [fs tick]. unfold maybeStat. rewrite Hfs4.
    by rewrite moved_elsewhere. }
  cbn [commands tick] in Hrun6, Hc6, Hold6. rewrite Hlen4 in Hrun6, Hc6, Hold6.
  fold p' in Hrun6, Hc6, Hold6.
  assert (maybeStat (fs w6) (cachePath l) = None) as Hcache.
  { rewrite Hfs6. cbn [fs tick]. rewrite Hfs4. unfold maybeStat.
    rewrite moved_elsewhere by done. by rewrite Hnocache. }
  assert (fs w6 !! errorPath pid l = Some (File written m)) as Hfile.
  { rewrite Hfs6. cbn [fs tick]. rewrite Hfs4. by rewrite lookup_insert_eq. }
  assert (maybeStat (fs w6) (errorPath pid l) = Some m) as Hmarker.
  { unfold maybeStat. by rewrite Hfile. }
  assert (now w6 = now w + dt) as Hnow.
  { rewrite Hnow6. cbn [now tick]. by rewrite Hnow4. }
  set (w7 := set_stage p' (AwaitErrorStat (Some loaderMtime)) (write_output TagMissing w6)).
  assert (run pid codecs w
            [Resume p; Resume p; Resume p; Tick dt; Load l; Resume p'; Resume p']
          = Some w7) as Hrun7.
  { change [Resume p; Resume p; Resume p; Tick dt; Load l; Resume p'; Resume p']
      with ([Resume p; Resume p; Resume p]
            ++ Tick dt :: [Load l; Resume p'] ++ [Resume p']).
    rewrite run_app, Hrun4. rewrite run_cons, step_tick by done.
    rewrite run_app, Hrun6.
    cbn [run step]. unfold resume. rewrite Hc6.
    cbv beta iota delta [stage loader]. by rewrite Hcache. }
  assert (commands w7 !! p' = Some {| loader := l; stage := AwaitErrorStat (Some loaderMtime) |})
    as Hc7 by (subst w7; by lookup_command Hc6).
  assert (commands w7 !! p = Some {| loader := l; stage := Finalized (Rejected e) |})
    as Hp7.
  { subst w7. world_simpl. rewrite list_lookup_alter_ne by lia.
    rewrite Hold6 by done. exact Hc4. }
  split.
  - intros Hlm Hsoon. eexists. split.
    { subst again.
      change [Resume p; Resume p; Resume p; Tick dt; Load l; Resume p'; Resume p';
              Resume p']
        with ([Resume p; Resume p; Resume p; Tick dt; Load l; Resume p'; Resume p']
              ++ [Resume p']).
      rewrite run_app, Hrun7. cbn [run step]. unfold resume. rewrite Hc7.
      cbv beta iota delta [stage loader].
      assert (maybeStat (fs w7) (errorPath pid l) = Some m) as -> by done.
      assert (now w7 = now w + dt) as -> by done.
      rewrite (recent_true (tick dt w)) by (split; [done|cbn [now tick]; lia]).
      reflexivity. }
    split.
    { unfold settlement, stage_of. world_simpl.
      rewrite list_lookup_alter_ne by lia. by rewrite Hp7. }
    split; [by lookup_command Hc7|].
    split; [subst w7; world_simpl; by rewrite Hex6|].
    subst w7. by world_simpl.
  - intros Hlate.
    set (w8 := set_stage p' AwaitUnlink w7).
    assert (commands w8 !! p' = Some {| loader := l; stage := AwaitUnlink |})
      as Hc8 by (subst w8; by lookup_command Hc7).
    eexists. split.
    { subst again.
      change ([Resume p; Resume p; Resume p; Tick dt; Load l; Resume p'; Resume p';
               Resume p'] ++ [Resume p'])
        with ([Resume p; Resume p; Resume p; Tick dt; Load l; Resume p'; Resume p']
              ++ [Resume p'; Resume p']).
      rewrite run_app, Hrun7. cbn [run step]. unfold resume at 1. rewrite Hc7.
      cbv beta iota delta [stage loader].
      assert (maybeStat (fs w7) (errorPath pid l) = Some m) as -> by done.
      assert (now w7 = now w + dt) as -> by done.
      rewrite (recent_false (tick dt w))
        by (unfold recent; cbn [now tick]; lia).
      fold w8. unfold resume. rewrite Hc8.
      cbv beta iota delta [stage loader]. reflexivity. }
    split.
    { unfold settlement, stage_of. subst w8. world_simpl.
      rewrite !list_lookup_alter_ne by lia. by rewrite Hp7. }
    split; [by lookup_command Hc8|].
    split; [subst w8 w7; world_simpl; by rewrite Hex6|].
    subst w8 w7. world_simpl. unfold unlink_quiet.
    rewrite Hfile. by rewrite lookup_delete_eq.
Qed.

End ReloadFacts.

(** ** The end of the subprocess *)

Section ExitFacts.
Import Str Path Fs StrFacts PathFacts CachePaths FsFacts.

Variable pid : N.
Variable codecs : Codecs.

(** The error [CommandLoader.exec] throws for the way its subprocess
    ended, if any. *)
Definition exit_error (e : ProcessEnd) : option Error :=
  match e with
  | Closed (Some 0) => None
  | Closed code => Some (ExitError code)
  | Errored => Some SpawnError
  end.

(** X16. What a subprocess wrote becomes the cache file only when it
    closes with exit code 0.  With any other code, when it is killed by a
    signal (no code) or cannot be spawned, the load rejects, the cache path
    is left as it was, and what was written so far is kept in the error
    marker. *)
Theorem exit_code_decides (wx : World) (p : nat) (l : Loader) (out : bytes)
    (e : ProcessEnd) :
  commands wx !! p = Some {| loader := l; stage := AwaitExit |} →
  ∃ w',
    run pid codecs wx [Exit p out e; Resume p; Resume p] = Some w'
    ∧ (p ∉ handles w')
    ∧ fs w' !! tempPath pid l = None
    ∧ (e = Closed (Some 0) →
       settlement w' p = Some (Resolved (outputPath l))
       ∧ fs w' !! cachePath l = Some (File out (now wx)))
    ∧ (e ≠ Closed (Some 0) →
       ∃ err, exit_error e = Some err
              ∧ settlement w' p = Some (Rejected err)
              ∧ fs w' !! cachePath l = fs wx !! cachePath l
              ∧ fs w' !! errorPath pid l = Some (File out (now wx))).
Proof.
  intros Hc.
  assert (process_end pid p out e wx
          = Some (after_exec pid p l out (exit_error e) wx)) as Hend.
  { unfold process_end. rewrite Hc. reflexivity. }
  destruct (exit_error e) as [err|] eqn:Herr.
  - destruct (finish_failure pid codecs wx p l AwaitExit out err Hc)
      as (w2 & w3 & H2 & _ & Hmarker & Hcache & Htemp & H3 & Hfs & Hset & Hh).
    exists w3. split.
    { cbn [run step]. by rewrite Hend, H2, H3. }
    split; [done|]. rewrite Hfs. split; [done|]. split.
    + intros ->. done.
    + intros _. by exists err.
  - destruct (finish_success pid codecs wx p l AwaitExit out Hc)
      as (w2 & w3 & H2 & _ & Hcache & Htemp & H3 & Hfs & Hset & Hh).
    exists w3. split.
    { cbn [run step]. by rewrite Hend, H2, H3. }
    split; [done|]. rewrite Hfs. split; [done|]. split; [done|].
    intros Hne. destruct e as [[[| |]|]|]; done.
Qed.

End ExitFacts.

Lemma exit_code_decides_witness :
  (∃ w', run demo_pid demo_codecs world_running
           [Exit 0 "a,b" (Closed (Some 0)); Resume 0; Resume 0] = Some w'
         ∧ fs w' !! items_cache = Some (File "a,b" 100))
  ∧ (∃ w', run demo_pid demo_codecs world_running
             [Exit 0 "a," (Closed None); Resume 0; Resume 0] = Some w'
           ∧ settlement w' 0 = Some (Rejected (ExitError None))
           ∧ fs w' !! items_cache = Some (File "old,data" 3)).
Proof.
  split.
  - destruct (exit_code_decides demo_pid demo_codecs world_running 0
                (items_loader false) "a,b" (Closed (Some 0)) eq_refl)
      as (w' & Hrun & _ & _ & Hok & _).
    exists w'. split; [done|]. by destruct (Hok eq_refl).
  - destruct (exit_code_decides demo_pid demo_codecs world_running 0
                (items_loader false) "a," (Closed None) eq_refl)
      as (w' & Hrun & _ & _ & _ & Hfail).
    destruct Hfail as (err & [= <-] & Hset & Hcache & _); [discriminate|].
    exists w'. split; [done|]. split; [done|].
    change items_cache with (cachePath (items_loader false)). by rewrite Hcache.
Defined.

(** ** A command loader's load comes to an end *)

(** The number of operations a load of a command loader still has to wait
    for, at most, before it settles. *)
Definition steps_left (s : Stage) : nat :=
  match s with
  | AwaitLoaderStat => 11
  | AwaitCacheStat _ => 10
  | AwaitErrorStat _ => 9
  | AwaitUnlink => 8
  | AwaitPrepareTemp => 7
  | AwaitPrepareCache => 6
  | AwaitOpen => 5
  | AwaitExit => 4
  | AwaitRename => 3
  | AwaitRenameError _ => 2
  | AwaitClose _ => 1
  | _ => 0
  end.

(** The stages of an extractor's [exec] do not occur in the load of a
    command loader. *)
Definition command_stage (s : Stage) : bool :=
  match s with
  | AwaitPreload _ | AwaitExtract _ => false
  | _ => true
  end.

Section Progress.

Variable pid : N.
Variable codecs : Codecs.

Lemma command_progress w p l s out e :
  is_command l = true →
  commands w !! p = Some {| loader := l; stage := s |} →
  command_stage s = true → settlement_of s = None →
  ∃ ev w' s',
    (ev = Resume p ∨ ev = Exit p out e)
    ∧ step pid codecs w ev = Some w'
    ∧ commands w' !! p = Some {| loader := l; stage := s' |}
    ∧ command_stage s' = true
    ∧ (steps_left s' < steps_left s)%nat.
Proof.
  intros Hl Hc Hs Hset.
  destruct s; try done.
  all: try (exists (Resume p); cbn [step]; unfold resume; rewrite Hc;
            cbv beta iota delta [stage loader];
            repeat case_match; eexists _, _; (split; [by left|]);
            (split; [reflexivity|]); (split; [by lookup_command Hc|]);
            (split; [done|]); simpl; lia).
  - exists (Resume p). cbn [step]. unfold resume. rewrite Hc.
    cbv beta iota delta [stage loader].
    destruct l as [o cmd args| |]; [|done..]. unfold call_exec.
    eexists _, _. split; [by left|]. split; [reflexivity|].
    split; [by lookup_command Hc|]. split; [done|]. simpl. lia.
  - exists (Exit p out e). cbn [step]. unfold process_end, after_exec. rewrite Hc.
    cbv beta iota delta [stage loader].
    destruct (match e with
              | Closed (Some 0) => None
              | Closed code => Some (ExitError code)
              | Errored => Some SpawnError
              end) as [err|].
    + eexists _, _. split; [by right|]. split; [reflexivity|].
      split; [by lookup_command Hc|]. split; [done|]. simpl. lia.
    + eexists _, _. split; [by right|]. split; [reflexivity|].
      split; [by lookup_command Hc|]. split; [done|]. simpl. lia.
Qed.

(** X17. The load of a command loader never hangs by itself: from
    any point of its body, the operations it waits for and the end of its
    subprocess, however it ends, bring it to a settlement within the number
    of steps left, eleven from the start. *)
Theorem command_load_settles (w : World) (p : nat) (l : Loader) (s : Stage)
    (out : bytes) (e : ProcessEnd) :
  is_command l = true →
  commands w !! p = Some {| loader := l; stage := s |} →
  command_stage s = true →
  ∃ evs w',
    Forall (λ ev, ev = Resume p ∨ ev = Exit p out e) evs
    ∧ (length evs ≤ steps_left s)%nat
    ∧ run pid codecs w evs = Some w'
    ∧ is_Some (settlement w' p).
Proof.
  intros Hl. remember (steps_left s) as n eqn:Hn.
  revert w s Hn. induction (lt_wf n) as [n _ IH]. intros w s -> Hc Hs.
  destruct (settlement_of s) as [r|] eqn:Hset.
  - exists [], w. split; [constructor|]. split; [simpl; lia|]. split; [done|].
    exists r. unfold settlement, stage_of. by rewrite Hc.
  - destruct (command_progress w p l s out e Hl Hc Hs Hset)
      as (ev & w1 & s1 & Hev & Hstep & Hc1 & Hs1 & Hlt).
    destruct (IH (steps_left s1) Hlt w1 s1 eq_refl Hc1 Hs1)
      as (evs & w' & Hevs & Hlen & Hrun & Hsettled).
    exists (ev :: evs), w'. split; [by constructor|]. split; [simpl; lia|].
    split; [|done]. cbn [run]. by rewrite Hstep.
Qed.

End Progress.

Lemma command_load_settles_witness :
  ∃ evs w',
    Forall (λ ev, ev = Resume 0%nat ∨ ev = Exit 0 "a,b" (Closed (Some 0))) evs
    ∧ (length evs ≤ 4)%nat
    ∧ run demo_pid demo_codecs world_running evs = Some w'
    ∧ is_Some (settlement w' 0).
Proof.
  apply (command_load_settles demo_pid demo_codecs world_running 0
           (items_loader false) AwaitExit "a,b" (Closed (Some 0)));
    reflexivity.
Defined.

(** ** The example loader, once more *)

Lemma foreign_check pid (w : World) (x : string) :
  forallb (λ c, bool_decide (x ≠ cachePath (loader c))
                && bool_decide (x ≠ tempPath pid (loader c))
                && bool_decide (x ≠ errorPath pid (loader c))) (commands w) = true →
  foreign pid w x.
Proof.
  intros Hall q l s Hq. rewrite forallb_forall in Hall.
  specialize (Hall {| loader := l; stage := s |}). cbn [loader] in Hall.
  apply list_elem_of_lookup_2, list_elem_of_In in Hq. specialize (Hall Hq).
  apply andb_true_iff in Hall as [[H1 H2]%andb_true_iff H3].
  by apply bool_decide_eq_true in H1, H2, H3.
Qed.

(** A whole load of the example loader, from the call to the removal from
    the registry, the script printing [a,b] and exiting with code 0. *)
Definition items_load : list Event :=
  [Load (items_loader false); Resume 0; Resume 0; Resume 0; Resume 0; Resume 0;
   Resume 0; Exit 0 "a,b" (Closed (Some 0)); Resume 0; Resume 0; Resume 0].

Lemma load_frame_witness :
  ∃ w, run demo_pid demo_codecs (init (fs_items 5) 100) items_load = Some w
       ∧ fs w !! items_cache = Some (File "a,b" 100)
       ∧ fs w !! "docs/data/items.csv.py" = Some (File "print('a,b')" 5).
Proof.
  destruct (run demo_pid demo_codecs (init (fs_items 5) 100) items_load)
    as [w|] eqn:Hrun; [|vm_compute in Hrun; discriminate Hrun].
  assert (foreign demo_pid w "docs/data/items.csv.py") as Hforeign.
  { apply foreign_check. vm_compute in Hrun. injection Hrun as <-. by vm_compute. }
  destruct (load_frame demo_pid demo_codecs (init (fs_items 5) 100) w items_load
              "docs/data/items.csv.py" Hrun eq_refl Hforeign) as [Hsame|[Hnone _]].
  - exists w. split; [done|]. split; [|by rewrite Hsame].
    vm_compute in Hrun. injection Hrun as <-. reflexivity.
  - vm_compute in Hnone. discriminate Hnone.
Defined.

Lemma descriptors_released_witness :
  ∃ w1 w2,
    run demo_pid demo_codecs (init (fs_items 5) 100)
      [Load (items_loader false); Resume 0; Resume 0; Resume 0; Resume 0; Resume 0;
       Resume 0] = Some w1
    ∧ (0%nat ∈ handles w1)
    ∧ run demo_pid demo_codecs w1
        [Exit 0 "a,b" (Closed (Some 0)); Resume 0; Resume 0] = Some w2
    ∧ (0%nat ∉ handles w2).
Proof.
  set (evs1 := [Load (items_loader false); Resume 0%nat; Resume 0%nat; Resume 0%nat;
                Resume 0%nat; Resume 0%nat; Resume 0%nat]).
  set (evs2 := [Exit 0 "a,b" (Closed (Some 0)); Resume 0%nat; Resume 0%nat]).
  destruct (run demo_pid demo_codecs (init (fs_items 5) 100) evs1)
    as [w1|] eqn:Hrun1; [|vm_compute in Hrun1; discriminate Hrun1].
  destruct (run demo_pid demo_codecs w1 evs2)
    as [w2|] eqn:Hrun2;
    [|vm_compute in Hrun1; injection Hrun1 as <-; vm_compute in Hrun2;
      discriminate Hrun2].
  assert (run demo_pid demo_codecs (init (fs_items 5) 100) (evs1 ++ evs2) = Some w2)
    as Hrun by (by rewrite run_app, Hrun1).
  destruct (descriptors_released demo_pid demo_codecs _ _ _ _ Hrun1) as (_ & Hh1 & _).
  destruct (descriptors_released demo_pid demo_codecs _ _ _ _ Hrun) as (_ & _ & Hh2).
  exists w1, w2. split; [done|]. split; [|split; [done|]].
  - apply Hh1. exists (items_loader false), AwaitExit. split; [|done].
    vm_compute in Hrun1. injection Hrun1 as <-. reflexivity.
  - apply (Hh2 0%nat (Resolved ".observablehq/cache/data/items.csv")).
    vm_compute in Hrun1. injection Hrun1 as <-.
    vm_compute in Hrun2. injection Hrun2 as <-. reflexivity.
Defined.

Lemma registry_in_flight_witness :
  ∃ w, run demo_pid demo_codecs (init (fs_items 5) 100)
         [Load (items_loader false); Resume 0] = Some w
       ∧ ∃ l s, commands w !! 0%nat = Some {| loader := l; stage := s |}
                ∧ key l = "docs/data/items.csv" ∧ is_finalized s = false.
Proof.
  destruct (run demo_pid demo_codecs (init (fs_items 5) 100)
              [Load (items_loader false); Resume 0%nat])
    as [w|] eqn:Hrun; [|vm_compute in Hrun; discriminate Hrun].
  exists w. split; [done|].
  apply (registry_in_flight demo_pid demo_codecs _ _ _ _ "docs/data/items.csv" 0%nat
           Hrun).
  vm_compute in Hrun. injection Hrun as <-. reflexivity.
Defined.

(** The script of the example loader has printed [a,b] at time 60 and
    exited with code 0 at time 100: the load is about to rename its temporary
    file.  The script itself was last modified at [scriptMtime]. *)
Definition world_produced (scriptMtime : Z) : World :=
  {| fs := <["docs/.observablehq/cache/data/items.csv.77" := File "a,b" 60]>
             (fs_items scriptMtime);
     now := 100;
     runningCommands := {[ "docs/data/items.csv" := 0%nat ]};
     commands := [{| loader := items_loader false; stage := AwaitRename |}];
     execs := [0%nat]; handles := [0%nat]; output := []; returned := [0%nat] |}.

Lemma reload_after_success_witness :
  (∃ w',
     run demo_pid demo_codecs (world_produced 5)
       [Resume 0; Resume 0; Resume 0; Tick 5000; Load (items_loader false);
        Resume 1; Resume 1] = Some w'
     ∧ settlement w' 1 = Some (Resolved ".observablehq/cache/data/items.csv")
     ∧ execs w' = [0%nat]
     ∧ fs w' !! items_cache = Some (File "a,b" 60))
  ∧ (∃ w',
       run demo_pid demo_codecs (world_produced 80)
         [Resume 0; Resume 0; Resume 0; Tick 5000; Load (items_loader false);
          Resume 1; Resume 1] = Some w'
       ∧ stage_of w' 1 = Some (AwaitErrorStat (Some 80))).
Proof.
  split.
  - destruct (reload_after_success demo_pid demo_codecs (world_produced 5) 0
                (items_loader false) "a,b" 60 5 5000)
      as (w' & Hrun & _ & Hexecs & Hcache & Hfresh & _);
      [reflexivity|reflexivity|reflexivity|discriminate|discriminate|lia|].
    destruct Hfresh as [Hsettled _]; [lia|].
    exists w'. split; [exact Hrun|]. split; [exact Hsettled|].
    split; [exact Hexecs|exact Hcache].
  - destruct (reload_after_success demo_pid demo_codecs (world_produced 80) 0
                (items_loader false) "a,b" 60 80 5000)
      as (w' & Hrun & _ & _ & _ & _ & _ & Hstale);
      [reflexivity|reflexivity|reflexivity|discriminate|discriminate|lia|].
    destruct Hstale as [Hstage _]; [lia|reflexivity|].
    exists w'. split; [exact Hrun|exact Hstage].
Defined.

(** The script of the example loader, running for the first time, has
    printed [Trace] at time [written_at] and exited with code 1 at time 100:
    there is no cache file, and the load is about to rename its temporary
    file to the error marker. *)
Definition world_failed (written_at : Z) : World :=
  {| fs := <["docs/.observablehq/cache/data/items.csv.77" := File "Trace" written_at]>
             (fs_items 5);
     now := 100;
     runningCommands := {[ "docs/data/items.csv" := 0%nat ]};
     commands := [{| loader := items_loader false;
                     stage := AwaitRenameError (ExitError (Some 1)) |}];
     execs := [0%nat]; handles := [0%nat]; output := []; returned := [0%nat] |}.

Lemma reload_after_failure_witness :
  (∃ w',
     run demo_pid demo_codecs (world_failed 90)
       [Resume 0; Resume 0; Resume 0; Tick 400; Load (items_loader false);
        Resume 1; Resume 1; Resume 1] = Some w'
     ∧ settlement w' 1 = Some (Rejected RecentError)
     ∧ execs w' = [0%nat])
  ∧ (∃ w',
       run demo_pid demo_codecs (world_failed 90)
         [Resume 0; Resume 0; Resume 0; Tick 990; Load (items_loader false);
          Resume 1; Resume 1; Resume 1; Resume 1] = Some w'
       ∧ stage_of w' 1 = Some AwaitPrepareTemp
       ∧ fs w' !! items_marker = None).
Proof.
  split.
  - destruct (reload_after_failure demo_pid demo_codecs (world_failed 90) 0
                (items_loader false) "Trace" (ExitError (Some 1)) 90 5 400)
      as [Hsoon _];
      [reflexivity|reflexivity|reflexivity|reflexivity|discriminate|discriminate|lia|].
    destruct Hsoon as (w' & Hrun & _ & Hsettled & Hexecs & _);
      [lia|by vm_compute|].
    exists w'. split; [exact Hrun|]. split; [exact Hsettled|exact Hexecs].
  - destruct (reload_after_failure demo_pid demo_codecs (world_failed 90) 0
                (items_loader false) "Trace" (ExitError (Some 1)) 90 5 990)
      as [_ Hlate];
      [reflexivity|reflexivity|reflexivity|reflexivity|discriminate|discriminate|lia|].
    destruct Hlate as (w' & Hrun & _ & Hstage & _ & Hmarker);
      [right; by vm_compute|].
    exists w'. split; [exact Hrun|]. split; [exact Hstage|exact Hmarker].
Defined.

(** ** Extractors at work *)

Section ExtractorFacts.
Import Str Path Fs StrFacts PathFacts CachePaths FsFacts.

Variable pid : N.
Variable codecs : Codecs.

(** An extraction and the three operations that end the load. *)
Lemma extract_run w1 p l archivePath written err :
  commands w1 !! p = Some {| loader := l; stage := AwaitExtract archivePath |} →
  extract codecs l archivePath (fs w1) = Some (written, err) →
  ∃ w',
    run pid codecs w1 [Resume p; Resume p; Resume p; Resume p] = Some w'
    ∧ execs w' = execs w1
    ∧ settlement w' p
      = Some (match err with
              | None => Resolved (outputPath l)
              | Some e => Rejected e
              end)
    ∧ (err = None → fs w' !! cachePath l = Some (File written (now w1)))
    ∧ (err ≠ None → fs w' !! cachePath l = fs w1 !! cachePath l).
Proof.
  intros Hc1 Hextract.
  pose proof (cache_ne_temp pid l) as Hct.
  pose proof (cache_ne_error pid l) as Hce.
  destruct (finish_run pid codecs w1 p l _ written err Hc1)
    as (w4 & Hrun4 & Hfs4 & _ & Hex4 & _ & _ & _ & Hc4).
  exists w4. split.
  { rewrite run_cons. cbn [step]. unfold resume at 1. rewrite Hc1.
    cbv beta iota delta [stage loader]. by rewrite Hextract. }
  split; [done|]. split.
  { unfold settlement, stage_of. by rewrite Hc4. }
  rewrite Hfs4. split.
  - intros ->. by rewrite lookup_insert_eq.
  - intros Herr. destruct err as [e|]; [|done]. by rewrite finished_elsewhere.
Qed.

(** C8. The load of a tar-family extractor, once the path of its
    archive is known (for a static archive, its name joined to the root),
    reads the archive and decodes it, through gunzip first
    exactly when the extractor was made with [gunzip] ([.tar.gz] and [.tgz]
    make it so, [.tar] does not), and scans the entries in order: every entry
    before the first one named by the extractor's [inflatePath] is drained,
    that entry alone is piped to the output and nothing after it is looked at
    (not even an error of the stream), so that the load resolves and the
    cache file holds that member and nothing else; when no entry has that
    name and the archive ends, the load rejects with the "file not found"
    error, whose code is ENOENT (with the error of the stream when that
    broke), and leaves the cache path as it was.  No other production step
    is called. *)
Theorem tar_extraction_scan (w : World) (p : nat) (o : LoaderOptions) (pre : Preload)
    (inflatePath archivePath : string) (gz : bool) (archive : bytes) (m : Z)
    (entries : list (string * bytes)) (stream_error : option Error) :
  let l := TarExtractor o pre inflatePath gz in
  commands w !! p = Some {| loader := l; stage := AwaitExtract archivePath |} →
  fs w !! archivePath = Some (File archive m) →
  untar codecs (if gz then gunzip codecs archive else archive)
    = (entries, stream_error) →
  ∃ w',
    run pid codecs w [Resume p; Resume p; Resume p; Resume p] = Some w'
    ∧ execs w' = execs w
    ∧ (∀ before data after,
         entries = before ++ (inflatePath, data) :: after →
         Forall (λ e, e.1 ≠ inflatePath) before →
         Tar.scan inflatePath entries
           = (map (λ e, Tar.Resume e.1) before ++ [Tar.Pipe inflatePath data], Some data)
         ∧ extract codecs l archivePath (fs w) = Some (data, None)
         ∧ settlement w' p = Some (Resolved (outputPath l))
         ∧ ∃ t, fs w' !! cachePath l = Some (File data t))
    ∧ (Forall (λ e, e.1 ≠ inflatePath) entries →
         Tar.scan inflatePath entries = (map (λ e, Tar.Resume e.1) entries, None)
         ∧ fs w' !! cachePath l = fs w !! cachePath l
         ∧ (stream_error = None →
            extract codecs l archivePath (fs w) = Some ("", Some FileNotFound)
            ∧ settlement w' p = Some (Rejected FileNotFound)
            ∧ error_code FileNotFound = Some "ENOENT"
            ∧ isEnoent FileNotFound = true)
         ∧ (∀ e, stream_error = Some e → settlement w' p = Some (Rejected e)))
    ∧ new_Extractor TarClass o pre inflatePath = TarExtractor o pre inflatePath false
    ∧ new_Extractor TarGzClass o pre inflatePath = TarExtractor o pre inflatePath true
    ∧ map_get ".tar" extractors = Some TarClass
    ∧ map_get ".tar.gz" extractors = Some TarGzClass
    ∧ map_get ".tgz" extractors = Some TarGzClass
    ∧ (∀ w0 archive0,
         pre = PreloadStatic archive0 →
         commands w0 !! p = Some {| loader := l; stage := AwaitPreload None |} →
         resume pid codecs p w0
         = Some (set_stage p (AwaitExtract (join [root o; archive0])) w0)).
Proof.
  intros l Hc Hfile Huntar.
  assert (extract codecs l archivePath (fs w)
          = Some (Tar.exec codecs gz inflatePath archive)) as Hextract.
  { cbn [extract l]. unfold readFile. by rewrite Hfile. }
  destruct (Tar.exec codecs gz inflatePath archive) as [written err] eqn:Hexec.
  destruct (extract_run w p l _ written err Hc Hextract)
    as (w' & Hrun & Hex & Hset & Hok & Hfail).
  exists w'. split; [exact Hrun|]. split; [exact Hex|].
  split; [|split].
  - intros before data after -> Hbefore.
    rewrite (exec_found codecs gz inflatePath archive before data after stream_error)
      in Hexec by done.
    injection Hexec as <- <-.
    split; [by apply scan_found|]. split; [done|]. split; [done|].
    exists (now w). by apply Hok.
  - intros Hnone.
    rewrite (exec_not_found codecs gz inflatePath archive entries stream_error)
      in Hexec by done.
    injection Hexec as <- <-.
    split; [by apply scan_not_found|]. split; [by apply Hfail|]. split.
    + intros ->. by repeat split.
    + by intros e ->.
  - repeat (split; [reflexivity|]).
    intros w0 archive0 -> H0. unfold resume. rewrite H0. reflexivity.
Qed.

(** X18. An extractor over a static zip archive reads the archive at
    [join(root, archive)]: when it can be read and decoded and holds a
    member named [inflatePath], the load resolves and the cache file is that
    member; when the member is missing the load rejects with a not-found
    error that [isEnoent] recognises, when the archive is missing with the
    error of [readFile]; a rejected load leaves the cache path as it was, and
    no other production step is called. *)
Theorem zip_static_load (w : World) (p : nat) (o : LoaderOptions)
    (archive inflatePath : string) :
  let l := ZipExtractor o (PreloadStatic archive) inflatePath in
  commands w !! p = Some {| loader := l; stage := AwaitPreload None |} →
  ∃ w',
    run pid codecs w [Resume p; Resume p; Resume p; Resume p; Resume p] = Some w'
    ∧ execs w' = execs w
    ∧ (∀ content m files data,
         fs w !! join [root o; archive] = Some (File content m) →
         unzip codecs content = Some files → files !! inflatePath = Some data →
         settlement w' p = Some (Resolved (outputPath l))
         ∧ fs w' !! cachePath l = Some (File data (now w)))
    ∧ (∀ content m files,
         fs w !! join [root o; archive] = Some (File content m) →
         unzip codecs content = Some files → files !! inflatePath = None →
         settlement w' p = Some (Rejected FileNotFound)
         ∧ isEnoent FileNotFound = true
         ∧ fs w' !! cachePath l = fs w !! cachePath l)
    ∧ (fs w !! join [root o; archive] = None →
       settlement w' p = Some (Rejected (Errno "ENOENT"))
       ∧ isEnoent (Errno "ENOENT") = true
       ∧ fs w' !! cachePath l = fs w !! cachePath l).
Proof.
  intros l Hc.
  set (w1 := set_stage p (AwaitExtract (join [root o; archive])) w).
  assert (commands w1 !! p
          = Some {| loader := l; stage := AwaitExtract (join [root o; archive]) |})
    as Hc1 by (subst w1; by lookup_command Hc).
  assert (resume pid codecs p w = Some w1) as H1.
  { unfold resume. rewrite Hc. reflexivity. }
  destruct (extract codecs l (join [root o; archive]) (fs w1)) as [[written err]|]
    eqn:Hextract; [|cbn in Hextract; by destruct (readFile _ _)].
  destruct (extract_run w1 p l _ written err Hc1 Hextract)
    as (w' & Hrun & Hex & Hset & Hok & Hfail).
  exists w'. split; [by rewrite run_cons; cbn [step]; rewrite H1|].
  split; [done|].
  cbn [extract l] in Hextract. change (fs w1) with (fs w) in *.
  change (now w1) with (now w) in *.
  unfold readFile, Zip.exec in Hextract.
  split; [|split].
  - intros content m files data Hfile Hzip Hmember.
    rewrite Hfile, Hzip, Hmember in Hextract. simplify_eq. split; [done|by apply Hok].
  - intros content m files Hfile Hzip Hmember.
    rewrite Hfile, Hzip, Hmember in Hextract. simplify_eq.
    split; [done|]. split; [done|]. by apply Hfail.
  - intros Hnone. rewrite Hnone in Hextract. simplify_eq.
    split; [done|]. split; [done|]. by apply Hfail.
Qed.

(** X19. An extractor whose archive is produced by a loader waits for
    the load [q] of that loader, both loaders having the same root.  While
    [q] has not settled the extractor cannot go on; when [q] has resolved,
    the archive the extractor opens is the cache file of the archive loader,
    the very file its load wrote; when [q] has rejected, the extractor's load
    rejects with the same error, executes nothing more and leaves its cache
    path as it was. *)
Theorem nested_preload (fs0 : gmap string node) (now0 : Z) (evs : list Event)
    (w : World) (p q : nat) (l archiveLoader : Loader) (s : Stage) :
  run pid codecs (init fs0 now0) evs = Some w →
  commands w !! p = Some {| loader := l; stage := AwaitPreload (Some q) |} →
  commands w !! q = Some {| loader := archiveLoader; stage := s |} →
  root (options archiveLoader) = root (options l) →
  (settlement_of s = None → resume pid codecs p w = None)
  ∧ (∀ x, settlement_of s = Some (Resolved x) →
          resume pid codecs p w
          = Some (set_stage p (AwaitExtract (cachePath archiveLoader)) w))
  ∧ (∀ e, settlement_of s = Some (Rejected e) →
          ∃ w', run pid codecs w [Resume p; Resume p; Resume p; Resume p] = Some w'
                ∧ settlement w' p = Some (Rejected e)
                ∧ execs w' = execs w
                ∧ fs w' !! cachePath l = fs w !! cachePath l).
Proof.
  intros Hrun Hp Hq Hroot.
  destruct (inv_reachable _ _ _ _ _ _ Hrun) as [_ HR].
  split; [|split].
  - intros Hs. unfold resume. rewrite Hp. cbv beta iota delta [stage loader].
    rewrite Hq. simpl. by rewrite Hs.
  - intros x Hs. unfold resume. rewrite Hp. cbv beta iota delta [stage loader].
    rewrite Hq. simpl. rewrite Hs.
    rewrite (HR q archiveLoader s x Hq (settlement_result _ _ Hs)).
    unfold cachePath. by rewrite Hroot.
  - intros e Hs.
    pose proof (cache_ne_temp pid l) as Hct.
    pose proof (cache_ne_error pid l) as Hce.
    destruct (finish_run pid codecs w p l _ "" (Some e) Hp)
      as (w4 & Hrun4 & Hfs4 & _ & Hex4 & _ & _ & _ & Hc4).
    exists w4. split.
    { rewrite run_cons. cbn [step]. unfold resume at 1. rewrite Hp.
      cbv beta iota delta [stage loader]. rewrite Hq. simpl. by rewrite Hs. }
    split; [unfold settlement, stage_of; by rewrite Hc4|].
    split; [done|]. rewrite Hfs4. by rewrite finished_elsewhere.
Qed.

End ExtractorFacts.

(** A decoder that knows one zip archive, with two members. *)
Definition zip_codecs : Codecs :=
  {| unzip := λ b, if bool_decide (b = "PK")
                   then Some (list_to_map [("inner/report.json", "{}"); ("x.csv", "1,2")])
                   else None;
     untar := λ _, ([], None);
     gunzip := λ b, b |}.

(** The extractor [find] builds for [archive/bundle/inner/report.json],
    about to read its static archive. *)
Definition world_zip (inflatePath : string) : World :=
  {| fs := fs_archive; now := 100;
     runningCommands := {[ "docs/archive/bundle/inner/report.json" := 0%nat ]};
     commands :=
       [{| loader := ZipExtractor
                       {| root := "docs"; path := "docs/archive/bundle.zip";
                          targetPath := "archive/bundle/inner/report.json";
                          useStale := false |}
                       (PreloadStatic "archive/bundle.zip") inflatePath;
           stage := AwaitPreload None |}];
     execs := [0%nat]; handles := [0%nat]; output := []; returned := [0%nat] |}.

Lemma zip_static_load_witness :
  (∃ w', run demo_pid zip_codecs (world_zip "inner/report.json")
           [Resume 0; Resume 0; Resume 0; Resume 0; Resume 0] = Some w'
         ∧ fs w' !! "docs/.observablehq/cache/archive/bundle/inner/report.json"
           = Some (File "{}" 100))
  ∧ (∃ w', run demo_pid zip_codecs (world_zip "inner/missing.json")
             [Resume 0; Resume 0; Resume 0; Resume 0; Resume 0] = Some w'
           ∧ settlement w' 0 = Some (Rejected FileNotFound)).
Proof.
  split.
  - destruct (zip_static_load demo_pid zip_codecs (world_zip "inner/report.json") 0
                {| root := "docs"; path := "docs/archive/bundle.zip";
                   targetPath := "archive/bundle/inner/report.json";
                   useStale := false |}
                "archive/bundle.zip" "inner/report.json" eq_refl)
      as (w' & Hrun & _ & Hok & _).
    exists w'. split; [exact Hrun|].
    destruct (Hok "PK" 3 _ "{}" eq_refl eq_refl eq_refl) as [_ Hcache].
    exact Hcache.
  - destruct (zip_static_load demo_pid zip_codecs (world_zip "inner/missing.json") 0
                {| root := "docs"; path := "docs/archive/bundle.zip";
                   targetPath := "archive/bundle/inner/report.json";
                   useStale := false |}
                "archive/bundle.zip" "inner/missing.json" eq_refl)
      as (w' & Hrun & _ & _ & Hmissing & _).
    exists w'. split; [exact Hrun|].
    destruct (Hmissing "PK" 3 _ eq_refl eq_refl eq_refl) as [Hset _].
    exact Hset.
Defined.

(** The extractor [find] builds for [data/b/c.csv] in [data.tgz], about
    to open the archive, with the decoder that knows it ([demo_codecs]). *)
Definition world_tar (inflatePath : string) : World :=
  {| fs := list_to_map [("docs", Dir 1); ("docs/data.tgz", File "gz" 3)];
     now := 100;
     runningCommands := {[ "docs/data/b/c.csv" := 0%nat ]};
     commands :=
       [{| loader := new_Extractor TarGzClass
                       {| root := "docs"; path := "docs/data.tgz";
                          targetPath := "data/b/c.csv"; useStale := false |}
                       (PreloadStatic "data.tgz") inflatePath;
           stage := AwaitExtract "docs/data.tgz" |}];
     execs := [0%nat]; handles := [0%nat]; output := []; returned := [0%nat] |}.

Lemma tar_extraction_scan_witness :
  (∃ w', run demo_pid demo_codecs (world_tar "b/c.csv")
           [Resume 0; Resume 0; Resume 0; Resume 0] = Some w'
         ∧ settlement w' 0 = Some (Resolved ".observablehq/cache/data/b/c.csv")
         ∧ ∃ t, fs w' !! "docs/.observablehq/cache/data/b/c.csv" = Some (File "1,2" t))
  ∧ (∃ w', run demo_pid demo_codecs (world_tar "a.txt")
             [Resume 0; Resume 0; Resume 0; Resume 0] = Some w'
           ∧ ∃ t, fs w' !! "docs/.observablehq/cache/data/b/c.csv"
                  = Some (File "AAA" t))
  ∧ (∃ w', run demo_pid demo_codecs (world_tar "missing")
             [Resume 0; Resume 0; Resume 0; Resume 0] = Some w'
           ∧ settlement w' 0 = Some (Rejected FileNotFound)
           ∧ fs w' !! "docs/.observablehq/cache/data/b/c.csv" = None).
Proof.
  pose (o := {| root := "docs"; path := "docs/data.tgz";
                targetPath := "data/b/c.csv"; useStale := false |}).
  pose (entries := [("a.txt", "AAA"); ("b/c.csv", "1,2"); ("a.txt", "ZZZ")]
                   : list (string * bytes)).
  split; [|split].
  - destruct (tar_extraction_scan demo_pid demo_codecs (world_tar "b/c.csv") 0 o
                (PreloadStatic "data.tgz") "b/c.csv" "docs/data.tgz" true "gz" 3
                entries None eq_refl eq_refl eq_refl)
      as (w' & Hrun & _ & Hfound & _).
    exists w'. split; [exact Hrun|].
    destruct (Hfound [("a.txt", "AAA")] "1,2" [("a.txt", "ZZZ")] eq_refl)
      as (_ & _ & Hset & Hcache).
    { repeat constructor; simpl; discriminate. }
    split; [exact Hset|exact Hcache].
  - destruct (tar_extraction_scan demo_pid demo_codecs (world_tar "a.txt") 0 o
                (PreloadStatic "data.tgz") "a.txt" "docs/data.tgz" true "gz" 3
                entries None eq_refl eq_refl eq_refl)
      as (w' & Hrun & _ & Hfound & _).
    exists w'. split; [exact Hrun|].
    destruct (Hfound [] "AAA" [("b/c.csv", "1,2"); ("a.txt", "ZZZ")] eq_refl)
      as (_ & _ & _ & Hcache).
    { constructor. }
    exact Hcache.
  - destruct (tar_extraction_scan demo_pid demo_codecs (world_tar "missing") 0 o
                (PreloadStatic "data.tgz") "missing" "docs/data.tgz" true "gz" 3
                entries None eq_refl eq_refl eq_refl)
      as (w' & Hrun & _ & _ & Hmissing & _).
    exists w'. split; [exact Hrun|].
    destruct Hmissing as (_ & Hcache & Hnone & _).
    { repeat constructor; simpl; discriminate. }
    destruct (Hnone eq_refl) as (_ & Hset & _).
    split; [exact Hset|]. exact Hcache.
Defined.

(** The extractor [find] builds for [data/x.csv] over the archive that
    [data.zip.py] produces. *)
Definition zip_loader : Loader :=
  CommandLoader {| root := "docs"; path := "docs/data.zip.py";
                   targetPath := "data.zip"; useStale := false |}
    "python3" ["docs/data.zip.py"].

Definition x_extractor : Loader :=
  ZipExtractor {| root := "docs"; path := "docs/data.zip.py";
                  targetPath := "data/x.csv"; useStale := false |}
    (PreloadLoader zip_loader) "x.csv".

Lemma nested_preload_witness :
  ∃ w, run demo_pid zip_codecs (init fs_archive 100)
         [Load x_extractor; Resume 0; Resume 0; Resume 0; Resume 0; Resume 0; Resume 0]
       = Some w
       ∧ stage_of w 0 = Some (AwaitPreload (Some 1%nat))
       ∧ resume demo_pid zip_codecs 0 w = None.
Proof.
  destruct (run demo_pid zip_codecs (init fs_archive 100)
              [Load x_extractor; Resume 0%nat; Resume 0%nat; Resume 0%nat;
               Resume 0%nat; Resume 0%nat; Resume 0%nat])
    as [w|] eqn:Hrun; [|vm_compute in Hrun; discriminate Hrun].
  assert (commands w !! 0%nat
          = Some {| loader := x_extractor; stage := AwaitPreload (Some 1%nat) |}) as Hp.
  { vm_compute in Hrun. injection Hrun as <-. reflexivity. }
  assert (commands w !! 1%nat
          = Some {| loader := zip_loader; stage := AwaitLoaderStat |}) as Hq.
  { vm_compute in Hrun. injection Hrun as <-. reflexivity. }
  destruct (nested_preload demo_pid zip_codecs _ _ _ w 0 1 x_extractor zip_loader
              AwaitLoaderStat Hrun Hp Hq eq_refl) as (Hwait & _).
  exists w. split; [reflexivity|]. split.
  - unfold stage_of. by rewrite Hp.
  - by apply Hwait.
Defined.
